(** * The sift engine of [emd/sift.py]: a shallow embedding

    Samples are modelled as exact rationals ([Q]); the places where NumPy
    leaves the rationals (a division by zero giving [inf] or [nan]) are
    modelled by [npfloat].  Python exceptions are the constructors of [exn],
    a [while] loop is a function by recursion on a fuel counter returning
    [OutOfFuel] when the counter runs out, and the numerical collaborators of
    the module (spline interpolation, logarithm, standard deviation, cosine,
    random generators) are variables of the sections that use them. *)

From Stdlib Require Import Ascii String List ZArith QArith Qabs Qround Bool Lia Lqa.
Import ListNotations.

(** ** Outcomes of fallible, possibly looping code *)

Inductive exn : Type :=
| EMDSiftCovergeError (niters : Z)
| ValueError (msg : string)
| UnboundLocalError (var : string)
| IndexError
| TypeError
| ZeroDivisionError.

Inductive outcome (A : Type) : Type :=
| Ok (a : A)
| Raise (e : exn)
| OutOfFuel.

Arguments Ok {A} a.
Arguments Raise {A} e.
Arguments OutOfFuel {A}.

Definition bind {A B : Type} (c : outcome A) (k : A -> outcome B) : outcome B :=
  match c with
  | Ok a => k a
  | Raise e => Raise e
  | OutOfFuel => OutOfFuel
  end.

Notation "x <- c ;; k" := (bind c (fun x => k))
  (at level 61, c at next level, right associativity).

Fixpoint mapM {A B : Type} (f : A -> outcome B) (l : list A) : outcome (list B) :=
  match l with
  | [] => Ok []
  | a :: l' => b <- f a ;; bs <- mapM f l' ;; Ok (b :: bs)
  end.

(** ** Numbers and arrays *)

Definition Qlt_bool (x y : Q) : bool := negb (Qle_bool y x).

(** What a NumPy float division can produce. *)
Inductive npfloat : Type :=
| Fin (q : Q)
| PInf
| NInf
| NaN.

Definition np_div (a b : Q) : npfloat :=
  if Qeq_bool b 0 then
    if Qeq_bool a 0 then NaN else if Qlt_bool a 0 then NInf else PInf
  else Fin (a / b).

(** [x < y] and [x > y] for a NumPy float [x] and a finite [y]: comparisons
    with [nan] are false. *)
Definition np_lt (x : npfloat) (y : Q) : bool :=
  match x with
  | Fin q => Qlt_bool q y
  | NInf => true
  | PInf | NaN => false
  end.

Definition np_gt (x : npfloat) (y : Q) : bool :=
  match x with
  | Fin q => Qlt_bool y q
  | PInf => true
  | NInf | NaN => false
  end.

(** A 1-D signal (the [nsamples x 1] column the module works on). *)
Definition signal : Type := list Q.

(** A 2-D array [nsamples x nimfs], as the list of its columns. *)
Definition matrix : Type := list signal.

Fixpoint map2 {A B C : Type} (f : A -> B -> C) (l : list A) (m : list B) : list C :=
  match l, m with
  | a :: l', b :: m' => f a b :: map2 f l' m'
  | _, _ => []
  end.

Definition vadd (x y : signal) : signal := map2 Qplus x y.
Definition vsub (x y : signal) : signal := map2 Qminus x y.
Definition vscale (c : Q) (x : signal) : signal := map (Qmult c) x.
Definition vneg (x : signal) : signal := map Qopp x.
Definition vabs (x : signal) : signal := map Qabs x.
Definition np_sum (x : signal) : Q := fold_right Qplus 0 x.
Definition sumsq (x : signal) : Q := np_sum (map (fun v => v * v) x).
Definition np_mean (x : signal) : Q := np_sum x / inject_Z (Z.of_nat (length x)).

(** [imf.sum(axis=1)] for an array of [n] rows. *)
Definition row_sums (n : nat) (imf : matrix) : signal :=
  fold_left vadd imf (repeat 0 n).

(** Python's [max] and [min] over a sequence of locations. *)
Definition qmax (l : list Q) : Q :=
  match l with
  | [] => 0
  | a :: l' => fold_left (fun m v => if Qlt_bool m v then v else m) l' a
  end.

Definition qmin (l : list Q) : Q :=
  match l with
  | [] => 0
  | a :: l' => fold_left (fun m v => if Qlt_bool v m then v else m) l' a
  end.

(** [np.arange(a, b)] with unit step. *)
Definition np_arange (a b : Q) : list Q :=
  map (fun k => a + inject_Z (Z.of_nat k)) (seq 0 (Z.to_nat (Qceiling (b - a)))).

(** ** Extrema detection *)

(** [data.take(i, mode='clip')]. *)
Definition take_clip (x : signal) (i : Z) : Q :=
  nth (Z.to_nat (Z.max 0 (Z.min i (Z.of_nat (length x) - 1)))) x 0.

(** [scipy.signal.argrelextrema(X, np.greater, order=1)]: the indices whose
    sample is strictly greater than both neighbours, the neighbours of the two
    end samples being the end samples themselves. *)
Definition argrelextrema_greater (x : signal) : list nat :=
  filter (fun i =>
            Qlt_bool (take_clip x (Z.of_nat i + 1)) (take_clip x (Z.of_nat i))
            && Qlt_bool (take_clip x (Z.of_nat i - 1)) (take_clip x (Z.of_nat i)))
         (seq 0 (length x)).

(** One column of [compute_parabolic_extrema]: [(t, y_hat)] for the triplet
    [(y0, y1, y2)] around the extremum at [loc]. *)
Definition parabolic_extremum (y0 y1 y2 loc : Q) : Q * Q :=
  let a := (1#2) * y0 - y1 + (1#2) * y2 in
  let b := - (5#2) * y0 + 4 * y1 - (3#2) * y2 in
  let c := 3 * y0 - 3 * y1 + y2 in
  let tp := - b / (2 * a) in
  (tp - 2 + loc, tp * b / 2 + c).

Definition compute_parabolic_extrema (x : signal) (locs : list nat) : list Q * list Q :=
  List.split (map (fun i => parabolic_extremum (nth (i - 1) x 0) (nth i x 0) (nth (i + 1) x 0)
                                               (inject_Z (Z.of_nat i))) locs).

(** [_find_extrema(X, parabolic_extrema=...)]; [peak_prom_thresh] is [None]
    at every call of the module. *)
Definition _find_extrema (x : signal) (parabolic_extrema : bool) : list Q * list Q :=
  let ext_locs := argrelextrema_greater x in
  match ext_locs with
  | [] => ([], [])
  | _ =>
      if parabolic_extrema then compute_parabolic_extrema x ext_locs
      else (map (fun i => inject_Z (Z.of_nat i)) ext_locs,
            map (fun i => nth i x 0) ext_locs)
  end.

(** ** [np.pad] *)

(** The padding modes of [np.pad] the model covers: [reflect] with its
    [reflect_type], [edge], and [median] with [stat_length=1]. *)
Inductive pad_mode : Type :=
| reflect (odd : bool)
| edge
| median1.

(** One pass of NumPy's [_set_reflect_both] over the area [a] filled so far
    (edge not included): the new area and the widths still to pad. *)
Definition set_reflect_both (odd : bool) (a : list Q) (left_pad right_pad : nat)
  : list Q * (nat * nat) :=
  let old_length := (length a - 1)%nat in
  let lchunk_length := Nat.min old_length left_pad in
  let rchunk_length := Nat.min old_length right_pad in
  let left_chunk := rev (firstn lchunk_length (tl a)) in
  let right_chunk := firstn rchunk_length (tl (rev a)) in
  let left_chunk := if odd then map (fun v => 2 * hd 0 a - v) left_chunk else left_chunk in
  let right_chunk := if odd then map (fun v => 2 * last a 0 - v) right_chunk else right_chunk in
  (left_chunk ++ a ++ right_chunk, ((left_pad - lchunk_length)%nat, (right_pad - rchunk_length)%nat)).

(** [while left_index > 0 or right_index > 0: ... _set_reflect_both(...)]. *)
Fixpoint reflect_loop (fuel : nat) (odd : bool) (a : list Q) (left_pad right_pad : nat) : list Q :=
  match left_pad, right_pad with
  | O, O => a
  | _, _ =>
      match fuel with
      | O => a
      | S fuel' =>
          let '(a', (l', r')) := set_reflect_both odd a left_pad right_pad in
          reflect_loop fuel' odd a' l' r'
      end
  end.

Definition pad_edges (a : list Q) (w : nat) : list Q :=
  repeat (hd 0 a) w ++ a ++ repeat (last a 0) w.

(** [np.pad(a, w, mode, ...)] for a 1-D array and one width for both sides. *)
Definition np_pad (a : list Q) (w : nat) (mode : pad_mode) : outcome (list Q) :=
  match a with
  | [] => if Nat.eqb w 0 then Ok []
          else Raise (ValueError "can't extend empty axis 0 using modes other than 'constant' or 'empty'")
  | [_] => Ok (pad_edges a w)
  | _ =>
      match mode with
      | reflect odd => Ok (reflect_loop (w + w) odd a w w)
      | edge | median1 => Ok (pad_edges a w)
      end
  end.

(** ** Padded extrema *)

Record extrema_opts : Type := {
  pad_width : Z;
  parabolic_extrema : bool;
  loc_pad_mode : pad_mode;
  mag_pad_mode : pad_mode
}.

(** The options [interp_envelope] and [get_padded_extrema] use when the
    caller gives none. *)
Definition default_extrema_opts : extrema_opts :=
  {| pad_width := 2; parabolic_extrema := false;
     loc_pad_mode := reflect true; mag_pad_mode := median1 |}.

(** The loop [while max(ret_max_locs) < len(X) or min(ret_max_locs) >= 0]. *)
Fixpoint keep_padding (fuel : nat) (n : nat) (w : nat) (lm mm : pad_mode)
         (ret_max_locs ret_max_ext : list Q) : outcome (list Q * list Q) :=
  match fuel with
  | O => OutOfFuel
  | S fuel' =>
      if Qlt_bool (qmax ret_max_locs) (inject_Z (Z.of_nat n)) || Qle_bool 0 (qmin ret_max_locs)
      then
        locs <- np_pad ret_max_locs w lm ;;
        ext <- np_pad ret_max_ext w mm ;;
        keep_padding fuel' n w lm mm locs ext
      else Ok (ret_max_locs, ret_max_ext)
  end.

Definition get_padded_extrema (fuel : nat) (x : signal) (mode : string) (o : extrema_opts)
  : outcome (option (list Q * list Q)) :=
  found <-
    (if String.eqb mode "peaks" then Ok (_find_extrema x (parabolic_extrema o))
     else if String.eqb mode "troughs" then
       let '(max_locs, max_ext) := _find_extrema (vneg x) (parabolic_extrema o) in
       Ok (max_locs, vneg max_ext)
     else if String.eqb mode "abs_peaks" then Ok (_find_extrema (vabs x) (parabolic_extrema o))
     else Raise (ValueError "Mode not recognised by get_padded_extrema")) ;;
  let '(max_locs, max_ext) := found in
  if (length max_locs <=? 1)%nat then Ok None
  else
    let pad_width := if (Z.of_nat (length max_locs) <? pad_width o)%Z
                     then Z.of_nat (length max_locs) else pad_width o in
    if (pad_width =? 0)%Z then Ok (Some (max_locs, max_ext))
    else if (pad_width <? 0)%Z then Raise (ValueError "index can't contain negative values")
    else
      let w := Z.to_nat pad_width in
      ret_max_locs <- np_pad max_locs w (loc_pad_mode o) ;;
      ret_max_ext <- np_pad max_ext w (mag_pad_mode o) ;;
      r <- keep_padding fuel (length x) w (loc_pad_mode o) (mag_pad_mode o)
                        ret_max_locs ret_max_ext ;;
      Ok (Some r).

(** ** Stopping criteria *)

(** [sd_stop(proto_imf, prev_imf, sd)]: the flag and the metric. *)
Definition sd_stop (proto_imf prev_imf : signal) (sd : Q) : bool * npfloat :=
  let metric := np_div (sumsq (vsub proto_imf prev_imf)) (sumsq proto_imf) in
  let stop := np_lt metric sd in
  (stop, metric).

(** [rilling_stop(upper_env, lower_env, sd1, sd2, tol)]. *)
Definition rilling_stop (upper_env lower_env : signal) (sd1 sd2 tol : Q) : bool * npfloat :=
  let avg_env := map (fun v => v / 2) (vadd upper_env lower_env) in
  let amp := map (fun v => Qabs v / 2) (vsub upper_env lower_env) in
  let eval_metric := map2 (fun a b => np_div (Qabs a) b) avg_env amp in
  let metric :=
    np_div (inject_Z (Z.of_nat (length (filter (fun e => np_gt e sd1) eval_metric))))
           (inject_Z (Z.of_nat (length eval_metric))) in
  let continue1 := np_gt metric tol in
  let continue2 := existsb (fun e => np_gt e sd2) eval_metric in
  let stop := Bool.eqb (continue1 || continue2) false in
  (stop, metric).

(** [fixed_stop(niters, max_iters)]. *)
Definition fixed_stop (niters max_iters : Z) : bool := (niters =? max_iters)%Z.

(** ** Options of the refiner *)

Record imf_opts : Type := {
  env_step_size : Q;
  max_iters : Z;
  energy_thresh : option Q;
  stop_method : string;
  sd_thresh : Q;
  rilling_thresh : Q * Q * Q
}.

(** The defaults of [get_next_imf]'s signature, which are also what [sift]
    uses when no [imf_opts] is given. *)
Definition default_imf_opts : imf_opts :=
  {| env_step_size := 1; max_iters := 1000; energy_thresh := None;
     stop_method := "sd"; sd_thresh := 1#10;
     rilling_thresh := (5#100, 1#2, 5#100) |}.

Record envelope_opts : Type := { interp_method : string }.

Definition default_envelope_opts : envelope_opts := {| interp_method := "splrep" |}.

(** ** Configuration objects *)

Open Scope string_scope.

(** NumPy arrays held in a configuration, by their nesting. *)
#[warnings="-register-all"]
Inductive ndarray : Type :=
| nd_scalar (q : Q)
| nd_rows (rows : list ndarray).

(** The Python values a configuration holds.  Dictionaries are keyed by
    strings and keep the order of insertion.  They are values here: a store
    in which one dictionary object can be reached by two paths is not
    represented. *)
#[warnings="-register-all"]
Inductive pyval : Type :=
| py_empty                      (* [inspect.Parameter.empty] *)
| py_none
| py_bool (b : bool)
| py_int (i : Z)
| py_float (q : Q)
| py_str (s : string)
| py_tuple (items : list pyval)
| py_list (items : list pyval)
| py_array (a : ndarray)
| py_dict (entries : list (string * pyval)).

Definition dict : Type := list (string * pyval).

(** The exceptions of the configuration code: the two that the sift engine
    never raises, and the others. *)
Inductive config_exn : Type :=
| KeyError (key : string)
| AttributeError (msg : string)
| Builtin (e : exn).

Inductive answer (A : Type) : Type :=
| Done (a : A)
| Fail (e : config_exn).

Arguments Done {A} a.
Arguments Fail {A} e.

Definition and_then {A B : Type} (c : answer A) (k : A -> answer B) : answer B :=
  match c with
  | Done a => k a
  | Fail e => Fail e
  end.

Notation "x <~ c ;; k" := (and_then c (fun x => k))
  (at level 61, c at next level, right associativity).

(** [key in d]. *)
Fixpoint dict_has (d : dict) (key : string) : bool :=
  match d with
  | [] => false
  | (k, _) :: d' => String.eqb k key || dict_has d' key
  end.

(** [d[key]], [None] standing for [KeyError]. *)
Fixpoint dict_get (d : dict) (key : string) : option pyval :=
  match d with
  | [] => None
  | (k, v) :: d' => if String.eqb k key then Some v else dict_get d' key
  end.

(** [d[key] = value]: in place for a key that is there, at the end for a
    new one. *)
Fixpoint dict_set (d : dict) (key : string) (value : pyval) : dict :=
  match d with
  | [] => [(key, value)]
  | (k, v) :: d' => if String.eqb k key then (k, value) :: d'
                    else (k, v) :: dict_set d' key value
  end.

(** [del d[key]], [None] standing for [KeyError]. *)
Fixpoint dict_del (d : dict) (key : string) : option dict :=
  match d with
  | [] => None
  | (k, v) :: d' => if String.eqb k key then Some d'
                    else match dict_del d' key with
                         | Some d'' => Some ((k, v) :: d'')
                         | None => None
                         end
  end.

(** [obj[key]] for a string [key]. *)
Definition getitem (obj : pyval) (key : string) : answer pyval :=
  match obj with
  | py_dict d => match dict_get d key with
                 | Some v => Done v
                 | None => Fail (KeyError key)
                 end
  | py_array _ => Fail (Builtin IndexError)
  | _ => Fail (Builtin TypeError)
  end.

(** [obj[key] = value] for a string [key]: the object after the
    assignment. *)
Definition setitem (obj : pyval) (key : string) (value : pyval) : answer pyval :=
  match obj with
  | py_dict d => Done (py_dict (dict_set d key value))
  | py_array _ => Fail (Builtin IndexError)
  | _ => Fail (Builtin TypeError)
  end.

(** [del obj[key]] for a string [key]: the object after the deletion. *)
Definition delitem (obj : pyval) (key : string) : answer pyval :=
  match obj with
  | py_dict d => match dict_del d key with
                 | Some d' => Done (py_dict d')
                 | None => Fail (KeyError key)
                 end
  | py_array _ => Fail (Builtin (ValueError "cannot delete array elements"))
  | _ => Fail (Builtin TypeError)
  end.

(** [s.split(sep)] for a separator of one character. *)
Fixpoint str_split (sep : Ascii.ascii) (s : string) : list string :=
  match s with
  | EmptyString => [EmptyString]
  | String c s' =>
      if Ascii.eqb c sep then EmptyString :: str_split sep s'
      else match str_split sep s' with
           | w :: ws => String c w :: ws
           | [] => [String c EmptyString]
           end
  end.

(** What [__keytransform__] returns: the key itself, or its levels. *)
Inductive key_form : Type :=
| single (key : string)
| levels (keys : list string).

Definition __keytransform__ (key : string) : answer key_form :=
  let key := str_split "/"%char key in
  if (length key =? 1)%nat then Done (single (hd EmptyString key))
  else if (3 <? length key)%nat
       then Fail (Builtin (ValueError
         "Requested key is nested too deep. Should be a                                  maximum of three levels separated by '/'"))
       else Done (levels key).

(** A [SiftConfig]: its [store] and its [sift_type]. *)
Record SiftConfig : Type := {
  store : dict;
  sift_type : string
}.

Definition __getitem__ (self : SiftConfig) (key : string) : answer pyval :=
  key <~ __keytransform__ key ;;
  match key with
  | levels [k0; k1] =>
      v0 <~ getitem (py_dict (store self)) k0 ;;
      getitem v0 k1
  | levels [k0; k1; k2] =>
      v0 <~ getitem (py_dict (store self)) k0 ;;
      v1 <~ getitem v0 k1 ;;
      getitem v1 k2
  | levels _ => Done py_none
  | single key => getitem (py_dict (store self)) key
  end.

(** [self[key] = value]: the configuration after the assignment.  An
    assignment into a nested dictionary changes that dictionary where it
    is. *)
Definition __setitem__ (self : SiftConfig) (key : string) (value : pyval)
  : answer SiftConfig :=
  let put d := {| store := d; sift_type := sift_type self |} in
  key <~ __keytransform__ key ;;
  match key with
  | levels [k0; k1] =>
      v0 <~ getitem (py_dict (store self)) k0 ;;
      v0 <~ setitem v0 k1 value ;;
      Done (put (dict_set (store self) k0 v0))
  | levels [k0; k1; k2] =>
      v0 <~ getitem (py_dict (store self)) k0 ;;
      v1 <~ getitem v0 k1 ;;
      v1 <~ setitem v1 k2 value ;;
      Done (put (dict_set (store self) k0
                          (match v0 with
                           | py_dict d0 => py_dict (dict_set d0 k1 v1)
                           | _ => v0
                           end)))
  | levels _ => Done self
  | single key => Done (put (dict_set (store self) key value))
  end.

Definition __delitem__ (self : SiftConfig) (key : string) : answer SiftConfig :=
  let put d := {| store := d; sift_type := sift_type self |} in
  key <~ __keytransform__ key ;;
  match key with
  | levels [k0; k1] =>
      v0 <~ getitem (py_dict (store self)) k0 ;;
      v0 <~ delitem v0 k1 ;;
      Done (put (dict_set (store self) k0 v0))
  | levels [k0; k1; k2] =>
      v0 <~ getitem (py_dict (store self)) k0 ;;
      v1 <~ getitem v0 k1 ;;
      v1 <~ delitem v1 k2 ;;
      Done (put (dict_set (store self) k0
                          (match v0 with
                           | py_dict d0 => py_dict (dict_set d0 k1 v1)
                           | _ => v0
                           end)))
  | levels _ => Done self
  | single key =>
      match dict_del (store self) key with
      | Some d => Done (put d)
      | None => Fail (KeyError key)
      end
  end.

(** [self.update(entries)], the method of [MutableMapping]: one
    [__setitem__] for each entry, in order. *)
Fixpoint update (self : SiftConfig) (entries : dict) : answer SiftConfig :=
  match entries with
  | [] => Done self
  | (k, v) :: entries' =>
      self <~ __setitem__ self k v ;;
      update self entries'
  end.

(** [SiftConfig(name, entries)]. *)
Definition __init__ (name : string) (entries : dict) : answer SiftConfig :=
  update {| store := []; sift_type := name |} entries.

Definition __len__ (self : SiftConfig) : nat := length (store self).

(** [list(iter(self))]. *)
Definition __iter__ (self : SiftConfig) : list string := map fst (store self).

(** [a.tolist()]. *)
Fixpoint tolist (a : ndarray) : pyval :=
  match a with
  | nd_scalar q => py_float q
  | nd_rows rows => py_list (map tolist rows)
  end.

(** What [_array_or_tuple_to_list] leaves under a key that held [v]; a
    dictionary is converted where it is. *)
Fixpoint yaml_safe (v : pyval) : pyval :=
  match v with
  | py_array a => tolist a
  | py_dict entries =>
      py_dict (map (fun kv => match kv with (k, v') => (k, yaml_safe v') end) entries)
  | py_tuple items => py_list items
  | _ => v
  end.

Definition _array_or_tuple_to_list (conf : dict) : dict :=
  map (fun kv => match kv with (k, v) => (k, yaml_safe v) end) conf.

(** What [self.store] holds after [_array_or_tuple_to_list] has run on its
    shallow copy: the dictionaries under its keys are shared with the copy
    and were converted, its other entries are its own and are unchanged. *)
Definition store_after_copy_converted (d : dict) : dict :=
  map (fun kv => match kv with
                 | (k, py_dict entries) => (k, yaml_safe (py_dict entries))
                 | (k, v) => (k, v)
                 end) d.

(** [_get_yamlsafe_dict]: the configuration after the call, and the list
    returned. *)
Definition _get_yamlsafe_dict (self : SiftConfig) : SiftConfig * list pyval :=
  let conf := _array_or_tuple_to_list (store self) in
  ({| store := store_after_copy_converted (store self); sift_type := sift_type self |},
   [py_dict [("sift_type", py_str (sift_type self))]; py_dict conf]).

(** A signature as [inspect.signature] gives it: the parameters in order,
    with their defaults. *)
Definition signature : Type := list (string * pyval).

Definition _get_function_opts (sig : signature) (ignore : list string) : dict :=
  fold_left (fun out p =>
               if negb (dict_has out (fst p)) && negb (existsb (String.eqb (fst p)) ignore)
               then dict_set out (fst p) (snd p)
               else out)
            sig [].

Definition sig_get_padded_extrema : signature :=
  [("X", py_empty); ("pad_width", py_int 2); ("mode", py_str "peaks");
   ("parabolic_extrema", py_bool false); ("loc_pad_opts", py_none);
   ("mag_pad_opts", py_none)].

Definition sig_interp_envelope : signature :=
  [("X", py_empty); ("mode", py_str "upper"); ("interp_method", py_str "splrep");
   ("extrema_opts", py_none); ("ret_extrema", py_bool false)].

Definition sig_get_next_imf : signature :=
  [("X", py_empty); ("env_step_size", py_int 1); ("max_iters", py_int 1000);
   ("energy_thresh", py_none); ("stop_method", py_str "sd"); ("sd_thresh", py_float (1#10));
   ("rilling_thresh", py_tuple [py_float (5#100); py_float (5#10); py_float (5#100)]);
   ("envelope_opts", py_none); ("extrema_opts", py_none)].

Definition sift_types : list string :=
  ["sift"; "ensemble_sift"; "complete_ensemble_sift"; "mask_sift"; "mask_sift_adaptive";
   "mask_sift_specified"].

(** [for key in sift_opts: out[key] = sift_opts[key]]. *)
Fixpoint set_all (out : SiftConfig) (keys : list string) (sift_opts : dict)
  : answer SiftConfig :=
  match keys with
  | [] => Done out
  | key :: keys' =>
      v <~ getitem (py_dict sift_opts) key ;;
      out <~ __setitem__ out key v ;;
      set_all out keys' sift_opts
  end.

(** [get_config].  The sift variants are decorated, so what
    [inspect.signature] finds for them is left to [module_signature], which
    gives [None] for a name the module does not define.  In the list of
    names ignored for the sift variant, ['imf_opts'] and ['envelope_opts']
    are adjacent literals without a comma and make one name. *)
Definition get_config (module_signature : string -> option signature) (siftname : string)
  : answer SiftConfig :=
  let mag_pad_opts := py_dict [("mode", py_str "median"); ("stat_length", py_int 1)] in
  let loc_pad_opts := py_dict [("mode", py_str "reflect"); ("reflect_type", py_str "odd")] in
  let extrema_opts :=
    _get_function_opts sig_get_padded_extrema ["X"; "mag_pad_opts"; "loc_pad_opts"; "mode"] in
  let envelope_opts :=
    _get_function_opts sig_interp_envelope ["X"; "extrema_opts"; "mode"; "ret_extrema"] in
  let imf_opts :=
    _get_function_opts sig_get_next_imf ["X"; "envelope_opts"; "extrema_opts"] in
  sift_opts <~
    (if existsb (String.eqb siftname) sift_types then
       match module_signature siftname with
       | Some sig =>
           Done (_get_function_opts sig ["X"; "imf_optsenvelope_opts"; "extrema_opts"])
       | None =>
           Fail (AttributeError (String.append "module 'emd.sift' has no attribute '"
                                               (String.append siftname "'")))
       end
     else Fail (AttributeError
       "Sift siftname not recognised: please use one of ['sift', 'ensemble_sift', 'complete_ensemble_sift', 'mask_sift', 'mask_sift_adaptive', 'mask_sift_specified']")) ;;
  out <~ __init__ siftname [] ;;
  out <~ set_all out (map fst sift_opts) sift_opts ;;
  out <~ __setitem__ out "imf_opts" (py_dict imf_opts) ;;
  out <~ __setitem__ out "envelope_opts" (py_dict envelope_opts) ;;
  out <~ __setitem__ out "extrema_opts" (py_dict extrema_opts) ;;
  out <~ __setitem__ out "extrema_opts/mag_pad_opts" mag_pad_opts ;;
  out <~ __setitem__ out "extrema_opts/loc_pad_opts" loc_pad_opts ;;
  Done out.

(** The number of occurrences of a character in a string. *)
Fixpoint count_char (c : ascii) (s : string) : nat :=
  match s with
  | EmptyString => 0%nat
  | String a s' => ((if Ascii.eqb a c then 1 else 0) + count_char c s')%nat
  end.

(** No value held by [v] as a dictionary, or by a dictionary nested in it,
    is a tuple or an array. *)
Fixpoint entries_are_lists (v : pyval) : bool :=
  match v with
  | py_dict entries =>
      forallb (fun kv => match kv with
                         | (_, py_tuple _) | (_, py_array _) => false
                         | (_, v') => entries_are_lists v'
                         end) entries
  | _ => true
  end.

(** The parameters of [sift] as they are written, which is what
    [inspect.signature] finds when the decorators hand the signature on. *)
Definition sig_sift : signature :=
  [("X", py_empty); ("sift_thresh", py_float (1 # 100000000)); ("max_imfs", py_none);
   ("verbose", py_none); ("imf_opts", py_none); ("envelope_opts", py_none);
   ("extrema_opts", py_none)].

(** A module in which [sift] is the only sift variant to be found. *)
Definition only_sift (name : string) : option signature :=
  if String.eqb name "sift" then Some sig_sift else None.

Close Scope string_scope.

(** ** A small runtime for worked examples *)

(** An interpolant that holds the first magnitude it is given. *)
Definition hold_kernel (method : string) (locs pks : list Q) (t : Q) : Q := hd 0 pks.

Definition zero_log10 (v : Q) : Q := 0.

Definition unit_std (x : signal) : Q := 1.

Definition unit_cos (v : Q) : Q := 1.

Definition no_frequency_transform (x : signal) : list Q * list Q := ([], []).

(** A world that is a counter: every draw returns its value and advances it. *)
Definition counter_entropy (w : Z) : Z * Z := (w, (w + 1)%Z).

Definition counter_random_sample (n m : nat) (w : Z) : matrix * Z :=
  (repeat (repeat (inject_Z w) n) m, (w + 1)%Z).

Definition linear_generate_state (s : Z) (n : nat) : list Z :=
  map (fun i => (s + Z.of_nat i)%Z) (seq 0 n).

Definition constant_normal (s : Z) (n : nat) : signal := repeat (inject_Z s) n.

(** Signals with two peaks and two troughs. *)
Definition zigzag : signal := [0; 1; -1; 1; -1; 0].

Definition skewed : signal := [3; 5; -(14#5); 5; -(14#5); 3].

Definition lifted : signal := [0; 4; -1; 4; -1; 0].

(** A peak counter that finds nothing. *)
Definition no_peaks (x : signal) : nat := 0%nat.

Section SiftEngine.

#[local] Set Default Proof Using "Type".

(** The interpolant of SciPy ([splrep]/[splev], [PchipInterpolator],
    [pchip]) through the points [(locs, pks)], evaluated at one abscissa. *)
Variable interp_kernel : string -> list Q -> list Q -> Q -> Q.

(** [np.log10]; where the argument is not positive, [_energy_difference]
    leaves the result to whatever NumPy finds there, which [np_log10] stands
    for as well. *)
Variable np_log10 : Q -> Q.

(** *** Envelope interpolation *)

Definition interp_envelope (fuel : nat) (x : signal) (mode : string)
           (eo : envelope_opts) (xo : option extrema_opts) : outcome (option signal) :=
  let extrema_opts := match xo with Some o => o | None => default_extrema_opts end in
  let interp_method := interp_method eo in
  if negb (String.eqb interp_method "splrep" || String.eqb interp_method "mono_pchip"
           || String.eqb interp_method "pchip")
  then Raise (ValueError "Invalid interp_method value")
  else
    found <-
      (if String.eqb mode "upper" then get_padded_extrema fuel x "peaks" extrema_opts
       else if String.eqb mode "lower" then get_padded_extrema fuel x "troughs" extrema_opts
       else if String.eqb mode "combined" then get_padded_extrema fuel x "abs_peaks" extrema_opts
       else Raise (ValueError "Mode not recognised. Use mode= 'upper'|'lower'|'combined'")) ;;
    match found with
    | None => Ok None
    | Some (locs, pks) =>
        let t := np_arange (hd 0 locs) (last locs 0) in
        let env := map (interp_kernel interp_method locs pks) t in
        let n := inject_Z (Z.of_nat (length x)) in
        let env := map snd (filter (fun te => Qle_bool 0 (fst te) && Qlt_bool (fst te) n)
                                   (combine t env)) in
        if negb (length env =? length x)%nat
        then Raise (ValueError "Envelope length does not match input data")
        else Ok (Some env)
    end.

(** *** The single-IMF refiner *)

Definition _energy_difference (imf residue : signal) : Q :=
  let imf_energy := 20 * np_log10 (sumsq imf) in
  let resid_energy := 20 * np_log10 (sumsq residue) in
  imf_energy - resid_energy.

(** The stop flag of one iteration of [get_next_imf], by [stop_method]; a
    name that is none of the three leaves [stop] unbound. *)
Definition stop_flag (o : imf_opts) (proto_imf x1 upper lower : signal) (niters : Z)
  : outcome bool :=
  if String.eqb (stop_method o) "sd" then
    Ok (fst (sd_stop proto_imf x1 (sd_thresh o)))
  else if String.eqb (stop_method o) "rilling" then
    let '(sd1, sd2, tol) := rilling_thresh o in
    Ok (fst (rilling_stop upper lower sd1 sd2 tol))
  else if String.eqb (stop_method o) "fixed" then
    Ok (fixed_stop niters (max_iters o))
  else Raise (UnboundLocalError "stop").

(** The loop [while continue_imf] of [get_next_imf]: the final [proto_imf]
    and [continue_flag]. *)
Fixpoint refine_loop (k fuel : nat) (o : imf_opts) (eo : envelope_opts)
         (xo : option extrema_opts) (proto_imf : signal) (niters : Z)
  : outcome (signal * bool) :=
  match k with
  | O => OutOfFuel
  | S k' =>
      if negb (String.eqb (stop_method o) "fixed")
         && negb (niters =? 3 * max_iters o / 4)%Z
         && (max_iters o <? niters)%Z
      then Raise (EMDSiftCovergeError niters)
      else
        let niters := (niters + 1)%Z in
        upper <- interp_envelope fuel proto_imf "upper" eo xo ;;
        lower <- interp_envelope fuel proto_imf "lower" eo xo ;;
        match upper, lower with
        | Some upper, Some lower =>
            let avg := map (fun v => v / 2) (vadd upper lower) in
            let x1 := vsub proto_imf avg in
            stop <- stop_flag o proto_imf x1 upper lower niters ;;
            if stop then Ok (x1, true)
            else refine_loop k' fuel o eo xo
                             (vsub proto_imf (vscale (env_step_size o) avg)) niters
        | _, _ => Ok (proto_imf, false)
        end
  end.

(** [get_next_imf]; [ensure_1d_with_singleton] leaves a 1-D signal as it
    is. *)
Definition get_next_imf (fuel : nat) (x : signal) (o : imf_opts) (eo : envelope_opts)
           (xo : option extrema_opts) : outcome (signal * bool) :=
  r <- refine_loop fuel fuel o eo xo x 0 ;;
  let '(proto_imf, continue_flag) := r in
  let continue_flag :=
    match energy_thresh o with
    | Some thresh =>
        let energy_db := _energy_difference x (vsub x proto_imf) in
        if Qlt_bool thresh energy_db then false else continue_flag
    | None => continue_flag
    end in
  Ok (proto_imf, continue_flag).

(** *** The classic sift *)

Record sift_opts : Type := {
  sift_thresh : Q;
  max_imfs : option Z;
  imf_options : option imf_opts;
  envelope_options : envelope_opts;
  extrema_options : option extrema_opts
}.

Definition default_sift_opts : sift_opts :=
  {| sift_thresh := 1 # 100000000; max_imfs := None; imf_options := None;
     envelope_options := default_envelope_opts; extrema_options := None |}.

(** The loop [while continue_sift] of [sift]. *)
Fixpoint sift_loop (k fuel : nat) (c : sift_opts) (io : imf_opts) (x : signal)
         (layer : Z) (imf : matrix) (proto_imf : signal) : outcome matrix :=
  match k with
  | O => OutOfFuel
  | S k' =>
      r <- get_next_imf fuel proto_imf io (envelope_options c) (extrema_options c) ;;
      let '(next_imf, continue_sift) := r in
      let imf := if (layer =? 0)%Z then [next_imf] else imf ++ [next_imf] in
      let proto_imf := vsub x (row_sums (length x) imf) in
      let layer := (layer + 1)%Z in
      let continue_sift :=
        match max_imfs c with
        | Some m => if (layer =? m)%Z then false else continue_sift
        | None => continue_sift
        end in
      let continue_sift :=
        if Qlt_bool (np_sum (vabs next_imf)) (sift_thresh c) then false else continue_sift in
      if continue_sift then sift_loop k' fuel c io x layer imf proto_imf
      else Ok imf
  end.

Definition sift (fuel : nat) (x : signal) (c : sift_opts) : outcome matrix :=
  let io := match imf_options c with Some o => o | None => default_imf_opts end in
  sift_loop fuel fuel c io x 0 [] x.

(** *** Ensemble sifts *)

(** [np.std]. *)
Variable np_std : signal -> Q.

(** The sources of randomness outside the program's control: the state of
    NumPy's global generator and the entropy pool of the operating system,
    threaded through every function that draws from them. *)
Variable world : Type.

(** The entropy a [SeedSequence] or [default_rng] takes when it is created
    with [seed=None]. *)
Variable os_entropy : world -> Z * world.

(** [np.random.random_sample((n, m))] on the global generator, by columns. *)
Variable global_random_sample : nat -> nat -> world -> matrix * world.

(** [np.random.SeedSequence(seed).generate_state(n)] for an integer seed. *)
Variable generate_state : Z -> nat -> list Z.

(** [np.random.default_rng(seed).standard_normal(size=(n, 1))] for an
    integer seed. *)
Variable standard_normal : Z -> nat -> signal.

(** Computations that may draw randomness. *)
Definition rand (A : Type) : Type := world -> outcome A * world.

Definition rret {A : Type} (c : outcome A) : rand A := fun w => (c, w).

Definition rbind {A B : Type} (c : rand A) (k : A -> rand B) : rand B :=
  fun w =>
    match c w with
    | (Ok a, w') => k a w'
    | (Raise e, w') => (Raise e, w')
    | (OutOfFuel, w') => (OutOfFuel, w')
    end.

(** [p.starmap(f, args)]: the results in the order of the arguments. *)
Fixpoint starmap {A B : Type} (f : A -> rand B) (args : list A) : rand (list B) :=
  match args with
  | [] => rret (Ok [])
  | a :: args' =>
      rbind (f a) (fun b => rbind (starmap f args') (fun bs => rret (Ok (b :: bs))))
  end.

(** [a += b] on 2-D arrays of the same number of rows: [b] must have the
    columns of [a], or a single column that is broadcast. *)
Definition matrix_iadd (a b : matrix) : outcome matrix :=
  if (length a =? length b)%nat then Ok (map2 vadd a b)
  else match b with
       | [col] => Ok (map (fun ca => vadd ca col) a)
       | _ => Raise (ValueError "operands could not be broadcast together")
       end.

(** [_sift_with_noise]; the [noise] argument is overwritten before it is
    read and is left out.  [None] is what the function returns for a
    [noise_mode] that is neither ['single'] nor ['flip']. *)
Definition _sift_with_noise (fuel : nat) (x : signal) (noise_scaling : option Q)
           (noise_mode : string) (c : sift_opts) (seed : option Z)
  : rand (option matrix) :=
  fun w =>
    let '(s, w) := match seed with
                   | Some s => (s, w)
                   | None => os_entropy w
                   end in
    let noise := standard_normal s (length x) in
    let noise := match noise_scaling with
                 | Some k => map (fun v => v * k) noise
                 | None => noise
                 end in
    let ensX := vadd x noise in
    (imf <- sift fuel ensX c ;;
     if String.eqb noise_mode "single" then Ok (Some imf)
     else if String.eqb noise_mode "flip" then
       let ensX := vsub x noise in
       imf2 <- sift fuel ensX c ;;
       imf <- matrix_iadd imf imf2 ;;
       Ok (Some (map (map (fun v => v / 2)) imf))
     else Ok None, w).

(** [np.unique(l)]: the sorted distinct values. *)
Definition np_unique (l : list nat) : list nat :=
  filter (fun v => existsb (Nat.eqb v) l) (seq 0 (S (list_max l))).

Definition count_of (v : nat) (l : list nat) : nat := length (filter (Nat.eqb v) l).

(** [np.argmax]: the first index of the largest value. *)
Fixpoint argmax_from (l : list nat) (i best_i best : nat) : nat :=
  match l with
  | [] => best_i
  | v :: l' => if (best <? v)%nat then argmax_from l' (S i) i v
               else argmax_from l' (S i) best_i best
  end.

Definition np_argmax (l : list nat) : nat :=
  match l with
  | [] => 0%nat
  | v :: l' => argmax_from l' 1 0 v
  end.

(** [np.array(cols).mean(axis=0)] for columns of [n] samples. *)
Definition mean_axis0 (n : nat) (cols : list signal) : signal :=
  map (fun v => v / inject_Z (Z.of_nat (length cols))) (fold_left vadd cols (repeat 0 n)).

(** The consensus step of [ensemble_sift], from [if max_imfs is None] to
    [return imfs], on the results [res] of the realizations. *)
Definition ensemble_average (n : nat) (max_imfs : option Z) (res : list matrix)
  : outcome matrix :=
  max_imfs <- match max_imfs with
              | Some m => Ok m
              | None => match res with
                        | r0 :: _ => Ok (Z.of_nat (length r0))
                        | [] => Raise IndexError
                        end
              end ;;
  let nimfs := map (@length signal) res in
  match nimfs with
  | [] => Raise (ValueError "attempt to get argmax of an empty sequence")
  | _ =>
      let uni := np_unique nimfs in
      let unic := map (fun v => count_of v nimfs) uni in
      let target_imfs := nth (np_argmax unic) uni 0%nat in
      if (max_imfs <? 0)%Z then Raise (ValueError "negative dimensions are not allowed")
      else
        mapM (fun ii =>
                cols <- mapM (fun r => match nth_error r ii with
                                       | Some col => Ok col
                                       | None => Raise IndexError
                                       end)
                             (filter (fun r => (length r =? target_imfs)%nat) res) ;;
                Ok (mean_axis0 n cols))
             (seq 0 (Z.to_nat max_imfs))
  end.

Record ensemble_opts : Type := {
  nensembles : nat;
  ensemble_noise : Q;
  noise_mode : string;
  sift_options : sift_opts
}.

(** The result of a realization that returned [None] cannot be measured. *)
Definition realized (r : option matrix) : outcome matrix :=
  match r with
  | Some m => Ok m
  | None => Raise TypeError
  end.

Definition ensemble_sift (fuel : nat) (x : signal) (e : ensemble_opts) (seed : option Z)
  : rand matrix :=
  if negb (String.eqb (noise_mode e) "single" || String.eqb (noise_mode e) "flip")
  then rret (Raise (ValueError "noise_mode not recognised, please use 'single' or 'flip'"))
  else
    let noise_scaling := np_std x * ensemble_noise e in
    rbind (fun w => match seed with
                    | Some s => (Ok s, w)
                    | None => let '(s, w') := os_entropy w in (Ok s, w')
                    end)
          (fun s =>
             let seedgen := generate_state s (nensembles e) in
             rbind (starmap (fun ii => _sift_with_noise fuel x (Some noise_scaling)
                                                        (noise_mode e) (sift_options e)
                                                        (Some (nth ii seedgen 0%Z)))
                            (seq 0 (nensembles e)))
                   (fun res =>
                      rret (res <- mapM realized res ;;
                            ensemble_average (length x) (max_imfs (sift_options e)) res))).

(** [np.array([r for r in res]).mean(axis=0)] for 2-D results of [n] rows. *)
Definition mean_realizations (n : nat) (res : list matrix) : outcome matrix :=
  match res with
  | [] => Raise (ValueError "axis 1 is out of bounds for array of dimension 0")
  | r0 :: _ =>
      if forallb (fun r => (length r =? length r0)%nat) res
      then Ok (map (fun ii => mean_axis0 n (map (fun r => nth ii r []) res))
                   (seq 0 (length r0)))
      else Raise (ValueError "setting an array element with a sequence")
  end.

(** [starmap(sift, (noise[:, ii, None], sift_thresh, 1, imf_opts))] followed
    by [noise - np.array([r[:, 0] for r in res]).T]; the fourth positional
    argument of [sift] is [verbose], so these sifts run on default options. *)
Definition strip_noise (fuel : nat) (thresh : Q) (noise : matrix) : outcome matrix :=
  res <- mapM (fun col => sift fuel col
                               {| sift_thresh := thresh; max_imfs := Some 1%Z;
                                  imf_options := None;
                                  envelope_options := default_envelope_opts;
                                  extrema_options := None |})
              noise ;;
  Ok (map2 (fun col r => vsub col (nth 0 r [])) noise res).

Definition one_imf (c : sift_opts) : sift_opts :=
  {| sift_thresh := sift_thresh c; max_imfs := Some 1%Z;
     imf_options := imf_options c; envelope_options := envelope_options c;
     extrema_options := extrema_options c |}.

(** The loop [while continue_sift] of [complete_ensemble_sift]. *)
Fixpoint ces_loop (k fuel : nat) (x : signal) (e : ensemble_opts) (layer : Z)
         (imf noise : matrix) : rand (matrix * matrix) :=
  match k with
  | O => rret OutOfFuel
  | S k' =>
      let proto_imf := vsub x (row_sums (length x) imf) in
      rbind (starmap (fun _ : nat => _sift_with_noise fuel proto_imf None (noise_mode e)
                                                      (one_imf (sift_options e)) None)
                     (seq 0 (nensembles e)))
            (fun res =>
               match (res <- mapM realized res ;;
                      next_imf <- mean_realizations (length x) res ;;
                      noise <- strip_noise fuel (sift_thresh (sift_options e)) noise ;;
                      Ok (next_imf, noise)) with
               | Ok (next_imf, noise) =>
                   let imf := imf ++ next_imf in
                   let '(pks, _) := _find_extrema (last imf []) false in
                   let continue_sift := if (length pks <? 2)%nat then false else true in
                   let continue_sift :=
                     match max_imfs (sift_options e) with
                     | Some m => if (layer =? m)%Z then false else continue_sift
                     | None => continue_sift
                     end in
                   let continue_sift :=
                     if Qlt_bool (np_mean (vabs (concat next_imf)))
                                 (sift_thresh (sift_options e))
                     then false else continue_sift in
                   let layer := (layer + 1)%Z in
                   if continue_sift then ces_loop k' fuel x e layer imf noise
                   else rret (Ok (imf, noise))
               | Raise err => rret (Raise err)
               | OutOfFuel => rret OutOfFuel
               end)
  end.

(** [complete_ensemble_sift]; its [seed] argument is part of the signature. *)
Definition complete_ensemble_sift (fuel : nat) (x : signal) (e : ensemble_opts)
           (seed : option Z) : rand (matrix * matrix) :=
  let noise_scaling := np_std x * ensemble_noise e in
  fun w =>
    let '(sample, w) := global_random_sample (length x) (nensembles e) w in
    let noise := map (map (fun v => v * noise_scaling)) sample in
    rbind (starmap (fun _ : nat => _sift_with_noise fuel x (Some noise_scaling) (noise_mode e)
                                                    (one_imf (sift_options e)) None)
                   (seq 0 (nensembles e)))
          (fun res =>
             match (res <- mapM realized res ;;
                    imf <- mean_realizations (length x) res ;;
                    noise <- strip_noise fuel (sift_thresh (sift_options e)) noise ;;
                    Ok (imf, noise)) with
             | Ok (imf, noise) => ces_loop fuel fuel x e 0 imf noise
             | Raise err => rret (Raise err)
             | OutOfFuel => rret OutOfFuel
             end) w.

(** *** Mask sift *)

(** [cos(2*pi*v)]. *)
Variable np_cos_2pi : Q -> Q.

(** [spectra.frequency_transform(imf, 1, 'nht', smooth_phase=3)]: the
    instantaneous frequency and amplitude of each sample. *)
Variable frequency_transform : signal -> list Q * list Q.

(** Column [ii] of the mask array [amp * np.cos(zf * t + phases)]. *)
Definition mask_column (n : nat) (z amp : Q) (nphases ii : nat) : signal :=
  map (fun t => amp * np_cos_2pi (z * inject_Z (Z.of_nat t)
                                  + inject_Z (Z.of_nat ii) / inject_Z (Z.of_nat nphases)))
      (seq 0 n).

(** [imfs.mean(axis=1)] for an array given by its columns. *)
Definition mean_axis1 (n : nat) (cols : matrix) : signal :=
  map (fun v => v / inject_Z (Z.of_nat (length cols))) (row_sums n cols).

Definition get_next_imf_mask (fuel : nat) (x : signal) (z amp : Q) (nphases : nat)
           (io : option imf_opts) (eo : envelope_opts) (xo : option extrema_opts)
  : outcome (signal * bool) :=
  let imf_opts := match io with Some o => o | None => default_imf_opts end in
  let m := map (mask_column (length x) z amp nphases) (seq 0 nphases) in
  let args := map (fun mcol => vadd x mcol) m in
  res <- mapM (fun a => get_next_imf fuel a imf_opts eo xo) args ;;
  let imfs := map fst res in
  let continue_flags := map snd res in
  match imfs with
  | [] => Raise (ValueError "need at least one array to concatenate")
  | _ =>
      let imfs := map2 vsub imfs m in
      Ok (mean_axis1 (length x) imfs, existsb (fun b => b) continue_flags)
  end.

(** [first_mask_mode]: a method name or a frequency. *)
Inductive mask_mode : Type :=
| mode_name (s : string)
| mode_freq (f : Q).

Definition np_sign (v : Q) : Z :=
  if Qlt_bool v 0 then (-1)%Z else if Qlt_bool 0 v then 1%Z else 0%Z.

(** [zero_crossing_count(X)[0, 0]] for a single column. *)
Fixpoint zero_crossing_count (x : signal) : nat :=
  match x with
  | a :: ((b :: _) as x') =>
      ((if (np_sign b - np_sign a =? 0)%Z then 0 else 1) + zero_crossing_count x')%nat
  | _ => 0%nat
  end.

(** [np.average(a, weights=w)]. *)
Definition np_average (a w : list Q) : outcome Q :=
  if Qeq_bool (np_sum w) 0
  then Raise ZeroDivisionError
  else Ok (np_sum (map2 Qmult a w) / np_sum w).

Definition get_mask_freqs (fuel : nat) (x : signal) (first_mask_mode : mask_mode)
           (io : option imf_opts) : outcome Q :=
  let imf_opts := match io with Some o => o | None => default_imf_opts end in
  match first_mask_mode with
  | mode_name s =>
      if String.eqb s "zc" || String.eqb s "if" then
        r <- get_next_imf fuel x imf_opts default_envelope_opts None ;;
        let imf := fst r in
        if String.eqb s "zc" then
          let num_zero_crossings := zero_crossing_count imf in
          Ok (inject_Z (Z.of_nat num_zero_crossings) / inject_Z (Z.of_nat (length imf)) / 4)
        else
          let '(IF, IA) := frequency_transform imf in
          np_average IF IA
      else
        (* [first_mask_mode < .5] on a string *)
        Raise TypeError
  | mode_freq f =>
      if Qlt_bool f (1#2) then
        if Qle_bool f 0 || Qle_bool (1#2) f
        then Raise (ValueError "The frequency of the first mask must be 0<x<.5")
        else Ok f
      else
        (* no branch assigned [z] *)
        Raise (UnboundLocalError "z")
  end.

(** The [mask_freqs] argument of [mask_sift]. *)
Inductive mask_freqs_arg : Type :=
| freqs_array (l : list Q)
| freqs_name (s : string)
| freqs_float (f : Q)
| freqs_int (i : Z).

(** The [mask_amp] argument of [mask_sift]. *)
Inductive mask_amp_arg : Type :=
| amp_scalar (a : Q)
| amp_array (l : list Q).

Record mask_opts : Type := {
  mask_amp : mask_amp_arg;
  mask_amp_mode : string;
  mask_freqs : mask_freqs_arg;
  mask_step_factor : Q;
  mask_max_imfs : Z;
  mask_sift_thresh : Q;
  nphases : nat;
  mask_imf_opts : option imf_opts;
  mask_envelope_opts : envelope_opts;
  mask_extrema_opts : option extrema_opts
}.

Definition default_mask_opts : mask_opts :=
  {| mask_amp := amp_scalar 1; mask_amp_mode := "ratio_imf"; mask_freqs := freqs_name "zc";
     mask_step_factor := 2; mask_max_imfs := 9; mask_sift_thresh := 1 # 100000000;
     nphases := 4; mask_imf_opts := None; mask_envelope_opts := default_envelope_opts;
     mask_extrema_opts := None |}.

(** [mask_freqs[imf_layer]] for what [mask_freqs] is when the loop starts. *)
Definition mask_freq_at (mf : mask_freqs_arg) (imf_layer : nat) : outcome Q :=
  match mf with
  | freqs_array l => match nth_error l imf_layer with
                     | Some z => Ok z
                     | None => Raise IndexError
                     end
  | freqs_name s => if (String.length s <=? imf_layer)%nat then Raise IndexError
                    else Raise TypeError
  | freqs_float _ | freqs_int _ => Raise TypeError
  end.

(** The loop [while continue_sift] of [mask_sift]; [sd] is [None] while the
    variable is unbound. *)
Fixpoint mask_sift_loop (k fuel : nat) (c : mask_opts) (mf : mask_freqs_arg) (max_imfs : Z)
         (x : signal) (sd : option Q) (imf_layer : nat) (imf : matrix) (proto_imf : signal)
  : outcome matrix :=
  match k with
  | O => OutOfFuel
  | S k' =>
      let sd := if String.eqb (mask_amp_mode c) "ratio_imf" && (0 <? imf_layer)%nat
                then Some (np_std (last imf [])) else sd in
      sdv <- match sd with Some v => Ok v | None => Raise (UnboundLocalError "sd") end ;;
      amp <- match mask_amp c with
             | amp_scalar a => Ok (a * sdv)
             | amp_array l => match nth_error l imf_layer with
                              | Some a => Ok (a * sdv)
                              | None => Raise IndexError
                              end
             end ;;
      z <- mask_freq_at mf imf_layer ;;
      r <- get_next_imf_mask fuel proto_imf z amp (nphases c) (mask_imf_opts c)
                             (mask_envelope_opts c) (mask_extrema_opts c) ;;
      let '(next_imf, continue_sift) := r in
      let imf := if (imf_layer =? 0)%nat then [next_imf] else imf ++ [next_imf] in
      let proto_imf := vsub x (row_sums (length x) imf) in
      let continue_sift :=
        if (Z.of_nat imf_layer =? max_imfs - 1)%Z then false else continue_sift in
      let continue_sift :=
        if Qlt_bool (np_sum (vabs next_imf)) (mask_sift_thresh c) then false
        else continue_sift in
      if continue_sift then mask_sift_loop k' fuel c mf max_imfs x sd (S imf_layer) imf proto_imf
      else Ok imf
  end.

Definition mask_sift (fuel : nat) (x : signal) (c : mask_opts) : outcome matrix :=
  prepared <-
    match mask_freqs c with
    | freqs_array l =>
        Ok (freqs_array l,
            if (Z.of_nat (length l) <? mask_max_imfs c)%Z then Z.of_nat (length l)
            else mask_max_imfs c)
    | freqs_name s =>
        if String.eqb s "zc" || String.eqb s "if" then
          z <- get_mask_freqs fuel x (mode_name s) (mask_imf_opts c) ;;
          Ok (freqs_array (map (fun ii => z / Qpower (mask_step_factor c) (Z.of_nat ii))
                               (seq 0 (Z.to_nat (mask_max_imfs c)))),
              mask_max_imfs c)
        else Ok (freqs_name s, mask_max_imfs c)
    | freqs_float f =>
        z <- get_mask_freqs fuel x (mode_freq f) (mask_imf_opts c) ;;
        Ok (freqs_array (map (fun ii => z / Qpower (mask_step_factor c) (Z.of_nat ii))
                             (seq 0 (Z.to_nat (mask_max_imfs c)))),
            mask_max_imfs c)
    | freqs_int i => Ok (freqs_int i, mask_max_imfs c)
    end ;;
  let '(mf, max_imfs) := prepared in
  let sd := if String.eqb (mask_amp_mode c) "ratio_imf" then Some (np_std x)
            else if String.eqb (mask_amp_mode c) "ratio_sig" then Some (np_std x)
            else if String.eqb (mask_amp_mode c) "abs" then Some 1
            else None in
  mask_sift_loop fuel fuel c mf max_imfs x sd 0 [] x.

(** *** IMF checks *)

(** [scipy.signal.find_peaks(x)[0].shape[0]]: the number of peaks SciPy
    finds in [x]. *)
Variable find_peaks_count : signal -> nat.

(** [is_imf]: for each column, the pair of its two checks. *)
Definition is_imf (fuel : nat) (imf : matrix) (avg_tol : Q) (eo : envelope_opts)
           (xo : option extrema_opts) : outcome (list (bool * bool)) :=
  mapM (fun col =>
          let num_zc := zero_crossing_count col in
          let num_ext := (find_peaks_count col + find_peaks_count (vneg col))%nat in
          upper <- interp_envelope fuel col "upper" eo xo ;;
          lower <- interp_envelope fuel col "lower" eo xo ;;
          match upper, lower with
          | Some upper, Some lower =>
              let avg := map (fun v => v / 2) (vadd upper lower) in
              let avg_sum := np_sum (vabs avg) in
              let imf_sum := np_sum (vabs col) in
              let diff := np_div avg_sum imf_sum in
              Ok ((Z.abs (Z.of_nat num_ext - Z.of_nat num_zc) <=? 1)%Z, np_lt diff avg_tol)
          | _, _ => Ok (false, false)
          end)
       imf.

(** *** Second-layer sifts *)

(** The ['max_imfs'] entry of a [sift_args] dictionary: no such key, or the
    key with [None] or an integer. *)
Inductive max_imfs_key : Type :=
| key_absent
| key_value (v : option Z).

(** A [sift_args] dictionary for [sift]: its ['max_imfs'] entry and its
    other entries (the [max_imfs] of [other_args] is not read). *)
Record sift_args_dict : Type := {
  args_max_imfs : max_imfs_key;
  other_args : sift_opts
}.

(** [sift(X, **sift_args)]. *)
Definition sift_with_args (fuel : nat) (x : signal) (d : sift_args_dict) : outcome matrix :=
  sift fuel x {| sift_thresh := sift_thresh (other_args d);
                 max_imfs := match args_max_imfs d with
                             | key_absent => None
                             | key_value v => v
                             end;
                 imf_options := imf_options (other_args d);
                 envelope_options := envelope_options (other_args d);
                 extrema_options := extrema_options (other_args d) |}.

(** One column of the value in an assignment to [n] rows: itself, or its
    single sample on every row. *)
Definition fit_rows (n : nat) (col : signal) : option signal :=
  if (length col =? n)%nat then Some col
  else if (length col =? 1)%nat then Some (repeat (hd 0 col) n)
  else None.

Fixpoint fit_all (n : nat) (tmp : matrix) : option matrix :=
  match tmp with
  | [] => Some []
  | col :: tmp' =>
      match fit_rows n col, fit_all n tmp' with
      | Some c, Some cs => Some (c :: cs)
      | _, _ => None
      end
  end.

(** [imf2[:, ii, :tmp.shape[1]] = tmp] on a block of zeros of [n] rows and
    [width] columns: the block after the assignment.  The slice stops at
    [width], and the value must have its shape or be broadcast to it. *)
Definition assign_block (n width : nat) (tmp : matrix) : outcome matrix :=
  let k := length tmp in
  let target := Nat.min k width in
  match fit_all n tmp with
  | None => Raise (ValueError "could not broadcast input array")
  | Some cols =>
      if (k =? target)%nat then Ok (cols ++ repeat (repeat 0 n) (width - target))
      else if (k =? 1)%nat
           then Ok (repeat (hd [] cols) target ++ repeat (repeat 0 n) (width - target))
           else Raise (ValueError "could not broadcast input array")
  end.

(** [sift_second_layer] with [sift_func=sift]: the 3-D result as the list,
    over the first-layer IMFs, of their blocks of second-layer IMFs. *)
Definition sift_second_layer (fuel : nat) (IA : matrix) (sift_args : option sift_args_dict)
  : outcome (list matrix) :=
  let n := length (hd [] IA) in
  max_imfs <- match sift_args with
              | None => Ok (Z.of_nat (length IA))
              | Some d => match args_max_imfs d with
                          | key_absent => Ok (Z.of_nat (length IA))
                          | key_value (Some m) => Ok m
                          | key_value None => Raise TypeError
                          end
              end ;;
  if (max_imfs <? 0)%Z then Raise (ValueError "negative dimensions are not allowed")
  else
    let width := Z.to_nat max_imfs in
    blocks <- mapM (fun ii =>
                      col <- match nth_error IA ii with
                             | Some col => Ok col
                             | None => Raise IndexError
                             end ;;
                      (* [**sift_args] *)
                      d <- match sift_args with
                           | Some d => Ok d
                           | None => Raise TypeError
                           end ;;
                      tmp <- sift_with_args fuel col d ;;
                      assign_block n width tmp)
                   (seq 0 width) ;;
    Ok (blocks ++ repeat (repeat (repeat 0 n) width) (length IA - width)).

(** A [sift_args] dictionary for [mask_sift]: the integer under
    ['max_imfs'] if the key is there, and the other entries (the
    [mask_max_imfs] and [mask_freqs] of [other_mask_args] are not read). *)
Record mask_args_dict : Type := {
  margs_max_imfs : option Z;
  other_mask_args : mask_opts
}.

(** The keyword arguments of the [mask_sift] call for first-layer IMF [ii]. *)
Definition second_layer_mask_opts (c : mask_opts) (mf : list Q) (m : Z) : mask_opts :=
  {| mask_amp := mask_amp c; mask_amp_mode := mask_amp_mode c; mask_freqs := freqs_array mf;
     mask_step_factor := mask_step_factor c; mask_max_imfs := m;
     mask_sift_thresh := mask_sift_thresh c; nphases := nphases c;
     mask_imf_opts := mask_imf_opts c; mask_envelope_opts := mask_envelope_opts c;
     mask_extrema_opts := mask_extrema_opts c |}.

(** [mask_sift_second_layer] for an array of mask frequencies. *)
Definition mask_sift_second_layer (fuel : nat) (IA : matrix) (freqs : list Q)
           (sift_args : option mask_args_dict) : outcome (list matrix) :=
  let n := length (hd [] IA) in
  let c := match sift_args with
           | Some d => other_mask_args d
           | None => default_mask_opts
           end in
  let max_imfs := match sift_args with
                  | Some {| margs_max_imfs := Some m |} => m
                  | _ => Z.of_nat (length IA)
                  end in
  if (max_imfs <? 0)%Z then Raise (ValueError "negative dimensions are not allowed")
  else
    mapM (fun ii =>
            tmp <- mask_sift fuel (nth ii IA []) (second_layer_mask_opts c (skipn ii freqs) max_imfs) ;;
            assign_block n (Z.to_nat max_imfs) tmp)
         (seq 0 (length IA)).

(** ** Notions used to state the properties *)

(** The interpolation method is one [interp_envelope] accepts. *)
Definition valid_interp_method (eo : envelope_opts) : bool :=
  String.eqb (interp_method eo) "splrep" || String.eqb (interp_method eo) "mono_pchip"
  || String.eqb (interp_method eo) "pchip".

(** The iteration cap does not strike before the first iteration. *)
Definition cap_allows_start (o : imf_opts) : bool :=
  String.eqb (stop_method o) "fixed" || (0 <=? max_iters o)%Z.

(** The SD metric as the specification words it: the squared norm of the
    change over the squared norm of the candidate. *)
Definition spec_sd_metric (p c : signal) : npfloat :=
  np_div (sumsq (vsub c p)) (sumsq c).

(** The iteration cap of [get_next_imf] strikes at the top of an iteration
    entered with [niters] completed iterations. *)
Definition cap_strikes (o : imf_opts) (niters : Z) : bool :=
  negb (String.eqb (stop_method o) "fixed")
  && negb (niters =? 3 * max_iters o / 4)%Z
  && (max_iters o <? niters)%Z.

(** The next [n] iterations from the state [(proto_imf, niters)] all find both
    envelopes and leave the stopping criterion unfired. *)
Fixpoint keeps_refining (n fuel : nat) (o : imf_opts) (eo : envelope_opts)
         (xo : option extrema_opts) (proto_imf : signal) (niters : Z) : bool :=
  match n with
  | O => true
  | S n' =>
      match interp_envelope fuel proto_imf "upper" eo xo,
            interp_envelope fuel proto_imf "lower" eo xo with
      | Ok (Some upper), Ok (Some lower) =>
          let avg := map (fun v => v / 2) (vadd upper lower) in
          let x1 := vsub proto_imf avg in
          match stop_flag o proto_imf x1 upper lower (niters + 1) with
          | Ok false =>
              keeps_refining n' fuel o eo xo
                             (vsub proto_imf (vscale (env_step_size o) avg)) (niters + 1)
          | _ => false
          end
      | _, _ => false
      end
  end.

(** The condition on which the specification ends the loop of [sift] after
    the layer numbered [layer] (counting from 1): the continue flag of the
    refiner is false, or the layer count has reached [max_imfs], or the sum of
    absolute values of the newest IMF is below [sift_thresh]. *)
Definition sift_stops (c : sift_opts) (layer : Z) (next_imf : signal) (continue_flag : bool)
  : bool :=
  negb continue_flag
  || match max_imfs c with Some m => (layer =? m)%Z | None => false end
  || Qlt_bool (np_sum (vabs next_imf)) (sift_thresh c).

(** The signal the refiner receives at layer [j] (counting from 0) of a sift
    of [x] that produced [imf]: the input less the IMFs before layer [j]. *)
Definition residual (x : signal) (imf : matrix) (j : nat) : signal :=
  match j with
  | O => x
  | S _ => vsub x (row_sums (length x) (firstn j imf))
  end.

(** Every element of [l] is related to its successor. *)
Fixpoint chain {A : Type} (R : A -> A -> Prop) (l : list A) : Prop :=
  match l with
  | a :: ((b :: _) as l') => R a b /\ chain R l'
  | _ => True
  end.

(** Locations that increase by at least one sample from each to the next. *)
Definition spaced (l : list Q) : Prop := chain (fun a b => a + 1 <= b) l.

(** The extrema [get_padded_extrema] detects in [x] under [mode], before any
    padding. *)
Definition detected_extrema (x : signal) (mode : string) (pe : bool) : list Q * list Q :=
  if String.eqb mode "peaks" then _find_extrema x pe
  else if String.eqb mode "troughs" then
    let '(max_locs, max_ext) := _find_extrema (vneg x) pe in (max_locs, vneg max_ext)
  else _find_extrema (vabs x) pe.

Definition valid_extrema_mode (mode : string) : bool :=
  String.eqb mode "peaks" || String.eqb mode "troughs" || String.eqb mode "abs_peaks".

(** [c] with its [mask_freqs] replaced. *)
Definition with_mask_freqs (c : mask_opts) (mf : mask_freqs_arg) : mask_opts :=
  {| mask_amp := mask_amp c; mask_amp_mode := mask_amp_mode c; mask_freqs := mf;
     mask_step_factor := mask_step_factor c; mask_max_imfs := mask_max_imfs c;
     mask_sift_thresh := mask_sift_thresh c; nphases := nphases c;
     mask_imf_opts := mask_imf_opts c; mask_envelope_opts := mask_envelope_opts c;
     mask_extrema_opts := mask_extrema_opts c |}.

(** The IMF count [ensemble_sift] retains, [uni[np.argmax(unic)]]: the most
    frequent count among the realizations, the smallest such on a tie. *)
Definition majority_imf_count (res : list matrix) : nat :=
  let nimfs := map (@length signal) res in
  let uni := np_unique nimfs in
  nth (np_argmax (map (fun v => count_of v nimfs) uni)) uni 0%nat.

(** The realizations [ensemble_sift] averages. *)
Definition majority_group (res : list matrix) : list matrix :=
  filter (fun r => (length r =? majority_imf_count res)%nat) res.

(** A computation that reads no randomness: its result is the same in every
    world and it leaves the world as it found it. *)
Definition draws_nothing {A : Type} (c : rand A) : Prop :=
  forall w w', fst (c w) = fst (c w') /\ snd (c w) = w.

(** Sample [i] of [x] is a local maximum for [argrelextrema_greater]. *)
Definition is_peak (x : signal) (i : nat) : bool :=
  Qlt_bool (take_clip x (Z.of_nat i + 1)) (take_clip x (Z.of_nat i))
  && Qlt_bool (take_clip x (Z.of_nat i - 1)) (take_clip x (Z.of_nat i)).

(** The location [_find_extrema] reports for the local maximum at sample
    [i]. *)
Definition location_of (x : signal) (pe : bool) (i : nat) : Q :=
  if pe then fst (parabolic_extremum (nth (i - 1) x 0) (nth i x 0) (nth (i + 1) x 0)
                                     (inject_Z (Z.of_nat i)))
  else inject_Z (Z.of_nat i).

(** The envelope mode is one [interp_envelope] accepts. *)
Definition valid_envelope_mode (mode : string) : bool :=
  String.eqb mode "upper" || String.eqb mode "lower" || String.eqb mode "combined".

(** The detection mode [interp_envelope] asks of [get_padded_extrema]. *)
Definition detection_mode (mode : string) : string :=
  if String.eqb mode "upper" then "peaks"
  else if String.eqb mode "lower" then "troughs"
  else "abs_peaks".

(** The extrema options in force when the caller gives [extrema_opts] or
    none. *)
Definition resolve_extrema_opts (xo : option extrema_opts) : extrema_opts :=
  match xo with Some o => o | None => default_extrema_opts end.

(** The envelope [interp_envelope] cuts out of the interpolant through
    [(locs, pks)] for a signal of [n] samples, before its length check. *)
Definition clipped_envelope (method : string) (n : nat) (locs pks : list Q) : signal :=
  let t := np_arange (hd 0 locs) (last locs 0) in
  map snd (filter (fun te => Qle_bool 0 (fst te) && Qlt_bool (fst te) (inject_Z (Z.of_nat n)))
                  (combine t (map (interp_kernel method locs pks) t))).

(** The stopping rules [get_next_imf] knows. *)
Definition known_stop_method (o : imf_opts) : bool :=
  String.eqb (stop_method o) "sd" || String.eqb (stop_method o) "rilling"
  || String.eqb (stop_method o) "fixed".

(** ** Elementary facts about the numeric model *)

Lemma Qlt_bool_iff (x y : Q) : Qlt_bool x y = true <-> x < y.
Proof.
unfold Qlt_bool. rewrite negb_true_iff. split.
- intro H. apply Qnot_le_lt. intro Hle. apply Qle_bool_iff in Hle. congruence.
- intro H. destruct (Qle_bool y x) eqn:E; [|reflexivity].
  apply Qle_bool_iff in E. exfalso. apply (Qlt_not_le _ _ H E).
Qed.

Lemma Qlt_bool_false_iff (x y : Q) : Qlt_bool x y = false <-> y <= x.
Proof.
unfold Qlt_bool. rewrite negb_false_iff. apply Qle_bool_iff.
Qed.

Lemma Qlt_bool_irrefl (x : Q) : Qlt_bool x x = false.
Proof. apply Qlt_bool_false_iff. apply Qle_refl. Qed.

Lemma filter_none {A : Type} (f : A -> bool) (l : list A) :
(forall a, In a l -> f a = false) -> filter f l = [].
Proof.
induction l as [|a l IH]; intros H; [reflexivity|].
cbn. rewrite (H a (or_introl eq_refl)). apply IH. intros b Hb. apply H. now right.
Qed.

Lemma nth_repeat_lt {A : Type} (c d : A) (n i : nat) :
(i < n)%nat -> nth i (repeat c n) d = c.
Proof.
revert i. induction n as [|n IH]; intros [|i] H; cbn; try lia; [reflexivity|].
apply IH. lia.
Qed.

Lemma take_clip_repeat (c : Q) (n : nat) (i : Z) :
(0 < n)%nat -> take_clip (repeat c n) i = c.
Proof.
intros Hn. unfold take_clip. rewrite repeat_length. apply nth_repeat_lt. lia.
Qed.

Lemma argrelextrema_constant (c : Q) (n : nat) : argrelextrema_greater (repeat c n) = [].
Proof.
unfold argrelextrema_greater. apply filter_none. intros i Hi.
rewrite repeat_length in Hi. apply in_seq in Hi.
rewrite !take_clip_repeat by lia. now rewrite Qlt_bool_irrefl.
Qed.

(** ** Properties of the refiner and of the classic sift *)

(** *** Constant signals *)

Lemma find_extrema_constant (c : Q) (n : nat) (pe : bool) :
  _find_extrema (repeat c n) pe = ([], []).
Proof.
  unfold _find_extrema. now rewrite argrelextrema_constant.
Qed.

Lemma get_padded_extrema_constant (fuel : nat) (c : Q) (n : nat) (mode : string)
      (o : extrema_opts) :
  mode = "peaks"%string \/ mode = "troughs"%string \/ mode = "abs_peaks"%string ->
  get_padded_extrema fuel (repeat c n) mode o = Ok None.
Proof.
  unfold get_padded_extrema, vneg, vabs.
  intros [-> | [-> | ->]]; cbn [String.eqb Ascii.eqb Bool.eqb];
    rewrite ?map_repeat, !find_extrema_constant; reflexivity.
Qed.

Lemma interp_envelope_constant (fuel : nat) (c : Q) (n : nat) (mode : string)
      (eo : envelope_opts) (xo : option extrema_opts) :
  valid_interp_method eo = true ->
  mode = "upper"%string \/ mode = "lower"%string ->
  interp_envelope fuel (repeat c n) mode eo xo = Ok None.
Proof.
  unfold interp_envelope, valid_interp_method. intros -> Hm. cbn [negb].
  destruct Hm as [-> | ->]; cbn [String.eqb Ascii.eqb Bool.eqb];
    rewrite get_padded_extrema_constant by auto; reflexivity.
Qed.

Lemma get_next_imf_constant (fuel : nat) (c : Q) (n : nat) (o : imf_opts)
      (eo : envelope_opts) (xo : option extrema_opts) :
  valid_interp_method eo = true ->
  cap_allows_start o = true ->
  get_next_imf (S fuel) (repeat c n) o eo xo = Ok (repeat c n, false).
Proof.
  intros Hv Hc. unfold get_next_imf. cbn [refine_loop].
  assert (Hg : negb (String.eqb (stop_method o) "fixed")
               && negb (0 =? 3 * max_iters o / 4)%Z && (max_iters o <? 0)%Z = false).
  { unfold cap_allows_start in Hc. apply orb_true_iff in Hc as [-> | H]; [reflexivity|].
    apply Z.leb_le in H. replace (max_iters o <? 0)%Z with false
      by (symmetry; apply Z.ltb_ge; lia).
    now rewrite andb_false_r. }
  rewrite Hg. rewrite !interp_envelope_constant by auto. cbn [bind].
  destruct (energy_thresh o); [|reflexivity].
  now destruct (Qlt_bool _ _).
Qed.

Lemma sift_constant (fuel : nat) (c : Q) (n : nat) (cfg : sift_opts) :
  valid_interp_method (envelope_options cfg) = true ->
  cap_allows_start (match imf_options cfg with Some o => o | None => default_imf_opts end)
  = true ->
  sift (S fuel) (repeat c n) cfg = Ok [repeat c n].
Proof.
  intros Hv Hc. unfold sift. cbn [sift_loop].
  rewrite get_next_imf_constant by assumption. cbn [bind Z.eqb].
  destruct (max_imfs cfg) as [m|].
  - destruct (0 + 1 =? m)%Z; now destruct (Qlt_bool _ _).
  - now destruct (Qlt_bool _ _).
Qed.

(** C9. For a constant input signal, whatever its length: the extrema
    detector returns empty locations and magnitudes; the refiner stops in its
    first iteration because no envelope exists, returning the signal itself
    with a false continue flag; and the classic sift returns the input as its
    only IMF.  The options are arbitrary among those the refiner accepts: an
    interpolation method that exists and an iteration cap that is not
    negative (or the fixed criterion). *)
Theorem constant_signal_is_its_own_imf (fuel : nat) (c : Q) (n : nat) (cfg : sift_opts) :
  let x := repeat c n in
  let io := match imf_options cfg with Some o => o | None => default_imf_opts end in
  valid_interp_method (envelope_options cfg) = true ->
  cap_allows_start io = true ->
  _find_extrema x (parabolic_extrema
                     (match extrema_options cfg with
                      | Some o => o | None => default_extrema_opts end)) = ([], [])
  /\ get_next_imf (S fuel) x io (envelope_options cfg) (extrema_options cfg) = Ok (x, false)
  /\ sift (S fuel) x cfg = Ok [x].
Proof.
  intros x io Hv Hc. split; [apply find_extrema_constant|]. split.
  - now apply get_next_imf_constant.
  - now apply sift_constant.
Qed.

(** *** The SD criterion inside the refiner *)

Lemma stop_flag_sd (o : imf_opts) (p x1 upper lower : signal) (niters : Z) :
  stop_method o = "sd"%string ->
  stop_flag o p x1 upper lower niters
  = Ok (np_lt (np_div (sumsq (vsub p x1)) (sumsq p)) (sd_thresh o)).
Proof.
  unfold stop_flag. intros ->. reflexivity.
Qed.

(** The numerator of the metric is the same in the code and in the
    specification's wording; the two differ in the denominator. *)
Lemma sumsq_vsub_sym (p c : signal) : sumsq (vsub p c) == sumsq (vsub c p).
Proof.
  unfold sumsq, vsub, np_sum. revert c.
  induction p as [|a p IH]; intros [|b c]; cbn [map2 map fold_right]; try reflexivity.
  rewrite (IH c). ring.
Qed.

(** C1, amended. In an iteration of [get_next_imf] under the ['sd'] method,
    with current proto-IMF [p], envelopes [upper] and [lower] and candidate
    [c = p - mean(upper, lower)], the metric [sd_stop] computes is the squared
    norm of [p - c] divided by the squared norm of the current proto-IMF [p];
    the loop returns [c] exactly when that metric is strictly below
    [sd_thresh], and otherwise goes on from [p - env_step_size * mean]. *)
Theorem sd_iteration_metric (k fuel : nat) (o : imf_opts) (eo : envelope_opts)
        (xo : option extrema_opts) (p upper lower : signal) (niters : Z) :
  stop_method o = "sd"%string ->
  cap_strikes o niters = false ->
  interp_envelope fuel p "upper" eo xo = Ok (Some upper) ->
  interp_envelope fuel p "lower" eo xo = Ok (Some lower) ->
  let avg := map (fun v => v / 2) (vadd upper lower) in
  let c := vsub p avg in
  let metric := np_div (sumsq (vsub p c)) (sumsq p) in
  sd_stop p c (sd_thresh o) = (np_lt metric (sd_thresh o), metric)
  /\ refine_loop (S k) fuel o eo xo p niters
     = if np_lt metric (sd_thresh o) then Ok (c, true)
       else refine_loop k fuel o eo xo (vsub p (vscale (env_step_size o) avg)) (niters + 1).
Proof.
  intros Hsd Hcap Hu Hl avg c metric. split; [reflexivity|].
  cbn [refine_loop]. unfold cap_strikes in Hcap. rewrite Hcap, Hu, Hl. cbn [bind].
  fold avg. fold c. rewrite stop_flag_sd by assumption. cbn [bind]. reflexivity.
Qed.

(** *** The iteration cap *)

Lemma cap_strikes_beyond (o : imf_opts) (niters : Z) :
  String.eqb (stop_method o) "fixed" = false ->
  (0 <= niters)%Z -> (max_iters o < niters)%Z ->
  cap_strikes o niters = true.
Proof.
  intros Hf H0 Hm. unfold cap_strikes. rewrite Hf. cbn [negb andb].
  apply andb_true_iff. split; [|now apply Z.ltb_lt].
  apply negb_true_iff, Z.eqb_neq. intro E.
  destruct (Z_lt_le_dec (max_iters o) 0) as [Hneg | Hpos].
  - assert (3 * max_iters o / 4 < 0)%Z by (apply Z.div_lt_upper_bound; lia). lia.
  - assert (3 * max_iters o / 4 <= max_iters o)%Z by (apply Z.div_le_upper_bound; lia). lia.
Qed.

Lemma cap_strikes_within (o : imf_opts) (niters : Z) :
  (niters <= max_iters o)%Z -> cap_strikes o niters = false.
Proof.
  intros H. unfold cap_strikes.
  replace (max_iters o <? niters)%Z with false by (symmetry; apply Z.ltb_ge; lia).
  apply andb_false_r.
Qed.

Lemma refine_loop_hits_cap (n : nat) :
  forall (k fuel : nat) (o : imf_opts) (eo : envelope_opts) (xo : option extrema_opts)
         (p : signal) (niters : Z),
    String.eqb (stop_method o) "fixed" = false ->
    (0 <= niters)%Z ->
    (niters + Z.of_nat n = Z.max 0 (max_iters o + 1))%Z ->
    keeps_refining n fuel o eo xo p niters = true ->
    (n < k)%nat ->
    refine_loop k fuel o eo xo p niters
    = Raise (EMDSiftCovergeError (Z.max 0 (max_iters o + 1))).
Proof.
  induction n as [|n IH]; intros k fuel o eo xo p niters Hf H0 Hsum Hkeep Hk;
    (destruct k as [|k]; [lia|]); cbn [refine_loop]; fold (cap_strikes o niters).
  - rewrite cap_strikes_beyond by (auto; lia).
    f_equal. f_equal. lia.
  - rewrite cap_strikes_within by lia.
    cbn [keeps_refining] in Hkeep.
    destruct (interp_envelope fuel p "upper" eo xo) as [[upper|]| |]; try discriminate.
    destruct (interp_envelope fuel p "lower" eo xo) as [[lower|]| |]; try discriminate.
    cbn [bind].
    destruct (stop_flag o p _ upper lower (niters + 1)) as [[|]| |]; try discriminate.
    cbn [bind]. apply IH; auto; lia.
Qed.

(** C4. Under a stopping method other than ['fixed'], if the first
    [max_iters + 1] iterations of [get_next_imf] on [x] all find both envelopes
    and leave the criterion unfired, the refiner raises the convergence error
    at the top of the next iteration and returns no IMF; a sift whose refiner
    is invoked on [x], at whatever layer and with whatever IMFs collected so
    far, ends with the same error and returns no IMF collection. *)
Theorem refiner_convergence_failure (fuel : nat) (x : signal) (o : imf_opts)
        (eo : envelope_opts) (xo : option extrema_opts) :
  let n := Z.to_nat (max_iters o + 1) in
  String.eqb (stop_method o) "fixed" = false ->
  keeps_refining n fuel o eo xo x 0 = true ->
  (n < fuel)%nat ->
  get_next_imf fuel x o eo xo = Raise (EMDSiftCovergeError (Z.of_nat n))
  /\ (forall (k : nat) (c : sift_opts) (x0 : signal) (layer : Z) (imf : matrix),
         envelope_options c = eo -> extrema_options c = xo ->
         sift_loop (S k) fuel c o x0 layer imf x = Raise (EMDSiftCovergeError (Z.of_nat n)))
  /\ (forall c : sift_opts,
         imf_options c = Some o -> envelope_options c = eo -> extrema_options c = xo ->
         sift fuel x c = Raise (EMDSiftCovergeError (Z.of_nat n))).
Proof.
  intros n Hf Hkeep Hfuel.
  assert (Hn : Z.of_nat n = Z.max 0 (max_iters o + 1)) by (subst n; lia).
  assert (Hg : get_next_imf fuel x o eo xo = Raise (EMDSiftCovergeError (Z.of_nat n))).
  { unfold get_next_imf.
    rewrite (@refine_loop_hits_cap n fuel fuel o eo xo x 0%Z) by (auto; lia).
    rewrite Hn. reflexivity. }
  split; [exact Hg|]. split.
  - intros k c x0 layer imf <- <-. cbn [sift_loop]. rewrite Hg. reflexivity.
  - intros c Hio <- <-. unfold sift. rewrite Hio.
    destruct fuel as [|fuel']; [lia|]. cbn [sift_loop]. rewrite Hg. reflexivity.
Qed.

(** *** The loop of the classic sift *)

Lemma residual_prefix (x : signal) (imf0 rest : matrix) :
  residual x (imf0 ++ rest) (length imf0) = residual x imf0 (length imf0).
Proof.
  unfold residual. destruct (length imf0) eqn:E; [reflexivity|].
  rewrite <- E, firstn_app, Nat.sub_diag, firstn_all. cbn [firstn].
  now rewrite app_nil_r.
Qed.

Lemma sift_loop_trace (k : nat) :
  forall (fuel : nat) (c : sift_opts) (io : imf_opts) (x : signal) (imf0 : matrix)
         (proto : signal) (imf : matrix),
    proto = residual x imf0 (length imf0) ->
    sift_loop k fuel c io x (Z.of_nat (length imf0)) imf0 proto = Ok imf ->
    (exists rest, imf = imf0 ++ rest /\ rest <> [])
    /\ (forall j, (length imf0 <= j < length imf)%nat ->
                  exists flag,
                    get_next_imf fuel (residual x imf j) io (envelope_options c)
                                 (extrema_options c)
                    = Ok (nth j imf [], flag)
                    /\ (sift_stops c (Z.of_nat (S j)) (nth j imf []) flag = true
                        <-> S j = length imf))
    /\ (forall m, max_imfs c = Some m -> (Z.of_nat (length imf0) < m)%Z ->
                  (Z.of_nat (length imf) <= m)%Z).
Proof.
  induction k as [|k IH]; intros fuel c io x imf0 proto imf Hproto Hrun;
    [discriminate|].
  cbn [sift_loop] in Hrun.
  destruct (get_next_imf fuel proto io (envelope_options c) (extrema_options c))
    as [[next flag]| |] eqn:Hg; try discriminate.
  cbn [bind] in Hrun.
  set (imf1 := imf0 ++ [next]) in Hrun |- *.
  assert (Himf1 : (if (Z.of_nat (length imf0) =? 0)%Z then [next] else imf1) = imf1).
  { destruct (Z.eqb_spec (Z.of_nat (length imf0)) 0) as [E|E]; [|reflexivity].
    destruct imf0; [reflexivity|cbn in E; lia]. }
  rewrite Himf1 in Hrun.
  assert (Hlen1 : length imf1 = S (length imf0))
    by (unfold imf1; rewrite length_app; cbn; lia).
  assert (Hlayer : (Z.of_nat (length imf0) + 1)%Z = Z.of_nat (length imf1)) by lia.
  rewrite Hlayer in Hrun.
  assert (Hcont :
            (if Qlt_bool (np_sum (vabs next)) (sift_thresh c) then false
             else match max_imfs c with
                  | Some m => if (Z.of_nat (length imf1) =? m)%Z then false else flag
                  | None => flag
                  end)
            = negb (sift_stops c (Z.of_nat (length imf1)) next flag)).
  { unfold sift_stops. destruct (Qlt_bool _ _), (max_imfs c) as [m|];
      try destruct (Z.of_nat (length imf1) =? m)%Z; destruct flag; reflexivity. }
  rewrite Hcont in Hrun.
  assert (Hres : forall rest, residual x (imf1 ++ rest) (length imf0) = proto).
  { intros rest. unfold imf1. rewrite <- app_assoc, residual_prefix. now symmetry. }
  assert (Hnth : forall rest, nth (length imf0) (imf1 ++ rest) [] = next).
  { intros rest. unfold imf1. rewrite <- app_assoc, app_nth2 by lia.
    now rewrite Nat.sub_diag. }
  destruct (sift_stops c (Z.of_nat (length imf1)) next flag) eqn:Hstop; cbn [negb] in Hrun.
  - (* the loop ends after this layer *)
    injection Hrun as <-. split; [|split].
    + exists [next]. split; [reflexivity|discriminate].
    + intros j Hj. assert (j = length imf0) by lia. subst j.
      exists flag. rewrite <- (app_nil_r imf1), Hres, Hnth, Hg, app_nil_r, <- Hlen1.
      split; [reflexivity|]. rewrite Hstop. split; intros _; reflexivity.
    + intros m Hm Hlt. unfold sift_stops in Hstop.
      destruct (Z.of_nat (length imf1) <=? m)%Z eqn:E; [now apply Z.leb_le|].
      apply Z.leb_gt in E. lia.
  - (* another layer follows *)
    apply IH in Hrun.
    2:{ rewrite Hlen1. unfold residual. now rewrite <- Hlen1, firstn_all. }
    destruct Hrun as [[rest [-> Hrest]] [Htrace Hcap]]. split; [|split].
    + exists ([next] ++ rest). unfold imf1. rewrite <- app_assoc.
      split; [reflexivity|discriminate].
    + intros j Hj. destruct (Nat.eq_dec j (length imf0)) as [->|Hne].
      * exists flag. rewrite Hres, Hnth, Hg, <- Hlen1. split; [reflexivity|].
        rewrite Hstop. split; [discriminate|].
        intros E. exfalso. rewrite length_app in E. destruct rest; [congruence|cbn in E; lia].
      * apply Htrace. lia.
    + intros m Hm Hlt. apply (Hcap m Hm).
      unfold sift_stops in Hstop. rewrite Hm in Hstop.
      apply orb_false_iff in Hstop as [Hstop _].
      apply orb_false_iff in Hstop as [_ Hstop]. apply Z.eqb_neq in Hstop. lia.
Qed.

(** With a cap of at least 1, a sift whose every refinement returns ends
    within [max_imfs] layers. *)
Lemma sift_loop_returns (k : nat) :
  forall (fuel : nat) (c : sift_opts) (io : imf_opts) (x : signal) (layer : Z)
         (imf : matrix) (proto : signal) (m : Z),
    max_imfs c = Some m -> (layer < m)%Z -> (m - layer <= Z.of_nat k)%Z ->
    (forall p, exists r, get_next_imf fuel p io (envelope_options c) (extrema_options c)
                         = Ok r) ->
    exists imf', sift_loop k fuel c io x layer imf proto = Ok imf'.
Proof.
  induction k as [|k IH]; intros fuel c io x layer imf proto m Hm Hlt Hk Hall; [lia|].
  cbn [sift_loop]. destruct (Hall proto) as [[next flag] ->]. cbn [bind]. rewrite Hm.
  destruct (Z.eqb_spec (layer + 1) m) as [E|E].
  - destruct (Qlt_bool _ _); eexists; reflexivity.
  - destruct (Qlt_bool _ _); [eexists; reflexivity|].
    destruct flag; [|eexists; reflexivity].
    apply (IH fuel c io x (layer + 1)%Z _ _ m); auto; lia.
Qed.

Lemma sift_returns_within_cap (fuel : nat) (x : signal) (c : sift_opts) (m : Z) :
  let io := match imf_options c with Some o => o | None => default_imf_opts end in
  max_imfs c = Some m -> (1 <= m <= Z.of_nat fuel)%Z ->
  (forall p, exists r, get_next_imf fuel p io (envelope_options c) (extrema_options c)
                       = Ok r) ->
  exists imf, sift fuel x c = Ok imf.
Proof.
  intros io Hm Hb Hall. unfold sift. fold io.
  apply (sift_loop_returns fuel fuel c io x 0%Z [] x m); auto; lia.
Qed.

(** C5, amended. When the classic sift returns, its collection holds one IMF
    for each layer it ran and at least one: the IMF at position [j] is what
    the refiner returned on the input less the IMFs before it, and the loop
    ended after a layer exactly when the refiner's continue flag was false, or
    the layer count equalled [max_imfs], or the sum of absolute values of that
    layer's IMF was below [sift_thresh].  When [max_imfs] is set to a value
    of at least 1, the collection holds at most [max_imfs] IMFs. *)
Theorem sift_layers_and_cap (fuel : nat) (x : signal) (c : sift_opts) (imf : matrix) :
  let io := match imf_options c with Some o => o | None => default_imf_opts end in
  sift fuel x c = Ok imf ->
  (1 <= length imf)%nat
  /\ (forall j, (j < length imf)%nat ->
                exists flag,
                  get_next_imf fuel (residual x imf j) io (envelope_options c)
                               (extrema_options c)
                  = Ok (nth j imf [], flag)
                  /\ (sift_stops c (Z.of_nat (S j)) (nth j imf []) flag = true
                      <-> S j = length imf))
  /\ (forall m, max_imfs c = Some m -> (1 <= m)%Z -> (Z.of_nat (length imf) <= m)%Z).
Proof.
  intros io Hrun. unfold sift in Hrun. fold io in Hrun.
  apply (@sift_loop_trace fuel fuel c io x [] x imf eq_refl) in Hrun.
  destruct Hrun as [[rest [-> Hrest]] [Htrace Hcap]]. split; [|split].
  - destruct rest; [congruence|cbn; lia].
  - intros j Hj. apply Htrace. cbn [length]. lia.
  - intros m Hm H1. apply (Hcap m Hm). cbn [length]. lia.
Qed.

(** ** Chains *)

Section Chains.

Context {A : Type}.
Variable R : A -> A -> Prop.

Lemma chain_cons (x : A) (l : list A) :
  chain R (x :: l) <-> (forall y, hd_error l = Some y -> R x y) /\ chain R l.
Proof.
  destruct l as [|y l]; cbn; split.
  - intros _. split; [discriminate|exact I].
  - intros _. exact I.
  - intros [H1 H2]. split; [|exact H2]. now intros ? [= <-].
  - intros [H1 H2]. split; [now apply H1|exact H2].
Qed.

Lemma chain_tail (x : A) (l : list A) : chain R (x :: l) -> chain R l.
Proof. intros H. now apply chain_cons in H. Qed.

Lemma chain_app (l1 l2 : list A) (e : A) :
  chain R (l1 ++ [e]) -> chain R (e :: l2) -> chain R (l1 ++ e :: l2).
Proof.
  induction l1 as [|a l1 IH]; intros H1 H2; [exact H2|].
  cbn [app] in *. apply chain_cons in H1 as [Hh Ht]. apply chain_cons. split.
  - intros y Hy. apply Hh. destruct l1; cbn in *; exact Hy.
  - now apply IH.
Qed.

Lemma chain_snoc (l : list A) (a b : A) :
  chain R (l ++ [a]) -> R a b -> chain R (l ++ [a; b]).
Proof.
  intros H1 H2. apply chain_app; [exact H1|]. cbn. tauto.
Qed.

Lemma chain_firstn (c : nat) (l : list A) : chain R l -> chain R (firstn c l).
Proof.
  revert l. induction c as [|c IH]; intros [|a l] H; cbn [firstn]; try exact I.
  apply chain_cons in H as [Hh Ht]. apply chain_cons. split; [|now apply IH].
  intros y Hy. apply Hh. destruct c, l; cbn in *; congruence.
Qed.

End Chains.

Lemma chain_rev {A : Type} (R : A -> A -> Prop) (l : list A) :
  chain (fun a b => R b a) l -> chain R (rev l).
Proof.
  induction l as [|a l IH]; intros H; [exact I|].
  apply chain_cons in H as [Hh Ht]. specialize (IH Ht). cbn [rev].
  destruct l as [|b l]; [exact I|].
  cbn [rev] in *. rewrite <- app_assoc. cbn [app].
  apply chain_snoc; [exact IH|]. now apply Hh.
Qed.

Lemma chain_map {A B : Type} (R : A -> A -> Prop) (R' : B -> B -> Prop) (f : A -> B)
      (l : list A) :
  (forall a b, R a b -> R' (f a) (f b)) -> chain R l -> chain R' (map f l).
Proof.
  intros Hf. induction l as [|a [|b l] IH]; cbn; auto.
  intros [H1 H2]. split; [now apply Hf|]. now apply IH.
Qed.

Lemma chain_filter_seq (f : nat -> bool) (n : nat) :
  forall a, chain lt (filter f (seq a n)).
Proof.
  induction n as [|n IH]; intros a; [exact I|].
  cbn [seq filter]. destruct (f a); [|apply IH].
  apply chain_cons. split; [|apply IH].
  intros y Hy.
  assert (Hin : In y (filter f (seq (S a) n))).
  { destruct (filter f (seq (S a) n)); [discriminate|]. injection Hy as ->. now left. }
  apply filter_In in Hin as [Hin _]. apply in_seq in Hin. lia.
Qed.

(** ** Spaced locations *)

Lemma spaced_above (a : Q) (l : list Q) :
  spaced (a :: l) -> forall v, In v l -> a + 1 <= v.
Proof.
  revert a. induction l as [|b l IH]; intros a H v Hv; [destruct Hv|].
  destruct H as [Hab Hl]. destruct Hv as [<- | Hv]; [exact Hab|].
  specialize (IH b Hl v Hv). lra.
Qed.

Lemma qmin_spaced (a : Q) (l : list Q) : spaced (a :: l) -> qmin (a :: l) = a.
Proof.
  intros H. cbn [qmin].
  assert (Hall : forall v, In v l -> a <= v).
  { intros v Hv. pose proof (@spaced_above a l H v Hv). lra. }
  clear H. induction l as [|b l IH]; [reflexivity|].
  cbn [fold_left].
  replace (Qlt_bool b a) with false.
  - apply IH. intros v Hv. apply Hall. now right.
  - symmetry. apply Qlt_bool_false_iff. apply Hall. now left.
Qed.

Lemma qmax_spaced (a : Q) (l : list Q) : spaced (a :: l) -> qmax (a :: l) = last (a :: l) 0.
Proof.
  cbn [qmax]. revert a. induction l as [|b l IH]; intros a H; [reflexivity|].
  destruct H as [Hab Hl]. cbn [fold_left].
  replace (Qlt_bool a b) with true by (symmetry; apply Qlt_bool_iff; lra).
  rewrite (IH b Hl). reflexivity.
Qed.

Lemma last_In {A : Type} (d : A) (l : list A) : l <> [] -> In (last l d) l.
Proof.
  induction l as [|a [|b l] IH]; intros H; [congruence|now left|].
  right. apply IH. discriminate.
Qed.

Lemma spaced_last_above (a : Q) (l : list Q) :
  spaced (a :: l) -> l <> [] -> a + 1 <= last (a :: l) 0.
Proof.
  intros H Hl. apply (@spaced_above a l H).
  destruct l as [|b l]; [congruence|].
  change (last (a :: b :: l) 0) with (last (b :: l) 0).
  apply last_In. discriminate.
Qed.

(** ** Odd reflection of spaced locations *)

Lemma last_app_r {A : Type} (d : A) (l1 l2 : list A) :
  l2 <> [] -> last (l1 ++ l2) d = last l2 d.
Proof.
  intros H. induction l1 as [|a l1 IH]; [reflexivity|].
  cbn [app]. rewrite <- IH. destruct (l1 ++ l2) eqn:E; [|reflexivity].
  apply app_eq_nil in E as [_ E]. congruence.
Qed.

Lemma rev_head_last {A : Type} (d : A) (l : list A) :
  l <> [] -> rev l = last l d :: tl (rev l).
Proof.
  intros H. destruct (exists_last H) as [l' [z ->]].
  rewrite rev_unit, last_last. reflexivity.
Qed.

Lemma left_chunk_spaced (e : Q) (t : list Q) (c : nat) :
  spaced (e :: t) ->
  spaced (map (fun v => 2 * e - v) (rev (firstn c t)) ++ [e]).
Proof.
  intros H. rewrite map_rev.
  change (spaced (rev (e :: map (fun v => 2 * e - v) (firstn c t)))).
  apply chain_rev. apply chain_cons. split.
  - intros y Hy. destruct c, t as [|p t]; cbn in Hy; try discriminate.
    injection Hy as <-. destruct H as [H _]. lra.
  - apply chain_map with (R := fun a b => a + 1 <= b); [intros; lra|].
    apply chain_firstn. exact (chain_tail _ _ _ H).
Qed.

Lemma right_chunk_spaced (z : Q) (d : list Q) (c : nat) :
  chain (fun a b => b + 1 <= a) (z :: d) ->
  spaced (z :: map (fun v => 2 * z - v) (firstn c d)).
Proof.
  intros H. apply chain_cons. split.
  - intros y Hy. destruct c, d as [|q d]; cbn in Hy; try discriminate.
    injection Hy as <-. destruct H as [H _]. lra.
  - apply chain_map with (R := fun a b => b + 1 <= a); [intros; lra|].
    apply chain_firstn. exact (chain_tail _ _ _ H).
Qed.

Lemma spaced_head_below (l : list Q) (e : Q) :
  spaced (l ++ [e]) ->
  hd 0 (l ++ [e]) <= e /\ (l <> [] -> hd 0 (l ++ [e]) + 1 <= e).
Proof.
  destruct l as [|x l]; intros H; cbn [app hd].
  - split; [lra|congruence].
  - assert (x + 1 <= e).
    { apply (@spaced_above x (l ++ [e]) H). apply in_or_app. right. now left. }
    split; [lra|auto].
Qed.

Lemma spaced_last_over (z : Q) (r : list Q) :
  spaced (z :: r) ->
  z <= last (z :: r) 0 /\ (r <> [] -> z + 1 <= last (z :: r) 0).
Proof.
  intros H. destruct r as [|y r].
  - cbn. split; [lra|congruence].
  - assert (z + 1 <= last (z :: y :: r) 0) by (apply spaced_last_above; [exact H|discriminate]).
    split; [lra|auto].
Qed.

Lemma set_reflect_both_spaced (a : list Q) (lp rp : nat) :
  spaced a -> (2 <= length a)%nat ->
  let a' := fst (set_reflect_both true a lp rp) in
  spaced a' /\ (2 <= length a')%nat
  /\ hd 0 a' <= hd 0 a /\ last a 0 <= last a' 0
  /\ ((1 <= lp)%nat -> hd 0 a' + 1 <= hd 0 a)
  /\ ((1 <= rp)%nat -> last a 0 + 1 <= last a' 0).
Proof.
  intros Ha Hlen. unfold set_reflect_both. cbn [fst].
  set (cl := Nat.min (length a - 1) lp).
  set (cr := Nat.min (length a - 1) rp).
  destruct a as [|e t]; [cbn in Hlen; lia|].
  assert (Ht : t <> []) by (destruct t; [cbn in Hlen; lia|discriminate]).
  cbn [hd tl].
  set (z := last (e :: t) 0).
  set (L := map (fun v => 2 * e - v) (rev (firstn cl t))).
  set (Rc := map (fun v => 2 * z - v) (firstn cr (tl (rev (e :: t))))).
  assert (HL : spaced (L ++ [e])) by (apply left_chunk_spaced; exact Ha).
  assert (Hrev : rev (e :: t) = z :: tl (rev (e :: t)))
    by (apply rev_head_last; discriminate).
  assert (HR : spaced (z :: Rc)).
  { apply right_chunk_spaced. rewrite <- Hrev. apply chain_rev. exact Ha. }
  destruct (exists_last (l := e :: t)) as [a' [z' Ea]]; [discriminate|].
  assert (Hz : z' = z) by (unfold z; rewrite Ea; now rewrite last_last).
  subst z'.
  assert (HaR : spaced ((e :: t) ++ Rc)).
  { rewrite Ea, <- app_assoc. cbn [app]. apply chain_app; [rewrite <- Ea; exact Ha|exact HR]. }
  assert (Hall : spaced (L ++ (e :: t) ++ Rc)).
  { cbn [app]. apply chain_app; [exact HL|exact HaR]. }
  assert (Hhd : hd 0 (L ++ (e :: t) ++ Rc) = hd 0 (L ++ [e]))
    by (destruct L; reflexivity).
  assert (Hlast : last (L ++ (e :: t) ++ Rc) 0 = last (z :: Rc) 0).
  { rewrite Ea, <- app_assoc. cbn [app]. rewrite app_assoc.
    apply last_app_r. discriminate. }
  destruct (spaced_head_below _ _ HL) as [Hh1 Hh2].
  destruct (spaced_last_over _ _ HR) as [Hl1 Hl2].
  rewrite Hhd, Hlast. repeat split; auto.
  - rewrite !length_app. cbn [length]. cbn [length] in Hlen. lia.
  - intros Hlp. apply Hh2. unfold L. intros E. apply map_eq_nil in E.
    apply (f_equal (@length Q)) in E. rewrite length_rev, length_firstn in E.
    cbn [length] in E, Hlen |- *. unfold cl in E. cbn [length] in E.
    destruct t; [congruence|]. cbn [length] in E. lia.
  - intros Hrp. apply Hl2. unfold Rc. intros E. apply map_eq_nil in E.
    apply (f_equal (@length Q)) in E. rewrite length_firstn in E.
    assert (length (tl (rev (e :: t))) = length t).
    { apply (f_equal (@length Q)) in Hrev. rewrite length_rev in Hrev.
      cbn [length] in Hrev. lia. }
    unfold cr in E. cbn [length] in E.
    destruct t; [congruence|]. cbn [length] in *. lia.
Qed.

Lemma reflect_loop_spaced (fuel : nat) :
  forall (a : list Q) (lp rp : nat),
    spaced a -> (2 <= length a)%nat ->
    let a' := reflect_loop fuel true a lp rp in
    spaced a' /\ (2 <= length a')%nat /\ hd 0 a' <= hd 0 a /\ last a 0 <= last a' 0.
Proof.
  induction fuel as [|fuel IH]; intros a lp rp Ha Hlen; cbn zeta.
  - assert (E : reflect_loop 0 true a lp rp = a) by (destruct lp, rp; reflexivity).
    rewrite E. repeat split; auto; lra.
  - destruct (Nat.eq_dec lp 0) as [Elp|Hlp], (Nat.eq_dec rp 0) as [Erp|Hrp];
      [subst; cbn; repeat split; auto; lra| | |].
    all: assert (E : reflect_loop (S fuel) true a lp rp
                     = reflect_loop fuel true (fst (set_reflect_both true a lp rp))
                                    (fst (snd (set_reflect_both true a lp rp)))
                                    (snd (snd (set_reflect_both true a lp rp))))
        by (destruct lp, rp; try congruence; cbn [reflect_loop];
            destruct (set_reflect_both true _ _ _) as [a1 [l1 r1]]; reflexivity).
    all: rewrite E; clear E.
    all: destruct (set_reflect_both_spaced a lp rp Ha Hlen) as (S1 & S2 & S3 & S4 & _ & _).
    all: destruct (IH _ (fst (snd (set_reflect_both true a lp rp)))
                      (snd (snd (set_reflect_both true a lp rp))) S1 S2)
        as (T1 & T2 & T3 & T4).
    all: repeat split; auto; lra.
Qed.

Lemma np_pad_reflect_spaced (a : list Q) (w : nat) :
  spaced a -> (2 <= length a)%nat -> (1 <= w)%nat ->
  exists a', np_pad a w (reflect true) = Ok a'
             /\ spaced a' /\ (2 <= length a')%nat
             /\ hd 0 a' + 1 <= hd 0 a /\ last a 0 + 1 <= last a' 0.
Proof.
  intros Ha Hlen Hw.
  destruct a as [|e [|e' t]]; try (cbn in Hlen; lia).
  cbn [np_pad]. eexists. split; [reflexivity|].
  destruct w as [|w]; [lia|]. cbn [Nat.add reflect_loop].
  destruct (set_reflect_both true (e :: e' :: t) (S w) (S w)) as [a1 [l1 r1]] eqn:E.
  pose proof (set_reflect_both_spaced (e :: e' :: t) (S w) (S w) Ha Hlen) as H.
  rewrite E in H. cbn [fst] in H. destruct H as (S1 & S2 & S3 & S4 & S5 & S6).
  destruct (reflect_loop_spaced (w + S w) a1 l1 r1 S1 S2) as (T1 & T2 & T3 & T4).
  assert (1 <= S w)%nat by lia.
  specialize (S5 H). specialize (S6 H).
  repeat split; auto; lra.
Qed.

Lemma reflect_loop_length (fuel : nat) :
  forall (odd : bool) (a : list Q) (lp rp : nat),
    (length a <= length (reflect_loop fuel odd a lp rp))%nat.
Proof.
  induction fuel as [|fuel IH]; intros odd a lp rp.
  - destruct lp, rp; cbn; lia.
  - destruct lp, rp; cbn [reflect_loop]; try lia.
    all: destruct (set_reflect_both odd a _ _) as [a1 [l1 r1]] eqn:E.
    all: specialize (IH odd a1 l1 r1).
    all: unfold set_reflect_both in E; injection E as <- _ _.
    all: rewrite !length_app in IH; lia.
Qed.

Lemma np_pad_nonempty (a : list Q) (w : nat) (m : pad_mode) :
  a <> [] -> exists a', np_pad a w m = Ok a' /\ a' <> [].
Proof.
  intros Ha. destruct a as [|e [|e' t]]; [congruence| |].
  - cbn [np_pad]. eexists. split; [reflexivity|].
    unfold pad_edges. intros E. apply app_eq_nil in E as [_ E]. discriminate.
  - destruct m as [odd| |]; cbn [np_pad]; eexists; (split; [reflexivity|]).
    + pose proof (reflect_loop_length (w + w) odd (e :: e' :: t) w w) as H.
      intros E. rewrite E in H. cbn in H. lia.
    + unfold pad_edges. intros E. apply app_eq_nil in E as [_ E]. discriminate.
    + unfold pad_edges. intros E. apply app_eq_nil in E as [_ E]. discriminate.
Qed.

(** ** The repeat-padding loop *)

Lemma inject_Z_step (a b : Z) : (a + 1 <= b)%Z -> inject_Z a + 1 <= inject_Z b.
Proof.
  intros H. unfold Qle, Qplus, inject_Z. cbn. lia.
Qed.

Lemma inject_nat_succ (k : nat) :
  inject_Z (Z.of_nat (S k)) == inject_Z (Z.of_nat k) + 1.
Proof.
  rewrite Nat2Z.inj_succ. unfold Z.succ. rewrite inject_Z_plus. reflexivity.
Qed.

Lemma keep_padding_covered (fuel : nat) :
  forall (n w : nat) (lm mm : pad_mode) (l m l' m' : list Q),
    keep_padding fuel n w lm mm l m = Ok (l', m') ->
    qmin l' < 0 /\ inject_Z (Z.of_nat n) <= qmax l'.
Proof.
  induction fuel as [|fuel IH]; intros n w lm mm l m l' m' H; [discriminate|].
  cbn [keep_padding] in H.
  destruct (Qlt_bool (qmax l) (inject_Z (Z.of_nat n)) || Qle_bool 0 (qmin l)) eqn:C.
  - destruct (np_pad l w lm) as [l1| |]; try discriminate.
    destruct (np_pad m w mm) as [m1| |]; try discriminate.
    cbn [bind] in H. exact (IH _ _ _ _ _ _ _ _ H).
  - injection H as <- <-. apply orb_false_iff in C as [C1 C2].
    apply Qlt_bool_false_iff in C1. split; [|exact C1].
    apply Qnot_le_lt. intros Hle. apply Qle_bool_iff in Hle. congruence.
Qed.

Lemma keep_padding_terminates (k : nat) :
  forall (fuel n w : nat) (mm : pad_mode) (locs mags : list Q),
    (1 <= w)%nat -> spaced locs -> (2 <= length locs)%nat -> mags <> [] ->
    hd 0 locs < inject_Z (Z.of_nat k) ->
    inject_Z (Z.of_nat n) - inject_Z (Z.of_nat k) <= last locs 0 ->
    (k < fuel)%nat ->
    exists r, keep_padding fuel n w (reflect true) mm locs mags = Ok r.
Proof.
  induction k as [|k IH]; intros fuel n w mm locs mags Hw Hs Hlen Hm Hhd Hlast Hfuel;
    (destruct fuel as [|fuel]; [lia|]); cbn [keep_padding];
    (destruct locs as [|e t]; [cbn in Hlen; lia|]);
    rewrite (qmin_spaced _ _ Hs), (qmax_spaced _ _ Hs).
  - cbn [hd] in Hhd. change (inject_Z (Z.of_nat 0)) with 0 in *.
    replace (Qlt_bool (last (e :: t) 0) (inject_Z (Z.of_nat n))) with false
      by (symmetry; apply Qlt_bool_false_iff; lra).
    replace (Qle_bool 0 e) with false.
    + eexists. reflexivity.
    + symmetry. destruct (Qle_bool 0 e) eqn:E; [|reflexivity].
      apply Qle_bool_iff in E. lra.
  - destruct (Qlt_bool (last (e :: t) 0) (inject_Z (Z.of_nat n)) || Qle_bool 0 e);
      [|eexists; reflexivity].
    destruct (np_pad_reflect_spaced (e :: t) w Hs Hlen Hw) as (l1 & -> & S1 & S2 & S3 & S4).
    destruct (np_pad_nonempty mags w mm Hm) as (m1 & -> & Hm1).
    cbn [bind]. pose proof (inject_nat_succ k) as Hk.
    apply IH; auto; try lia; cbn [hd] in *; lra.
Qed.

Lemma is_peak_interior (x : signal) (i : nat) :
  is_peak x i = true ->
  (1 <= i)%nat /\ (S i < length x)%nat
  /\ nth (i - 1) x 0 < nth i x 0 /\ nth (i + 1) x 0 < nth i x 0.
Proof.
  unfold is_peak, take_clip. intros H. apply andb_true_iff in H as [H1 H2].
  apply Qlt_bool_iff in H1, H2.
  assert (Hi : (1 <= i)%nat).
  { destruct i as [|i]; [|lia]. exfalso. revert H2.
    replace (Z.to_nat (Z.max 0 (Z.min (Z.of_nat 0 - 1) (Z.of_nat (length x) - 1))))
      with (Z.to_nat (Z.max 0 (Z.min (Z.of_nat 0) (Z.of_nat (length x) - 1)))) by lia.
    apply Qlt_irrefl. }
  assert (Hn : (S i < length x)%nat).
  { destruct (Nat.lt_ge_cases (S i) (length x)) as [|Hge]; [assumption|]. exfalso. revert H1.
    replace (Z.to_nat (Z.max 0 (Z.min (Z.of_nat i + 1) (Z.of_nat (length x) - 1))))
      with (Z.to_nat (Z.max 0 (Z.min (Z.of_nat i) (Z.of_nat (length x) - 1)))) by lia.
    apply Qlt_irrefl. }
  replace (Z.to_nat (Z.max 0 (Z.min (Z.of_nat i + 1) (Z.of_nat (length x) - 1))))
    with (i + 1)%nat in H1 by lia.
  replace (Z.to_nat (Z.max 0 (Z.min (Z.of_nat i - 1) (Z.of_nat (length x) - 1))))
    with (i - 1)%nat in H2 by lia.
  replace (Z.to_nat (Z.max 0 (Z.min (Z.of_nat i) (Z.of_nat (length x) - 1))))
    with i in H1, H2 by lia.
  auto.
Qed.

Lemma is_peak_not_adjacent (x : signal) (i : nat) :
  is_peak x i = true -> is_peak x (S i) = true -> False.
Proof.
  unfold is_peak. intros H H'.
  apply andb_true_iff in H as [H1 _]. apply andb_true_iff in H' as [_ H2].
  apply Qlt_bool_iff in H1, H2.
  replace (Z.of_nat (S i) - 1)%Z with (Z.of_nat i) in H2 by lia.
  replace (Z.of_nat (S i)) with (Z.of_nat i + 1)%Z in H2 by lia.
  lra.
Qed.

Lemma chain_peaks (x : signal) (n : nat) :
  forall a, chain (fun i j => is_peak x i = true /\ is_peak x j = true /\ (i + 2 <= j)%nat)
                  (filter (is_peak x) (seq a n)).
Proof.
  induction n as [|n IH]; intros a; [exact I|].
  cbn [seq filter]. destruct (is_peak x a) eqn:Ea; [|apply IH].
  apply chain_cons. split; [|apply IH].
  intros y Hy.
  assert (Hin : In y (filter (is_peak x) (seq (S a) n))).
  { destruct (filter (is_peak x) (seq (S a) n)); [discriminate|]. injection Hy as ->. now left. }
  apply filter_In in Hin as [Hin Ey]. apply in_seq in Hin.
  split; [exact Ea|]. split; [exact Ey|].
  destruct (Nat.eq_dec y (S a)) as [->|]; [|lia].
  exfalso. exact (is_peak_not_adjacent x a Ea Ey).
Qed.

Lemma parabolic_location_near (y0 y1 y2 loc : Q) :
  y0 < y1 -> y2 < y1 ->
  loc - (1#2) < fst (parabolic_extremum y0 y1 y2 loc)
  /\ fst (parabolic_extremum y0 y1 y2 loc) < loc + (1#2).
Proof.
  intros H0 H2. unfold parabolic_extremum. cbn [fst].
  set (a := (1#2) * y0 - y1 + (1#2) * y2).
  set (b := - (5#2) * y0 + 4 * y1 - (3#2) * y2).
  assert (Ha : a < 0) by (unfold a; lra).
  assert (E : - b / (2 * a) == b / (- (2 * a))) by (field; lra).
  rewrite E.
  assert (Hd : 0 < - (2 * a)) by lra.
  assert (L : 3#2 < b / (- (2 * a))).
  { apply Qlt_shift_div_l; [exact Hd|]. unfold a, b. lra. }
  assert (U : b / (- (2 * a)) < 5#2).
  { apply Qlt_shift_div_r; [exact Hd|]. unfold a, b. lra. }
  split; lra.
Qed.

Lemma location_of_near (x : signal) (pe : bool) (i : nat) :
  is_peak x i = true ->
  inject_Z (Z.of_nat i) - (1#2) < location_of x pe i
  /\ location_of x pe i < inject_Z (Z.of_nat i) + (1#2).
Proof.
  intros H. destruct (is_peak_interior x i H) as (_ & _ & H0 & H2).
  unfold location_of. destruct pe; [now apply parabolic_location_near|split; lra].
Qed.

Lemma split_map {A B C : Type} (f : A -> B * C) (l : list A) :
  List.split (map f l) = (map (fun a => fst (f a)) l, map (fun a => snd (f a)) l).
Proof.
  induction l as [|a l IH]; [reflexivity|].
  cbn [map List.split]. rewrite IH. now destruct (f a).
Qed.

Lemma find_extrema_locations (x : signal) (pe : bool) :
  fst (_find_extrema x pe) = map (location_of x pe) (argrelextrema_greater x)
  /\ length (snd (_find_extrema x pe)) = length (fst (_find_extrema x pe)).
Proof.
  unfold _find_extrema, location_of.
  destruct (argrelextrema_greater x) as [|i l]; [split; reflexivity|].
  destruct pe.
  - unfold compute_parabolic_extrema. rewrite split_map. cbn [fst snd].
    split; [reflexivity|]. now rewrite !length_map.
  - cbn [fst snd]. split; [reflexivity|]. now rewrite !length_map.
Qed.

Lemma inject_Z_two_steps (a b : Z) : (a + 2 <= b)%Z -> inject_Z a + 2 <= inject_Z b.
Proof.
  intros H. unfold Qle, Qplus, inject_Z. cbn. lia.
Qed.

Lemma find_extrema_spaced (x : signal) (pe : bool) :
  let locs := fst (_find_extrema x pe) in
  spaced locs
  /\ (locs <> [] -> hd 0 locs + 1 <= inject_Z (Z.of_nat (length x)) /\ 0 <= last locs 0).
Proof.
  cbn zeta. destruct (find_extrema_locations x pe) as [-> _].
  change (argrelextrema_greater x) with (filter (is_peak x) (seq 0 (length x))). split.
  - apply chain_map
      with (R := fun i j => is_peak x i = true /\ is_peak x j = true /\ (i + 2 <= j)%nat).
    + intros i j (Hi & Hj & Hij).
      destruct (location_of_near x pe i Hi) as [_ Ui].
      destruct (location_of_near x pe j Hj) as [Lj _].
      assert (inject_Z (Z.of_nat i) + 2 <= inject_Z (Z.of_nat j))
        by (apply inject_Z_two_steps; lia).
      lra.
    + apply chain_peaks.
  - intros Hne.
    assert (Hin : forall v, In v (map (location_of x pe) (filter (is_peak x) (seq 0 (length x))))
                            -> v + 1 <= inject_Z (Z.of_nat (length x)) /\ 0 <= v).
    { intros v Hv. apply in_map_iff in Hv as (i & <- & Hi).
      apply filter_In in Hi as [_ Hi].
      destruct (location_of_near x pe i Hi) as [L U].
      destruct (is_peak_interior x i Hi) as (H1 & H2 & _).
      assert (inject_Z (Z.of_nat i) + 2 <= inject_Z (Z.of_nat (length x)))
        by (apply inject_Z_two_steps; lia).
      assert (inject_Z 0 + 1 <= inject_Z (Z.of_nat i)) by (apply inject_Z_step; lia).
      change (inject_Z 0) with 0 in *. split; lra. }
    split.
    + apply Hin. destruct (map _ _) as [|v l]; [congruence|now left].
    + apply Hin. now apply last_In.
Qed.

Lemma qmin_lower_bound (l : list Q) (v : Q) : In v l -> qmin l <= v.
Proof.
  destruct l as [|a l]; [intros []|]. cbn [qmin].
  assert (G : forall l m, fold_left (fun m v => if Qlt_bool v m then v else m) l m <= m
                          /\ forall v, In v l ->
                                       fold_left (fun m v => if Qlt_bool v m then v else m) l m <= v).
  { clear. induction l as [|b l IH]; intros m; cbn [fold_left].
    - split; [lra|intros v []].
    - destruct (Qlt_bool b m) eqn:E.
      + apply Qlt_bool_iff in E. destruct (IH b) as [H1 H2]. split; [lra|].
        intros v [<-|Hv]; auto.
      + apply Qlt_bool_false_iff in E. destruct (IH m) as [H1 H2]. split; [lra|].
        intros v [<-|Hv]; auto. lra. }
  destruct (G l a) as [G1 G2]. intros [<-|Hv]; auto.
Qed.

Lemma qmax_upper_bound (l : list Q) (v : Q) : In v l -> v <= qmax l.
Proof.
  destruct l as [|a l]; [intros []|]. cbn [qmax].
  assert (G : forall l m, m <= fold_left (fun m v => if Qlt_bool m v then v else m) l m
                          /\ forall v, In v l ->
                                       v <= fold_left (fun m v => if Qlt_bool m v then v else m) l m).
  { clear. induction l as [|b l IH]; intros m; cbn [fold_left].
    - split; [lra|intros v []].
    - destruct (Qlt_bool m b) eqn:E.
      + apply Qlt_bool_iff in E. destruct (IH b) as [H1 H2]. split; [lra|].
        intros v [<-|Hv]; auto.
      + apply Qlt_bool_false_iff in E. destruct (IH m) as [H1 H2]. split; [lra|].
        intros v [<-|Hv]; auto. lra. }
  destruct (G l a) as [G1 G2]. intros [<-|Hv]; auto.
Qed.

Lemma get_padded_extrema_eq (fuel : nat) (x : signal) (mode : string) (o : extrema_opts) :
  valid_extrema_mode mode = true ->
  get_padded_extrema fuel x mode o
  = let '(max_locs, max_ext) := detected_extrema x mode (parabolic_extrema o) in
    if (length max_locs <=? 1)%nat then Ok None
    else
      let pad_width := if (Z.of_nat (length max_locs) <? pad_width o)%Z
                       then Z.of_nat (length max_locs) else pad_width o in
      if (pad_width =? 0)%Z then Ok (Some (max_locs, max_ext))
      else if (pad_width <? 0)%Z then Raise (ValueError "index can't contain negative values")
      else
        let w := Z.to_nat pad_width in
        ret_max_locs <- np_pad max_locs w (loc_pad_mode o) ;;
        ret_max_ext <- np_pad max_ext w (mag_pad_mode o) ;;
        r <- keep_padding fuel (length x) w (loc_pad_mode o) (mag_pad_mode o)
                          ret_max_locs ret_max_ext ;;
        Ok (Some r).
Proof.
  unfold valid_extrema_mode, get_padded_extrema, detected_extrema. intros Hv.
  destruct (String.eqb mode "peaks"); [reflexivity|].
  destruct (String.eqb mode "troughs").
  - destruct (_find_extrema (vneg x) (parabolic_extrema o)); reflexivity.
  - cbn [orb] in Hv. rewrite Hv. reflexivity.
Qed.

Lemma detected_extrema_spaced (x : signal) (mode : string) (pe : bool) :
  let locs := fst (detected_extrema x mode pe) in
  let mags := snd (detected_extrema x mode pe) in
  spaced locs /\ length mags = length locs
  /\ (locs <> [] -> hd 0 locs + 1 <= inject_Z (Z.of_nat (length x)) /\ 0 <= last locs 0).
Proof.
  unfold detected_extrema.
  destruct (String.eqb mode "peaks"); [|destruct (String.eqb mode "troughs")]; cbn zeta.
  - destruct (find_extrema_spaced x pe) as [H1 H2].
    destruct (find_extrema_locations x pe) as [_ H3]. auto.
  - destruct (find_extrema_spaced (vneg x) pe) as [H1 H2].
    destruct (find_extrema_locations (vneg x) pe) as [_ H3].
    destruct (_find_extrema (vneg x) pe) as [locs mags]. cbn [fst snd] in *.
    unfold vneg in *. rewrite length_map in *. auto.
  - destruct (find_extrema_spaced (vabs x) pe) as [H1 H2].
    destruct (find_extrema_locations (vabs x) pe) as [_ H3].
    unfold vabs in *. rewrite length_map in *. auto.
Qed.

Lemma find_extrema_nonneg (x : signal) (pe : bool) (v : Q) :
  In v (fst (_find_extrema x pe)) -> 0 <= v.
Proof.
  destruct (find_extrema_locations x pe) as [-> _].
  change (argrelextrema_greater x) with (filter (is_peak x) (seq 0 (length x))).
  intros Hv. apply in_map_iff in Hv as (i & <- & Hi). apply filter_In in Hi as [_ Hi].
  destruct (location_of_near x pe i Hi) as [L _].
  destruct (is_peak_interior x i Hi) as (H1 & _).
  assert (inject_Z 0 + 1 <= inject_Z (Z.of_nat i)) by (apply inject_Z_step; lia).
  change (inject_Z 0) with 0 in *. lra.
Qed.

Lemma detected_extrema_nonneg (x : signal) (mode : string) (pe : bool) (v : Q) :
  In v (fst (detected_extrema x mode pe)) -> 0 <= v.
Proof.
  unfold detected_extrema.
  destruct (String.eqb mode "peaks"); [|destruct (String.eqb mode "troughs")].
  - apply find_extrema_nonneg.
  - pose proof (find_extrema_nonneg (vneg x) pe v) as H.
    destruct (_find_extrema (vneg x) pe). exact H.
  - apply find_extrema_nonneg.
Qed.

Lemma qmin_In (l : list Q) : l <> [] -> In (qmin l) l.
Proof.
  destruct l as [|a l]; [congruence|]. intros _. cbn [qmin].
  assert (G : forall l m, fold_left (fun m v => if Qlt_bool v m then v else m) l m = m
                          \/ In (fold_left (fun m v => if Qlt_bool v m then v else m) l m) l).
  { clear. induction l as [|b l IH]; intros m; cbn [fold_left]; [now left|].
    destruct (Qlt_bool b m).
    - destruct (IH b) as [->|H]; right; [now left|now right].
    - destruct (IH m) as [->|H]; [now left|right; now right]. }
  destruct (G l a) as [->|H]; [now left|now right].
Qed.

Lemma keep_padding_edge_diverges (fuel : nat) :
  forall (n w : nat) (mm : pad_mode) (locs mags : list Q),
    locs <> [] -> (forall v, In v locs -> 0 <= v) -> mags <> [] ->
    keep_padding fuel n w edge mm locs mags = OutOfFuel.
Proof.
  induction fuel as [|fuel IH]; intros n w mm locs mags Hne Hpos Hm; [reflexivity|].
  cbn [keep_padding].
  assert (C : Qle_bool 0 (qmin locs) = true)
    by (apply Qle_bool_iff, Hpos, qmin_In, Hne).
  rewrite C, orb_true_r.
  assert (E : np_pad locs w edge = Ok (pad_edges locs w))
    by (destruct locs as [|a [|b l]]; [congruence|reflexivity|reflexivity]).
  rewrite E. cbn [bind].
  destruct (np_pad_nonempty mags w mm Hm) as (m1 & -> & Hm1). cbn [bind].
  apply IH; [| |exact Hm1].
  - unfold pad_edges. intros E'. apply app_eq_nil in E' as [_ E'].
    apply app_eq_nil in E' as [E' _]. congruence.
  - unfold pad_edges. intros v Hv.
    apply in_app_or in Hv as [Hv|Hv]; [|apply in_app_or in Hv as [Hv|Hv]].
    + apply repeat_spec in Hv as ->. apply Hpos.
      destruct locs; [congruence|now left].
    + now apply Hpos.
    + apply repeat_spec in Hv as ->. apply Hpos. now apply last_In.
Qed.

(** The limit of C7: under the [edge] policy for locations, which repeats the
    outermost extremum, the padded locations never go below 0 and the loop
    never ends, whatever the signal with 2 detected extrema. *)
Lemma edge_policy_never_covers (fuel : nat) (x : signal) (mode : string) (o : extrema_opts) :
  valid_extrema_mode mode = true ->
  loc_pad_mode o = edge ->
  (1 <= pad_width o)%Z ->
  (2 <= length (fst (detected_extrema x mode (parabolic_extrema o))))%nat ->
  get_padded_extrema fuel x mode o = OutOfFuel.
Proof.
  intros Hv Hlm Hw Hdet.
  rewrite get_padded_extrema_eq by assumption. rewrite Hlm.
  destruct (detected_extrema_spaced x mode (parabolic_extrema o)) as (_ & Hl & _).
  pose proof (detected_extrema_nonneg x mode (parabolic_extrema o)) as Hpos.
  destruct (detected_extrema x mode (parabolic_extrema o)) as [ml me]. cbn [fst snd] in *.
  destruct (Nat.leb_spec (length ml) 1) as [|_]; [lia|].
  set (pw := if (Z.of_nat (length ml) <? pad_width o)%Z
             then Z.of_nat (length ml) else pad_width o).
  assert (Hpw : (1 <= pw)%Z) by (unfold pw; destruct (_ <? _)%Z; lia).
  destruct (Z.eqb_spec pw 0) as [|_]; [lia|].
  destruct (Z.ltb_spec pw 0) as [|_]; [lia|].
  assert (Hne : ml <> []) by (destruct ml; [cbn in Hdet; lia|discriminate]).
  assert (Hme : me <> []) by (destruct me; [cbn in Hl; lia|discriminate]).
  assert (E : np_pad ml (Z.to_nat pw) edge = Ok (pad_edges ml (Z.to_nat pw)))
    by (destruct ml as [|a [|b l]]; [congruence|reflexivity|reflexivity]).
  rewrite E. cbn [bind].
  destruct (np_pad_nonempty me (Z.to_nat pw) (mag_pad_mode o) Hme) as (m1 & -> & Hm1).
  cbn [bind]. rewrite keep_padding_edge_diverges; [reflexivity| | |exact Hm1].
  - unfold pad_edges. intros E'. apply app_eq_nil in E' as [_ E'].
    apply app_eq_nil in E' as [E' _]. congruence.
  - unfold pad_edges. intros v Hin.
    apply in_app_or in Hin as [Hin|Hin]; [|apply in_app_or in Hin as [Hin|Hin]].
    + apply repeat_spec in Hin as ->. apply Hpos. destruct ml; [congruence|now left].
    + now apply Hpos.
    + apply repeat_spec in Hin as ->. apply Hpos. now apply last_In.
Qed.

(** C6, amended. Whenever [get_padded_extrema] returns locations for a pad
    width other than zero, the smallest returned location is below 0 and the
    largest is at least the length of the signal. *)
Theorem padded_locations_cover_signal (fuel : nat) (x : signal) (mode : string)
        (o : extrema_opts) (locs mags : list Q) :
  pad_width o <> 0%Z ->
  get_padded_extrema fuel x mode o = Ok (Some (locs, mags)) ->
  qmin locs < 0 /\ inject_Z (Z.of_nat (length x)) <= qmax locs.
Proof.
  intros Hw H. unfold get_padded_extrema in H.
  destruct (if String.eqb mode "peaks" then _ else _) as [[ml me]| |]; try discriminate.
  cbn [bind] in H.
  destruct (Nat.leb_spec (length ml) 1) as [|Hlen]; [discriminate|].
  destruct (Z.eqb_spec (if (Z.of_nat (length ml) <? pad_width o)%Z
                        then Z.of_nat (length ml) else pad_width o) 0) as [E|_].
  { destruct (Z.of_nat (length ml) <? pad_width o)%Z; lia. }
  destruct (_ <? 0)%Z; [discriminate|].
  destruct (np_pad ml _ _) as [l1| |]; try discriminate.
  destruct (np_pad me _ _) as [m1| |]; try discriminate.
  cbn [bind] in H.
  destruct (keep_padding _ _ _ _ _ _ _) as [[l' m']| |] eqn:K; try discriminate.
  cbn [bind] in H. injection H as <- <-.
  exact (keep_padding_covered _ _ _ _ _ _ _ _ _ K).
Qed.


(** ** Mask sift *)

Lemma mapM_length {A B : Type} (f : A -> outcome B) (l : list A) (res : list B) :
  mapM f l = Ok res -> length res = length l.
Proof.
  revert res. induction l as [|a l IH]; intros res H; cbn [mapM] in H.
  - now injection H as <-.
  - destruct (f a); try discriminate. cbn [bind] in H.
    destruct (mapM f l); try discriminate. cbn [bind] in H.
    injection H as <-. cbn. f_equal. now apply IH.
Qed.

Lemma mapM_result {A B : Type} (f : A -> outcome B) (l : list A) (res : list B) :
  mapM f l = Ok res ->
  (forall r, In r res -> exists a, In a l /\ f a = Ok r)
  /\ (forall a, In a l -> exists r, In r res /\ f a = Ok r).
Proof.
  revert res. induction l as [|a l IH]; intros res H; cbn [mapM] in H.
  - injection H as <-. split; intros ? [].
  - destruct (f a) as [b| |] eqn:E; try discriminate. cbn [bind] in H.
    destruct (mapM f l) as [bs| |]; try discriminate. cbn [bind] in H.
    injection H as <-. destruct (IH bs eq_refl) as [H1 H2]. split.
    + intros r [<-|Hr]; [exists a; split; [now left|exact E]|].
      destruct (H1 r Hr) as (a' & Ha' & Hf). exists a'. split; [now right|exact Hf].
    + intros a' [<-|Ha']; [exists b; split; [now left|exact E]|].
      destruct (H2 a' Ha') as (r & Hr & Hf). exists r. split; [now right|exact Hf].
Qed.

(** Whenever [get_next_imf_mask] returns, there is at least one phase, every
    phase's refinement returned, and the flag is the disjunction of theirs. *)
Lemma mask_flag_when_returned (fuel : nat) (x : signal) (z amp : Q)
        (nphases : nat) (io : option imf_opts) (eo : envelope_opts)
        (xo : option extrema_opts) (imf : signal) (flag : bool) :
  let imf_opts := match io with Some o => o | None => default_imf_opts end in
  let masked ii := vadd x (mask_column (length x) z amp nphases ii) in
  get_next_imf_mask fuel x z amp nphases io eo xo = Ok (imf, flag) ->
  (1 <= nphases)%nat
  /\ (forall ii, (ii < nphases)%nat ->
                 exists r, get_next_imf fuel (masked ii) imf_opts eo xo = Ok r)
  /\ (flag = true <->
      exists ii p, (ii < nphases)%nat
                   /\ get_next_imf fuel (masked ii) imf_opts eo xo = Ok (p, true)).
Proof.
  intros imf_opts masked H. unfold get_next_imf_mask in H. fold imf_opts in H.
  rewrite map_map in H. fold masked in H.
  destruct (mapM _ _) as [res| |] eqn:M; try discriminate. cbn [bind] in H.
  pose proof (mapM_length _ _ _ M) as Hlen. rewrite length_map, length_seq in Hlen.
  destruct (mapM_result _ _ _ M) as [Hres Harg].
  destruct (map fst res) eqn:E; [discriminate|].
  injection H as _ <-. split; [|split].
  - destruct res; [discriminate|]. cbn in Hlen. lia.
  - intros ii Hii. destruct (Harg (masked ii)) as (r & _ & Hr).
    + apply in_map. apply in_seq. lia.
    + now exists r.
  - rewrite existsb_exists. split.
    + intros (b & Hb & ->). apply in_map_iff in Hb as ([p b] & Hb & Hr). cbn in Hb. subst b.
      destruct (Hres _ Hr) as (a & Ha & Hf). apply in_map_iff in Ha as (ii & <- & Hii).
      apply in_seq in Hii. exists ii, p. split; [lia|exact Hf].
    + intros (ii & p & Hii & Hf). exists true. split; [|reflexivity].
      destruct (Harg (masked ii)) as (r & Hr & Hr').
      * apply in_map. apply in_seq. lia.
      * rewrite Hf in Hr'. injection Hr' as <-.
        apply in_map_iff. exists (p, true). split; [reflexivity|exact Hr].
Qed.

Lemma mapM_total {A B : Type} (f : A -> outcome B) (l : list A) :
  (forall a, In a l -> exists b, f a = Ok b) -> exists bs, mapM f l = Ok bs.
Proof.
  induction l as [|a l IH]; intros H; [now exists []|].
  destruct (H a (or_introl eq_refl)) as [b Hb].
  destruct IH as [bs Hbs]; [intros a' Ha'; apply H; now right|].
  exists (b :: bs). cbn [mapM]. now rewrite Hb, Hbs.
Qed.

(** C10. For every input and every [nphases >= 1], when the refinements of
    the [nphases] masked signals all return, [get_next_imf_mask] returns, and
    the continue flag it returns is true exactly when the refinement of at
    least one masked signal returned a true continue flag. *)
Theorem mask_continue_flag_is_disjunction (fuel : nat) (x : signal) (z amp : Q)
        (nphases : nat) (io : option imf_opts) (eo : envelope_opts)
        (xo : option extrema_opts) :
  let imf_opts := match io with Some o => o | None => default_imf_opts end in
  let masked ii := vadd x (mask_column (length x) z amp nphases ii) in
  (1 <= nphases)%nat ->
  (forall ii, (ii < nphases)%nat ->
              exists r, get_next_imf fuel (masked ii) imf_opts eo xo = Ok r) ->
  exists imf flag,
    get_next_imf_mask fuel x z amp nphases io eo xo = Ok (imf, flag)
    /\ (flag = true <->
        exists ii p, (ii < nphases)%nat
                     /\ get_next_imf fuel (masked ii) imf_opts eo xo = Ok (p, true)).
Proof.
  intros imf_opts masked Hn Hall.
  assert (Hret : exists r, get_next_imf_mask fuel x z amp nphases io eo xo = Ok r).
  { unfold get_next_imf_mask. fold imf_opts. rewrite map_map. fold masked.
    destruct (mapM_total (fun a => get_next_imf fuel a imf_opts eo xo)
                         (map masked (seq 0 nphases))) as [res Hres].
    { intros a Ha. apply in_map_iff in Ha as (ii & <- & Hii). apply in_seq in Hii.
      apply Hall. lia. }
    rewrite Hres. cbn [bind].
    pose proof (mapM_length _ _ _ Hres) as Hlen. rewrite length_map, length_seq in Hlen.
    destruct res as [|r res]; [cbn in Hlen; lia|]. cbn [map]. eexists. reflexivity. }
  destruct Hret as [[imf flag] Hret]. exists imf, flag. split; [exact Hret|].
  now destruct (mask_flag_when_returned fuel x z amp nphases io eo xo imf flag Hret)
    as (_ & _ & H).
Qed.

Lemma get_mask_freqs_not_positive (fuel : nat) (x : signal) (f : Q) (io : option imf_opts) :
  f <= 0 ->
  get_mask_freqs fuel x (mode_freq f) io
  = Raise (ValueError "The frequency of the first mask must be 0<x<.5").
Proof.
  intros Hf. unfold get_mask_freqs.
  replace (Qlt_bool f (1#2)) with true by (symmetry; apply Qlt_bool_iff; lra).
  replace (Qle_bool f 0) with true by (symmetry; now apply Qle_bool_iff).
  reflexivity.
Qed.

Lemma get_mask_freqs_half_or_more (fuel : nat) (x : signal) (f : Q) (io : option imf_opts) :
  1#2 <= f ->
  get_mask_freqs fuel x (mode_freq f) io = Raise (UnboundLocalError "z").
Proof.
  intros Hf. unfold get_mask_freqs.
  replace (Qlt_bool f (1#2)) with false by (symmetry; now apply Qlt_bool_false_iff).
  reflexivity.
Qed.

Lemma get_mask_freqs_in_range (fuel : nat) (x : signal) (f : Q) (io : option imf_opts) :
  0 < f -> f < 1#2 ->
  get_mask_freqs fuel x (mode_freq f) io = Ok f.
Proof.
  intros H0 H1. unfold get_mask_freqs.
  replace (Qlt_bool f (1#2)) with true by (symmetry; now apply Qlt_bool_iff).
  replace (Qle_bool f 0) with false.
  replace (Qle_bool (1#2) f) with false.
  - reflexivity.
  - symmetry. destruct (Qle_bool (1#2) f) eqn:E; [|reflexivity].
    apply Qle_bool_iff in E. lra.
  - symmetry. destruct (Qle_bool f 0) eqn:E; [|reflexivity].
    apply Qle_bool_iff in E. lra.
Qed.

(** C8, on the code. A first mask frequency of 0.7, outside (0, 0.5) on the
    upper side, makes [get_mask_freqs], and [mask_sift] through it, fail with
    the unbound local variable [z]: the test [first_mask_mode < .5] skips the
    branch that holds the range check and its [ValueError], before any sift
    computation. *)
Theorem first_mask_frequency_above_range (fuel : nat) (x : signal) (io : option imf_opts)
        (c : mask_opts) :
  get_mask_freqs fuel x (mode_freq (7#10)) io = Raise (UnboundLocalError "z")
  /\ mask_sift fuel x (with_mask_freqs c (freqs_float (7#10)))
     = Raise (UnboundLocalError "z").
Proof.
  split; [reflexivity|]. unfold mask_sift. cbn [mask_freqs with_mask_freqs].
  reflexivity.
Qed.

(** ** The consensus step of the ensemble sift *)

Lemma mapM_ok_map {A B : Type} (f : A -> outcome B) (g : A -> B) (l : list A) :
  (forall a, In a l -> f a = Ok (g a)) -> mapM f l = Ok (map g l).
Proof.
  induction l as [|a l IH]; intros H; [reflexivity|].
  cbn [mapM map]. rewrite (H a (or_introl eq_refl)). cbn [bind].
  rewrite IH by (intros b Hb; apply H; now right). reflexivity.
Qed.

Lemma mapM_raise {A B : Type} (f : A -> outcome B) (g : A -> B) (l1 l2 : list A)
      (a : A) (e : exn) :
  (forall b, In b l1 -> f b = Ok (g b)) -> f a = Raise e ->
  mapM f (l1 ++ a :: l2) = Raise e.
Proof.
  intros H Ha. induction l1 as [|b l1 IH]; cbn [app mapM].
  - now rewrite Ha.
  - rewrite (H b (or_introl eq_refl)). cbn [bind].
    rewrite IH by (intros b' Hb'; apply H; now right). reflexivity.
Qed.

Lemma argmax_from_bound (l : list nat) :
  forall i best_i best, (best_i < i)%nat -> (argmax_from l i best_i best < i + length l)%nat.
Proof.
  induction l as [|v l IH]; intros i best_i best H; cbn [argmax_from length]; [lia|].
  destruct (best <? v)%nat.
  - specialize (IH (S i) i v). lia.
  - specialize (IH (S i) best_i best). lia.
Qed.

Lemma np_argmax_bound (l : list nat) : l <> [] -> (np_argmax l < length l)%nat.
Proof.
  destruct l as [|v l]; [congruence|]. intros _. cbn [np_argmax length].
  pose proof (argmax_from_bound l 1 0 v). lia.
Qed.

Lemma np_unique_In (l : list nat) (v : nat) : In v (np_unique l) <-> In v l.
Proof.
  unfold np_unique. rewrite filter_In, existsb_exists. split.
  - intros [_ (w & Hw & E)]. apply Nat.eqb_eq in E. now subst.
  - intros H. split.
    + apply in_seq. pose proof (list_max_le l (list_max l)) as [Hle _].
      specialize (Hle (Nat.le_refl _)). rewrite Forall_forall in Hle.
      specialize (Hle v H). lia.
    + exists v. split; [exact H|apply Nat.eqb_refl].
Qed.

Lemma majority_group_nonempty (res : list matrix) : res <> [] -> majority_group res <> [].
Proof.
  intros Hres. unfold majority_group.
  assert (Hin : In (majority_imf_count res) (map (@length signal) res)).
  { unfold majority_imf_count. apply np_unique_In. apply nth_In.
    rewrite <- (length_map (fun v => count_of v (map (@length signal) res))).
    apply np_argmax_bound. intros E. apply map_eq_nil in E.
    destruct res as [|r res]; [congruence|].
    assert (In (length r) (np_unique (map (@length signal) (r :: res))))
      by (apply np_unique_In; now left).
    rewrite E in H. destruct H. }
  apply in_map_iff in Hin as (r & Hr & Hin).
  intros E. assert (Hf : In r (filter (fun r => (length r =? majority_imf_count res)%nat) res)).
  { apply filter_In. split; [exact Hin|]. now apply Nat.eqb_eq. }
  rewrite E in Hf. destruct Hf.
Qed.

Lemma ensemble_average_unfold (n : nat) (max_imfs : option Z) (r0 : matrix)
      (rest : list matrix) :
  let res := r0 :: rest in
  let m := match max_imfs with Some m => m | None => Z.of_nat (length r0) end in
  (0 <= m)%Z ->
  ensemble_average n max_imfs res
  = mapM (fun ii =>
            cols <- mapM (fun r => match nth_error r ii with
                                   | Some col => Ok col
                                   | None => Raise IndexError
                                   end) (majority_group res) ;;
            Ok (mean_axis0 n cols))
         (seq 0 (Z.to_nat m)).
Proof.
  intros res m Hm. unfold ensemble_average.
  assert (E : match max_imfs with
              | Some m => Ok m
              | None => match res with
                        | r0 :: _ => Ok (Z.of_nat (length r0))
                        | [] => Raise IndexError
                        end
              end = Ok m) by (unfold m; destruct max_imfs; reflexivity).
  rewrite E. cbn [bind]. unfold res at 1. cbn [map].
  destruct (Z.ltb_spec m 0) as [|_]; [lia|]. reflexivity.
Qed.

Lemma majority_layer (n : nat) (res : list matrix) (ii : nat) :
  (ii < majority_imf_count res)%nat ->
  (cols <- mapM (fun r => match nth_error r ii with
                          | Some col => Ok col
                          | None => Raise IndexError
                          end) (majority_group res) ;;
   Ok (mean_axis0 n cols))
  = Ok (mean_axis0 n (map (fun r => nth ii r []) (majority_group res))).
Proof.
  intros Hii.
  rewrite (@mapM_ok_map (list signal) signal _ (fun r => nth ii r [])); [reflexivity|].
  intros r Hr. apply filter_In in Hr as [_ Hr]. apply Nat.eqb_eq in Hr.
  destruct (nth_error r ii) as [col|] eqn:E.
  - now rewrite (nth_error_nth _ _ _ E).
  - apply nth_error_None in E. lia.
Qed.

(** What the consensus step does when it returns: the first [max_imfs]
    layers, each the pointwise mean over the majority group. *)
Lemma ensemble_average_within (n : nat) (max_imfs : option Z) (r0 : matrix)
      (rest : list matrix) :
  let res := r0 :: rest in
  let m := match max_imfs with Some m => m | None => Z.of_nat (length r0) end in
  (0 <= m <= Z.of_nat (majority_imf_count res))%Z ->
  ensemble_average n max_imfs res
  = Ok (map (fun ii => mean_axis0 n (map (fun r => nth ii r []) (majority_group res)))
            (seq 0 (Z.to_nat m))).
Proof.
  intros res m Hm. unfold res, m. rewrite ensemble_average_unfold by (fold m; lia).
  apply (@mapM_ok_map nat signal). intros ii Hii. apply in_seq in Hii.
  apply majority_layer. fold res m. lia.
Qed.

(** C2, on the code. The consensus step of [ensemble_sift] loops over
    [range(max_imfs)], where [max_imfs] is the caller's cap or, without one,
    the IMF count of the first realization; whenever that bound exceeds the
    IMF count of the majority group, indexing the first layer beyond it raises
    [IndexError] and no average is returned. *)
Theorem ensemble_average_index_error (n : nat) (max_imfs : option Z) (r0 : matrix)
        (rest : list matrix) :
  let res := r0 :: rest in
  let m := match max_imfs with Some m => m | None => Z.of_nat (length r0) end in
  (Z.of_nat (majority_imf_count res) < m)%Z ->
  ensemble_average n max_imfs res = Raise IndexError.
Proof.
  intros res m Hm. unfold res, m. rewrite ensemble_average_unfold by (fold m; lia).
  fold res m. set (t := majority_imf_count res) in *.
  replace (Z.to_nat m) with (t + S (Z.to_nat m - S t))%nat by lia.
  rewrite seq_app. cbn [seq Nat.add].
  apply mapM_raise
    with (g := fun ii => mean_axis0 n (map (fun r => nth ii r []) (majority_group res))).
  - intros ii Hii. apply in_seq in Hii. apply majority_layer. fold t. lia.
  - pose proof (majority_group_nonempty res ltac:(discriminate)) as Hne.
    destruct (majority_group res) as [|r kept] eqn:E; [congruence|].
    assert (Hr : In r (majority_group res)) by (rewrite E; now left).
    apply filter_In in Hr as [_ Hr]. apply Nat.eqb_eq in Hr. fold t in Hr.
    cbn [mapM]. assert (N : nth_error r t = None) by (apply nth_error_None; lia).
    rewrite N. reflexivity.
Qed.

(** ** Randomness of the ensemble sifts *)

Lemma rret_draws_nothing {A : Type} (c : outcome A) : draws_nothing (rret c).
Proof. intros w w'. split; reflexivity. Qed.

Lemma rbind_draws_nothing {A B : Type} (c : rand A) (k : A -> rand B) :
  draws_nothing c -> (forall a, draws_nothing (k a)) -> draws_nothing (rbind c k).
Proof.
  intros Hc Hk w w'. unfold rbind.
  destruct (Hc w w') as [H1 H2]. destruct (Hc w' w) as [_ H3].
  destruct (c w) as [r u], (c w') as [r' u']. cbn [fst snd] in *. subst.
  destruct r' as [a| |]; [apply Hk|split; reflexivity|split; reflexivity].
Qed.

Lemma starmap_draws_nothing {A B : Type} (f : A -> rand B) (l : list A) :
  (forall a, draws_nothing (f a)) -> draws_nothing (starmap f l).
Proof.
  intros Hf. induction l as [|a l IH]; cbn [starmap].
  - apply rret_draws_nothing.
  - apply rbind_draws_nothing; [apply Hf|]. intros b.
    apply rbind_draws_nothing; [exact IH|]. intros bs. apply rret_draws_nothing.
Qed.

Lemma sift_with_noise_seeded (fuel : nat) (x : signal) (noise_scaling : option Q)
      (mode : string) (c : sift_opts) (s : Z) :
  draws_nothing (_sift_with_noise fuel x noise_scaling mode c (Some s)).
Proof. intros w w'. split; reflexivity. Qed.

(** The part of C3 that holds: with an integer seed, [ensemble_sift] reads
    neither the global generator nor the entropy pool, so two runs with the
    same seed and configuration return the same outcome. *)
Lemma ensemble_sift_reproducible (fuel : nat) (x : signal) (e : ensemble_opts) (s : Z) :
  draws_nothing (ensemble_sift fuel x e (Some s)).
Proof.
  unfold ensemble_sift.
  destruct (negb _); [apply rret_draws_nothing|].
  apply rbind_draws_nothing; [intros w w'; split; reflexivity|]. intros s'.
  apply rbind_draws_nothing.
  - apply starmap_draws_nothing. intros ii. apply sift_with_noise_seeded.
  - intros res. apply rret_draws_nothing.
Qed.

(** [complete_ensemble_sift] never reads its [seed]. *)
Lemma complete_ensemble_sift_ignores_seed (fuel : nat) (x : signal) (e : ensemble_opts)
      (s s' : option Z) :
  complete_ensemble_sift fuel x e s = complete_ensemble_sift fuel x e s'.
Proof. reflexivity. Qed.

(** ** Further properties of the extrema detector and of the padder *)

Lemma find_extrema_interior (x : signal) (pe : bool) (v : Q) :
  In v (fst (_find_extrema x pe)) ->
  1#2 <= v /\ v + (3#2) <= inject_Z (Z.of_nat (length x)).
Proof.
  destruct (find_extrema_locations x pe) as [-> _].
  change (argrelextrema_greater x) with (filter (is_peak x) (seq 0 (length x))).
  intros Hv. apply in_map_iff in Hv as (i & <- & Hi). apply filter_In in Hi as [_ Hi].
  destruct (location_of_near x pe i Hi) as [L U].
  destruct (is_peak_interior x i Hi) as (H1 & H2 & _).
  assert (inject_Z 0 + 1 <= inject_Z (Z.of_nat i)) by (apply inject_Z_step; lia).
  assert (inject_Z (Z.of_nat i) + 2 <= inject_Z (Z.of_nat (length x)))
    by (apply inject_Z_two_steps; lia).
  change (inject_Z 0) with 0 in *. split; lra.
Qed.

(** The extrema detector, with or without parabolic refinement, returns as
    many magnitudes as locations; the locations increase by at least one
    sample from each to the next, and all lie strictly between the first and
    the last sample of the signal. *)
Theorem find_extrema_increasing_interior (x : signal) (pe : bool) :
  let locs := fst (_find_extrema x pe) in
  let mags := snd (_find_extrema x pe) in
  length mags = length locs
  /\ spaced locs
  /\ (forall v, In v locs -> 0 < v /\ v < inject_Z (Z.of_nat (length x)) - 1).
Proof.
  cbn zeta. destruct (find_extrema_locations x pe) as [_ Hlen].
  destruct (find_extrema_spaced x pe) as [Hs _].
  split; [exact Hlen|]. split; [exact Hs|].
  intros v Hv. destruct (find_extrema_interior x pe v Hv). split; lra.
Qed.

Lemma parabolic_magnitude_above (y0 y1 y2 loc : Q) :
  y0 < y1 -> y2 < y1 -> y1 <= snd (parabolic_extremum y0 y1 y2 loc).
Proof.
  intros H0 H2. unfold parabolic_extremum. cbn [snd].
  set (a := (1#2) * y0 - y1 + (1#2) * y2).
  set (b := - (5#2) * y0 + 4 * y1 - (3#2) * y2).
  set (c := 3 * y0 - 3 * y1 + y2).
  assert (Ha : a < 0) by (unfold a; lra).
  assert (Hy : y1 == 4 * a + 2 * b + c) by (unfold a, b, c; ring).
  assert (E : - b / (2 * a) * b / 2 + c - y1 == (b + 4 * a) * (b + 4 * a) * / (- (4 * a))).
  { rewrite Hy. field. lra. }
  assert (P : 0 <= (b + 4 * a) * (b + 4 * a) * / (- (4 * a))).
  { apply Qmult_le_0_compat.
    - destruct (Qlt_le_dec (b + 4 * a) 0) as [N|N].
      + setoid_replace ((b + 4 * a) * (b + 4 * a)) with ((- (b + 4 * a)) * (- (b + 4 * a)))
          by ring.
        apply Qmult_le_0_compat; lra.
      + apply Qmult_le_0_compat; lra.
    - apply Qinv_le_0_compat. lra. }
  lra.
Qed.

(** Parabolic refinement moves each detected extremum by less than half a
    sample and never reports a magnitude below the sample at the extremum. *)
Theorem parabolic_refinement_bounds (x : signal) :
  Forall2 (fun i ty =>
             inject_Z (Z.of_nat i) - (1#2) < fst ty
             /\ fst ty < inject_Z (Z.of_nat i) + (1#2)
             /\ nth i x 0 <= snd ty)
          (argrelextrema_greater x)
          (combine (fst (_find_extrema x true)) (snd (_find_extrema x true))).
Proof.
  assert (G : forall l,
             Forall (fun i => is_peak x i = true) l ->
             Forall2 (fun i ty =>
                        inject_Z (Z.of_nat i) - (1#2) < fst ty
                        /\ fst ty < inject_Z (Z.of_nat i) + (1#2)
                        /\ nth i x 0 <= snd ty)
                     l
                     (combine (fst (compute_parabolic_extrema x l))
                              (snd (compute_parabolic_extrema x l)))).
  { intros l Hl. unfold compute_parabolic_extrema. rewrite split_map. cbn [fst snd].
    induction Hl as [|i l Hi Hl IH]; cbn [map combine]; constructor; [|exact IH].
    destruct (is_peak_interior x i Hi) as (_ & _ & H0 & H2). cbn [fst snd].
    destruct (parabolic_location_near (nth (i - 1) x 0) (nth i x 0) (nth (i + 1) x 0)
                                      (inject_Z (Z.of_nat i)) H0 H2) as [L U].
    pose proof (parabolic_magnitude_above (nth (i - 1) x 0) (nth i x 0) (nth (i + 1) x 0)
                                          (inject_Z (Z.of_nat i)) H0 H2).
    auto. }
  assert (Hall : Forall (fun i => is_peak x i = true) (argrelextrema_greater x)).
  { apply Forall_forall. intros i Hi.
    change (argrelextrema_greater x) with (filter (is_peak x) (seq 0 (length x))) in Hi.
    now apply filter_In in Hi. }
  unfold _find_extrema.
  destruct (argrelextrema_greater x) as [|i l] eqn:E; [constructor|].
  apply G. exact Hall.
Qed.

Lemma reflect_loop_full (fuel : nat) :
  forall (odd : bool) (a : list Q) (lp rp : nat),
    (2 <= length a)%nat -> (lp + rp <= fuel)%nat ->
    length (reflect_loop fuel odd a lp rp) = (length a + lp + rp)%nat.
Proof.
  induction fuel as [|fuel IH]; intros odd a lp rp Hlen Hf.
  - assert (lp = 0 /\ rp = 0)%nat as [-> ->] by lia. cbn. lia.
  - destruct (Nat.eq_dec lp 0) as [Elp|Hlp], (Nat.eq_dec rp 0) as [Erp|Hrp];
      [subst; cbn; lia| | |].
    all: assert (E : reflect_loop (S fuel) odd a lp rp
                     = reflect_loop fuel odd (fst (set_reflect_both odd a lp rp))
                                    (fst (snd (set_reflect_both odd a lp rp)))
                                    (snd (snd (set_reflect_both odd a lp rp))))
        by (destruct lp, rp; try congruence; cbn [reflect_loop];
            destruct (set_reflect_both odd _ _ _) as [a1 [l1 r1]]; reflexivity).
    all: rewrite E; clear E.
    all: assert (L : length (fst (set_reflect_both odd a lp rp))
                     = (Nat.min (length a - 1) lp + length a + Nat.min (length a - 1) rp)%nat)
        by (unfold set_reflect_both; cbn [fst]; destruct odd;
            rewrite !length_app, ?length_map, ?length_rev, !length_firstn;
            assert (length (tl a) = length a - 1)%nat by (destruct a; cbn; lia);
            assert (length (tl (rev a)) = length a - 1)%nat
              by (rewrite <- (length_rev a); destruct (rev a); cbn; lia);
            lia).
    all: rewrite IH; unfold set_reflect_both in *; cbn [fst snd] in *; lia.
Qed.

Lemma np_pad_length (a a' : list Q) (w : nat) (m : pad_mode) :
  a <> [] -> np_pad a w m = Ok a' -> length a' = (length a + w + w)%nat.
Proof.
  intros Ha H. destruct a as [|e [|e' t]]; [congruence| |].
  - cbn [np_pad] in H. injection H as <-. unfold pad_edges.
    rewrite !length_app, !repeat_length. cbn. lia.
  - destruct m as [odd| |]; cbn [np_pad] in H; injection H as <-.
    + rewrite reflect_loop_full; cbn [length]; lia.
    + unfold pad_edges. rewrite !length_app, !repeat_length. cbn [length]. lia.
    + unfold pad_edges. rewrite !length_app, !repeat_length. cbn [length]. lia.
Qed.

Lemma keep_padding_lengths (fuel : nat) :
  forall (n w : nat) (lm mm : pad_mode) (l m l' m' : list Q),
    l <> [] -> length m = length l ->
    keep_padding fuel n w lm mm l m = Ok (l', m') ->
    l' <> [] /\ length m' = length l'.
Proof.
  induction fuel as [|fuel IH]; intros n w lm mm l m l' m' Hne Hlen H; [discriminate|].
  cbn [keep_padding] in H.
  destruct (Qlt_bool _ _ || Qle_bool _ _).
  - destruct (np_pad l w lm) as [l1| |] eqn:E1; try discriminate.
    destruct (np_pad m w mm) as [m1| |] eqn:E2; try discriminate.
    cbn [bind] in H.
    assert (Hm : m <> []) by (destruct m, l; cbn in Hlen; congruence).
    pose proof (np_pad_length l l1 w lm Hne E1) as L1.
    pose proof (np_pad_length m m1 w mm Hm E2) as L2.
    apply (IH _ _ _ _ _ _ _ _) in H; auto; [|lia].
    destruct l1; [|discriminate]. destruct l; [congruence|cbn in L1; lia].
  - injection H as <- <-. auto.
Qed.

Lemma keep_padding_spaced (fuel : nat) :
  forall (n w : nat) (mm : pad_mode) (l m l' m' : list Q),
    spaced l -> (2 <= length l)%nat ->
    keep_padding fuel n w (reflect true) mm l m = Ok (l', m') ->
    spaced l' /\ (2 <= length l')%nat.
Proof.
  induction fuel as [|fuel IH]; intros n w mm l m l' m' Hs Hlen H; [discriminate|].
  cbn [keep_padding] in H.
  destruct (Qlt_bool _ _ || Qle_bool _ _).
  - assert (E : np_pad l w (reflect true) = Ok (reflect_loop (w + w) true l w w))
      by (destruct l as [|e [|e' t]]; [cbn in Hlen; lia|cbn in Hlen; lia|reflexivity]).
    rewrite E in H. cbn [bind] in H.
    destruct (np_pad m w mm) as [m1| |]; try discriminate. cbn [bind] in H.
    destruct (reflect_loop_spaced (w + w) l w w Hs Hlen) as (S1 & S2 & _).
    exact (IH _ _ _ _ _ _ _ S1 S2 H).
  - injection H as <- <-. auto.
Qed.

(** Whenever [get_padded_extrema] returns extrema, padded or not, there are
    as many magnitudes as locations, whatever the two padding policies; and
    under the odd-reflection policy for locations the returned locations
    still increase by at least one sample from each to the next. *)
Theorem padded_extrema_aligned (fuel : nat) (x : signal) (mode : string) (o : extrema_opts)
        (locs mags : list Q) :
  get_padded_extrema fuel x mode o = Ok (Some (locs, mags)) ->
  length mags = length locs
  /\ (loc_pad_mode o = reflect true -> spaced locs).
Proof.
  intros H.
  assert (Hv : valid_extrema_mode mode = true).
  { unfold get_padded_extrema, valid_extrema_mode in *.
    destruct (String.eqb mode "peaks"), (String.eqb mode "troughs"),
      (String.eqb mode "abs_peaks"); try reflexivity. discriminate. }
  rewrite get_padded_extrema_eq in H by assumption.
  destruct (detected_extrema_spaced x mode (parabolic_extrema o)) as (Hs & Hl & _).
  destruct (detected_extrema x mode (parabolic_extrema o)) as [ml me]. cbn [fst snd] in *.
  destruct (Nat.leb_spec (length ml) 1) as [|Hlen]; [discriminate|].
  destruct (_ =? 0)%Z; [injection H as <- <-; auto|].
  destruct (_ <? 0)%Z; [discriminate|].
  assert (Hne : ml <> []) by (destruct ml; [cbn in Hlen; lia|discriminate]).
  assert (Hme : me <> []) by (destruct me; [cbn in Hl; lia|discriminate]).
  destruct (np_pad ml _ _) as [l1| |] eqn:E1; try discriminate.
  destruct (np_pad me _ _) as [m1| |] eqn:E2; try discriminate.
  cbn [bind] in H.
  destruct (keep_padding _ _ _ _ _ _ _) as [[l' m']| |] eqn:K; try discriminate.
  cbn [bind] in H. injection H as <- <-.
  pose proof (np_pad_length ml l1 _ _ Hne E1) as L1.
  pose proof (np_pad_length me m1 _ _ Hme E2) as L2.
  assert (Hne1 : l1 <> []) by (destruct l1; [cbn in L1; lia|discriminate]).
  assert (L12 : length m1 = length l1) by lia.
  split.
  - apply (keep_padding_lengths _ _ _ _ _ _ _ _ _ Hne1 L12 K).
  - intros Hlm. rewrite Hlm in E1, K.
    set (w := Z.to_nat (if (Z.of_nat (length ml) <? pad_width o)%Z
                        then Z.of_nat (length ml) else pad_width o)) in *.
    assert (E : np_pad ml w (reflect true) = Ok (reflect_loop (w + w) true ml w w))
      by (destruct ml as [|e [|e' t]]; [cbn in Hlen; lia|cbn in Hlen; lia|reflexivity]).
    rewrite E in E1. injection E1 as E1.
    destruct (reflect_loop_spaced (w + w) ml w w Hs Hlen) as (S1 & S2 & _).
    rewrite E1 in S1, S2.
    apply (keep_padding_spaced _ _ _ _ _ _ _ _ S1 S2 K).
Qed.

(** ** Further properties of the envelope interpolator *)

Lemma interp_envelope_eq (fuel : nat) (x : signal) (mode : string) (eo : envelope_opts)
      (xo : option extrema_opts) :
  valid_interp_method eo = true -> valid_envelope_mode mode = true ->
  interp_envelope fuel x mode eo xo
  = (found <- get_padded_extrema fuel x (detection_mode mode) (resolve_extrema_opts xo) ;;
     match found with
     | None => Ok None
     | Some (locs, pks) =>
         let env := clipped_envelope (interp_method eo) (length x) locs pks in
         if negb (length env =? length x)%nat
         then Raise (ValueError "Envelope length does not match input data")
         else Ok (Some env)
     end).
Proof.
  unfold interp_envelope, valid_interp_method, valid_envelope_mode, detection_mode,
    resolve_extrema_opts, clipped_envelope.
  intros -> Hm. cbn [negb].
  destruct (String.eqb mode "upper"); [reflexivity|].
  destruct (String.eqb mode "lower"); [reflexivity|].
  cbn [orb] in Hm. rewrite Hm. reflexivity.
Qed.

Lemma Qceiling_le_iff (y : Q) (m : Z) : y <= inject_Z m <-> (Qceiling y <= m)%Z.
Proof.
  split; intros H.
  - apply Qceiling_resp_le in H. now rewrite Qceiling_Z in H.
  - apply Qle_trans with (inject_Z (Qceiling y)); [apply Qle_ceiling|].
    now rewrite <- Zle_Qle.
Qed.

Lemma inject_Z_sub (a b : Z) : inject_Z (a - b) == inject_Z a - inject_Z b.
Proof.
  unfold Z.sub. rewrite inject_Z_plus, inject_Z_opp. reflexivity.
Qed.

Lemma filter_all {A : Type} (f : A -> bool) (l : list A) :
  (forall a, In a l -> f a = true) -> filter f l = l.
Proof.
  induction l as [|a l IH]; intros H; [reflexivity|].
  cbn. rewrite (H a (or_introl eq_refl)). f_equal. apply IH. intros b Hb. apply H. now right.
Qed.

Lemma count_interval (a n m : nat) :
  (a + n <= m)%nat ->
  length (filter (fun k => (a <=? k)%nat && (k <? a + n)%nat) (seq 0 m)) = n.
Proof.
  intros H. replace m with (a + (n + (m - a - n)))%nat by lia.
  rewrite !seq_app, !filter_app, !length_app. cbn [Nat.add].
  rewrite (filter_none _ (seq 0 a)), (filter_all _ (seq a n)), (filter_none _ (seq (a + n) _)).
  - cbn [length]. rewrite length_seq. lia.
  - intros k Hk. apply in_seq in Hk.
    replace (k <? a + n)%nat with false by (symmetry; apply Nat.ltb_ge; lia).
    apply andb_false_r.
  - intros k Hk. apply in_seq in Hk. apply andb_true_iff.
    split; [apply Nat.leb_le|apply Nat.ltb_lt]; lia.
  - intros k Hk. apply in_seq in Hk.
    replace (a <=? k)%nat with false by (symmetry; apply Nat.leb_gt; lia). reflexivity.
Qed.

Lemma filter_ext_in_bool {A : Type} (f g : A -> bool) (l : list A) :
  (forall a, In a l -> f a = g a) -> filter f l = filter g l.
Proof.
  induction l as [|a l IH]; intros H; [reflexivity|].
  cbn. rewrite (H a (or_introl eq_refl)), IH; [reflexivity|].
  intros b Hb. apply H. now right.
Qed.

Lemma clipped_envelope_length (method : string) (n : nat) (locs pks : list Q) :
  length (clipped_envelope method n locs pks)
  = length (filter (fun k => Qle_bool 0 (hd 0 locs + inject_Z (Z.of_nat k))
                             && Qlt_bool (hd 0 locs + inject_Z (Z.of_nat k))
                                         (inject_Z (Z.of_nat n)))
                   (seq 0 (Z.to_nat (Qceiling (last locs 0 - hd 0 locs))))).
Proof.
  unfold clipped_envelope, np_arange. rewrite length_map.
  set (s := seq 0 _). clearbody s.
  induction s as [|k s IH]; [reflexivity|].
  cbn [map combine filter fst].
  destruct (Qle_bool 0 _ && Qlt_bool _ _); cbn [length]; now rewrite IH.
Qed.

(** The samples of the interpolation grid that fall inside the signal are
    exactly [n] when the locations start below 0 and end at [n] or beyond. *)
Lemma clipped_envelope_covered (method : string) (n : nat) (locs pks : list Q) :
  hd 0 locs < 0 -> inject_Z (Z.of_nat n) <= last locs 0 ->
  length (clipped_envelope method n locs pks) = n.
Proof.
  intros Hh Hl. rewrite clipped_envelope_length.
  set (h := hd 0 locs) in *. set (L := last locs 0) in *.
  set (k0 := Z.to_nat (Qceiling (- h))).
  assert (Hk0 : (0 <= Qceiling (- h))%Z).
  { assert (0 <= - h) as H0 by lra. apply Qceiling_resp_le in H0.
    change (Qceiling 0) with 0%Z in H0. exact H0. }
  rewrite filter_ext_in_bool
    with (g := fun k => (k0 <=? k)%nat && (k <? k0 + n)%nat).
  - apply count_interval.
    destruct (Nat.le_gt_cases (k0 + n) (Z.to_nat (Qceiling (L - h)))) as [|Hlt]; [assumption|].
    exfalso.
    assert (Hc : (Qceiling (L - h) <= Z.of_nat k0 + Z.of_nat n - 1)%Z) by lia.
    apply Qceiling_le_iff in Hc.
    rewrite inject_Z_sub, inject_Z_plus in Hc. change (inject_Z 1) with 1 in Hc.
    assert (Hc' : - h <= inject_Z (Z.of_nat k0 - 1)).
    { rewrite inject_Z_sub. change (inject_Z 1) with 1. lra. }
    apply Qceiling_le_iff in Hc'. unfold k0 in Hc'. lia.
  - intros k _.
    assert (E1 : Qle_bool 0 (h + inject_Z (Z.of_nat k)) = (k0 <=? k)%nat).
    { destruct (Nat.leb_spec k0 k) as [Hle|Hgt].
      - apply Qle_bool_iff.
        assert (- h <= inject_Z (Z.of_nat k)) by (apply Qceiling_le_iff; unfold k0 in Hle; lia).
        lra.
      - destruct (Qle_bool 0 (h + inject_Z (Z.of_nat k))) eqn:E; [|reflexivity].
        apply Qle_bool_iff in E.
        assert (H1 : - h <= inject_Z (Z.of_nat k)) by lra.
        apply Qceiling_le_iff in H1. unfold k0 in Hgt. lia. }
    assert (E2 : Qlt_bool (h + inject_Z (Z.of_nat k)) (inject_Z (Z.of_nat n))
                 = (k <? k0 + n)%nat).
    { destruct (Nat.ltb_spec k (k0 + n)) as [Hlt|Hge].
      - apply Qlt_bool_iff. apply Qnot_le_lt. intros Hle.
        assert (H1 : - h <= inject_Z (Z.of_nat k - Z.of_nat n)).
        { rewrite inject_Z_sub. lra. }
        apply Qceiling_le_iff in H1. unfold k0 in Hlt. lia.
      - apply Qlt_bool_false_iff.
        assert (H1 : - h <= inject_Z (Z.of_nat k - Z.of_nat n))
          by (apply Qceiling_le_iff; unfold k0 in Hge; lia).
        rewrite inject_Z_sub in H1. lra. }
    now rewrite E1, E2.
Qed.

Lemma valid_detection_mode (mode : string) : valid_extrema_mode (detection_mode mode) = true.
Proof.
  unfold detection_mode.
  destruct (String.eqb mode "upper"); [reflexivity|].
  destruct (String.eqb mode "lower"); reflexivity.
Qed.

Lemma padded_extrema_total (fuel : nat) (x : signal) (mode : string) (o : extrema_opts) :
  valid_extrema_mode mode = true ->
  loc_pad_mode o = reflect true ->
  (1 <= pad_width o)%Z ->
  (2 <= length (fst (detected_extrema x mode (parabolic_extrema o))))%nat ->
  (length x < fuel)%nat ->
  exists locs mags,
    get_padded_extrema fuel x mode o = Ok (Some (locs, mags))
    /\ hd 0 locs < 0 /\ inject_Z (Z.of_nat (length x)) <= last locs 0.
Proof.
  intros Hv Hlm Hw Hdet Hfuel.
  rewrite get_padded_extrema_eq by assumption. rewrite Hlm.
  destruct (detected_extrema_spaced x mode (parabolic_extrema o)) as (Hs & Hl & Hb).
  destruct (detected_extrema x mode (parabolic_extrema o)) as [ml me]. cbn [fst snd] in *.
  destruct (Nat.leb_spec (length ml) 1) as [|_]; [lia|].
  set (pw := if (Z.of_nat (length ml) <? pad_width o)%Z
             then Z.of_nat (length ml) else pad_width o).
  assert (Hpw : (1 <= pw)%Z) by (unfold pw; destruct (_ <? _)%Z; lia).
  destruct (Z.eqb_spec pw 0) as [|_]; [lia|].
  destruct (Z.ltb_spec pw 0) as [|_]; [lia|].
  assert (Hne : ml <> []) by (destruct ml; [cbn in Hdet; lia|discriminate]).
  destruct (Hb Hne) as [Hhd Hlast].
  destruct (np_pad_reflect_spaced ml (Z.to_nat pw) Hs Hdet ltac:(lia))
    as (l1 & -> & S1 & S2 & S3 & S4).
  assert (Hme : me <> []) by (destruct me; [cbn in Hl; lia|discriminate]).
  destruct (np_pad_nonempty me (Z.to_nat pw) (mag_pad_mode o) Hme) as (m1 & -> & Hm1).
  cbn [bind].
  destruct (keep_padding_terminates (length x) fuel (length x) (Z.to_nat pw)
                                    (mag_pad_mode o) l1 m1) as [[l' m'] K];
    auto; try lia; try lra.
  rewrite K. cbn [bind]. exists l', m'. split; [reflexivity|].
  destruct (keep_padding_spaced _ _ _ _ _ _ _ _ S1 S2 K) as [T1 T2].
  destruct (keep_padding_covered _ _ _ _ _ _ _ _ _ K) as [C1 C2].
  destruct l' as [|e t]; [cbn in T2; lia|].
  rewrite (qmin_spaced _ _ T1) in C1. rewrite (qmax_spaced _ _ T1) in C2. auto.
Qed.

(** With locations padded by odd reflection and a pad width of at least 1,
    the envelope of a signal with at least 2 extrema of the requested kind is
    always defined: [interp_envelope] returns an envelope, of exactly the
    length of the signal, and its length-mismatch error cannot occur. *)
Theorem envelope_defined_on_whole_signal (fuel : nat) (x : signal) (mode : string)
        (eo : envelope_opts) (xo : option extrema_opts) :
  let o := resolve_extrema_opts xo in
  valid_interp_method eo = true ->
  valid_envelope_mode mode = true ->
  loc_pad_mode o = reflect true ->
  (1 <= pad_width o)%Z ->
  (2 <= length (fst (detected_extrema x (detection_mode mode) (parabolic_extrema o))))%nat ->
  (length x < fuel)%nat ->
  exists env, interp_envelope fuel x mode eo xo = Ok (Some env) /\ length env = length x.
Proof.
  intros o Hm Hmode Hlm Hw Hdet Hfuel.
  rewrite interp_envelope_eq by assumption. fold o.
  destruct (padded_extrema_total fuel x (detection_mode mode) o (valid_detection_mode mode)
                                 Hlm Hw Hdet Hfuel) as (locs & mags & -> & Hh & Hl).
  cbn [bind]. cbn zeta.
  rewrite (clipped_envelope_covered _ _ _ _ Hh Hl), Nat.eqb_refl. cbn [negb].
  eexists. split; [reflexivity|]. apply (clipped_envelope_covered _ _ _ _ Hh Hl).
Qed.



Lemma map2_length {A B C : Type} (f : A -> B -> C) (l : list A) (m : list B) :
  length (map2 f l m) = Nat.min (length l) (length m).
Proof.
  revert m. induction l as [|a l IH]; intros [|b m]; cbn; auto.
Qed.

Lemma interp_envelope_length (fuel : nat) (x : signal) (mode : string)
      (eo : envelope_opts) (xo : option extrema_opts) (env : signal) :
  interp_envelope fuel x mode eo xo = Ok (Some env) -> length env = length x.
Proof.
  unfold interp_envelope. cbn zeta.
  destruct (negb _); [discriminate|].
  match goal with |- (bind ?c _) = _ -> _ => destruct c as [[[locs pks]|]| |] end;
    cbn [bind]; try discriminate.
  destruct (Nat.eqb_spec
              (length (map snd (filter (fun te => Qle_bool 0 (fst te)
                                                  && Qlt_bool (fst te) (inject_Z (Z.of_nat (length x))))
                                       (combine (np_arange (hd 0 locs) (last locs 0))
                                                (map (interp_kernel (interp_method eo) locs pks)
                                                     (np_arange (hd 0 locs) (last locs 0)))))))
              (length x)) as [E|E]; cbn [negb]; [|discriminate].
  intros H. injection H as <-. exact E.
Qed.

Lemma refine_loop_length (k fuel : nat) (o : imf_opts) (eo : envelope_opts)
      (xo : option extrema_opts) (p : signal) (niters : Z) (q : signal) (flag : bool) :
  refine_loop k fuel o eo xo p niters = Ok (q, flag) -> length q = length p.
Proof.
  revert p niters. induction k as [|k IH]; intros p niters; cbn [refine_loop]; [discriminate|].
  destruct (_ && _ && _); [discriminate|].
  destruct (interp_envelope fuel p "upper" eo xo) as [[u|]| |] eqn:Eu; cbn [bind];
    try discriminate.
  - destruct (interp_envelope fuel p "lower" eo xo) as [[l|]| |] eqn:El; cbn [bind];
      try discriminate.
    + apply interp_envelope_length in Eu. apply interp_envelope_length in El.
      assert (La : length (map (fun v => v / 2) (vadd u l)) = length p)
        by (unfold vadd; rewrite length_map, map2_length; lia).
      destruct (stop_flag _ _ _ _ _ _) as [[|]| |]; cbn [bind]; try discriminate.
      * intros H. injection H as <- _. unfold vsub. rewrite map2_length. lia.
      * intros H. apply IH in H. rewrite H. unfold vsub, vscale.
        rewrite map2_length, length_map. lia.
    + intros H. now injection H as <- _.
  - destruct (interp_envelope fuel p "lower" eo xo) as [[l|]| |]; cbn [bind];
      try discriminate; intros H; now injection H as <- _.
Qed.

Lemma get_next_imf_length (fuel : nat) (x : signal) (o : imf_opts) (eo : envelope_opts)
      (xo : option extrema_opts) (q : signal) (flag : bool) :
  get_next_imf fuel x o eo xo = Ok (q, flag) -> length q = length x.
Proof.
  unfold get_next_imf.
  destruct (refine_loop fuel fuel o eo xo x 0) as [[p f]| |] eqn:E; cbn [bind];
    try discriminate.
  intros H. injection H as <- _. exact (refine_loop_length _ _ _ _ _ _ _ _ _ E).
Qed.

Lemma row_sums_length (n : nat) (imf : matrix) :
  Forall (fun col => length col = n) imf -> length (row_sums n imf) = n.
Proof.
  unfold row_sums. intros H.
  assert (G : forall acc, length acc = n -> length (fold_left vadd imf acc) = n).
  { induction H as [|col imf Hc _ IH]; intros acc Ha; cbn [fold_left]; [exact Ha|].
    apply IH. unfold vadd. rewrite map2_length. lia. }
  apply G, repeat_length.
Qed.

Lemma sift_loop_columns (k fuel : nat) (c : sift_opts) (io : imf_opts) (x : signal)
      (layer : Z) (imf0 : matrix) (proto : signal) (imf : matrix) :
  Forall (fun col => length col = length x) imf0 ->
  length proto = length x ->
  sift_loop k fuel c io x layer imf0 proto = Ok imf ->
  Forall (fun col => length col = length x) imf.
Proof.
  revert layer imf0 proto.
  induction k as [|k IH]; intros layer imf0 proto H0 Hp; cbn [sift_loop]; [discriminate|].
  destruct (get_next_imf fuel proto io (envelope_options c) (extrema_options c))
    as [[q f]| |] eqn:E; cbn [bind]; try discriminate.
  apply get_next_imf_length in E.
  set (imf1 := if (layer =? 0)%Z then [q] else imf0 ++ [q]).
  assert (H1 : Forall (fun col => length col = length x) imf1).
  { unfold imf1. destruct (layer =? 0)%Z.
    - constructor; [lia|constructor].
    - apply Forall_app. split; [exact H0|]. constructor; [lia|constructor]. }
  match goal with |- (if ?b then _ else _) = _ -> _ => destruct b end.
  - apply IH; [exact H1|].
    unfold vsub. rewrite map2_length, (row_sums_length _ _ H1). lia.
  - intros H. now injection H as <-.
Qed.

(** Every IMF that [sift] returns has exactly as many samples as the input:
    the envelopes, the candidates of the refiner and the running residual
    never change length, so no elementwise operation of the sift meets
    arrays of different shapes. *)
Theorem sift_columns_have_signal_length (fuel : nat) (x : signal) (c : sift_opts)
        (imf : matrix) :
  sift fuel x c = Ok imf ->
  Forall (fun col => length col = length x) imf.
Proof.
  unfold sift. intros H.
  eapply sift_loop_columns; [constructor|reflexivity|exact H].
Qed.

Lemma sumsq_nonneg (x : signal) : 0 <= sumsq x.
Proof.
  unfold sumsq, np_sum. induction x as [|a x IH]; cbn [map fold_right]; [lra|].
  assert (0 <= a * a) by (destruct (Qlt_le_dec a 0); nra). lra.
Qed.

Lemma sd_stop_nonpositive (p c : signal) (sd : Q) :
  sd <= 0 -> fst (sd_stop p c sd) = false.
Proof.
  intros Hsd. unfold sd_stop. cbn [fst].
  pose proof (sumsq_nonneg (vsub p c)) as Ha. pose proof (sumsq_nonneg p) as Hb.
  unfold np_div. destruct (Qeq_bool (sumsq p) 0) eqn:Eb.
  - destruct (Qeq_bool (sumsq (vsub p c)) 0); [reflexivity|].
    replace (Qlt_bool (sumsq (vsub p c)) 0) with false; [reflexivity|].
    symmetry. apply Qlt_bool_false_iff. exact Ha.
  - cbn [np_lt]. apply Qlt_bool_false_iff.
    apply Qeq_bool_neq in Eb.
    apply Qle_trans with 0; [exact Hsd|].
    apply Qle_shift_div_l; lra.
Qed.

Lemma refine_loop_silent (o : imf_opts) (eo : envelope_opts) (xo : option extrema_opts)
      (fuel : nat) (n0 : Z) :
  (forall p x1 u l n b, (n0 < n)%Z -> stop_flag o p x1 u l n = Ok b -> b = false) ->
  forall (k : nat) (p : signal) (niters : Z) (q : signal) (flag : bool),
    (n0 <= niters)%Z ->
    refine_loop k fuel o eo xo p niters = Ok (q, flag) ->
    flag = false
    /\ (interp_envelope fuel q "upper" eo xo = Ok None
        \/ interp_envelope fuel q "lower" eo xo = Ok None).
Proof.
  intros Hsilent k. induction k as [|k IH]; intros p niters q flag Hn; cbn [refine_loop];
    [discriminate|].
  destruct (_ && _ && _); [discriminate|].
  destruct (interp_envelope fuel p "upper" eo xo) as [[u|]| |] eqn:Eu; cbn [bind];
    try discriminate.
  - destruct (interp_envelope fuel p "lower" eo xo) as [[l|]| |] eqn:El; cbn [bind];
      try discriminate.
    + destruct (stop_flag _ _ _ _ _ _) as [b| |] eqn:Es; cbn [bind]; try discriminate.
      apply Hsilent in Es; [|lia]. subst b.
      apply IH. lia.
    + intros H. injection H as <- <-. auto.
  - destruct (interp_envelope fuel p "lower" eo xo) as [[l|]| |] eqn:El; cbn [bind];
      try discriminate; intros H; injection H as <- <-; auto.
Qed.

Lemma get_next_imf_silent (o : imf_opts) (eo : envelope_opts) (xo : option extrema_opts)
      (fuel : nat) (x q : signal) (flag : bool) :
  (forall p x1 u l n b, (0 < n)%Z -> stop_flag o p x1 u l n = Ok b -> b = false) ->
  get_next_imf fuel x o eo xo = Ok (q, flag) ->
  flag = false
  /\ (interp_envelope fuel q "upper" eo xo = Ok None
      \/ interp_envelope fuel q "lower" eo xo = Ok None).
Proof.
  intros Hs. unfold get_next_imf.
  destruct (refine_loop fuel fuel o eo xo x 0) as [[p f]| |] eqn:E; cbn [bind];
    try discriminate.
  destruct (refine_loop_silent o eo xo fuel 0 Hs fuel x 0 p f ltac:(lia) E) as [-> Hq].
  intros H. injection H as <- <-. split; [|exact Hq].
  destruct (energy_thresh o); [destruct (Qlt_bool _ _)|]; reflexivity.
Qed.

(** With [stop_method='fixed'] and [max_iters] below 1 the fixed-iteration
    rule never fires, the iteration count being at least 1 when it is first
    compared: whenever [get_next_imf] returns, it is because the proto-IMF it
    returns has no upper or no lower envelope, and the continue flag is
    False. *)
Theorem fixed_stop_below_one_never_fires (fuel : nat) (x : signal) (o : imf_opts)
        (eo : envelope_opts) (xo : option extrema_opts) (q : signal) (flag : bool) :
  stop_method o = "fixed"%string ->
  (max_iters o <= 0)%Z ->
  get_next_imf fuel x o eo xo = Ok (q, flag) ->
  flag = false
  /\ (interp_envelope fuel q "upper" eo xo = Ok None
      \/ interp_envelope fuel q "lower" eo xo = Ok None).
Proof.
  intros Hm Hi. apply get_next_imf_silent.
  intros p x1 u l n b Hn. unfold stop_flag. rewrite Hm. cbn.
  unfold fixed_stop. intros H. injection H as <-. apply Z.eqb_neq. lia.
Qed.

(** With [stop_method='sd'] and a threshold that is not positive the SD rule
    never fires, its metric being a quotient of two sums of squares (or
    [inf] or [nan] when the proto-IMF is zero): whenever [get_next_imf]
    returns, the proto-IMF it returns has no upper or no lower envelope and
    the continue flag is False. *)
Theorem sd_stop_nonpositive_threshold_never_fires (fuel : nat) (x : signal) (o : imf_opts)
        (eo : envelope_opts) (xo : option extrema_opts) (q : signal) (flag : bool) :
  stop_method o = "sd"%string ->
  sd_thresh o <= 0 ->
  get_next_imf fuel x o eo xo = Ok (q, flag) ->
  flag = false
  /\ (interp_envelope fuel q "upper" eo xo = Ok None
      \/ interp_envelope fuel q "lower" eo xo = Ok None).
Proof.
  intros Hm Hsd. apply get_next_imf_silent.
  intros p x1 u l n b Hn. unfold stop_flag. rewrite Hm. cbn.
  intros H. injection H as <-. now apply sd_stop_nonpositive.
Qed.

(** [stop_method] is not validated.  With a name that is none of ['sd'],
    ['rilling'] and ['fixed'], [get_next_imf] fails with [UnboundLocalError]
    on [stop] as soon as the signal has both envelopes, and can only return
    the input itself, with the continue flag False. *)
Theorem unknown_stop_method_unbound (fuel : nat) (x : signal) (o : imf_opts)
        (eo : envelope_opts) (xo : option extrema_opts) :
  known_stop_method o = false ->
  (forall u l, (0 <= max_iters o)%Z -> (0 < fuel)%nat ->
               interp_envelope fuel x "upper" eo xo = Ok (Some u) ->
               interp_envelope fuel x "lower" eo xo = Ok (Some l) ->
               get_next_imf fuel x o eo xo = Raise (UnboundLocalError "stop"))
  /\ (forall q flag, get_next_imf fuel x o eo xo = Ok (q, flag) -> q = x /\ flag = false).
Proof.
  unfold known_stop_method. intros Hk.
  apply orb_false_iff in Hk. destruct Hk as [Hk Hf].
  apply orb_false_iff in Hk. destruct Hk as [Hs Hr].
  assert (Hstop : forall p x1 u l n, stop_flag o p x1 u l n = Raise (UnboundLocalError "stop"))
    by (intros; unfold stop_flag; now rewrite Hs, Hr, Hf).
  split.
  - intros u l Hi Hfuel Eu El. unfold get_next_imf.
    destruct fuel as [|k]; [lia|]. cbn [refine_loop].
    replace (max_iters o <? 0)%Z with false by (symmetry; apply Z.ltb_ge; lia).
    rewrite andb_false_r, Eu, El. cbn [bind]. rewrite Hstop. reflexivity.
  - intros q flag. unfold get_next_imf.
    destruct fuel as [|k]; [discriminate|]. cbn [refine_loop].
    destruct (_ && _ && _); [discriminate|].
    destruct (interp_envelope (S k) x "upper" eo xo) as [[u|]| |]; cbn [bind];
      try discriminate;
      destruct (interp_envelope (S k) x "lower" eo xo) as [[l|]| |]; cbn [bind];
        try discriminate; try (rewrite Hstop; discriminate);
        intros H; injection H as <- <-; (split; [reflexivity|]);
        (destruct (energy_thresh o); [destruct (Qlt_bool _ _)|]; reflexivity).
Qed.

Lemma zero_mean_metric (u l : signal) (s : Q) :
  Forall2 (fun a b => a + b == 0) u l -> 0 <= s ->
  forall e, In e (map2 (fun a b => np_div (Qabs a) b)
                       (map (fun v => v / 2) (vadd u l))
                       (map (fun v => Qabs v / 2) (vsub u l))) ->
            np_gt e s = false.
Proof.
  intros H Hs. induction H as [|a b u l Hab _ IH]; intros e He; [destruct He|].
  cbn [vadd vsub map2 map] in He. destruct He as [<-|He]; [|now apply IH].
  assert (Ha : Qabs ((a + b) / 2) == 0).
  { rewrite Hab. reflexivity. }
  unfold np_div. destruct (Qeq_bool (Qabs (a - b) / 2) 0) eqn:Eb.
  - replace (Qeq_bool (Qabs ((a + b) / 2)) 0) with true; [reflexivity|].
    symmetry. now apply Qeq_bool_iff.
  - cbn [np_gt]. apply Qlt_bool_false_iff. rewrite Ha.
    unfold Qdiv. rewrite Qmult_0_l. exact Hs.
Qed.

(** Envelopes that are mirror images of each other (their mean is zero at
    every sample) always satisfy the criterion of Rilling et al., for any
    thresholds that are not negative, also where the two envelopes touch and
    the evaluation function is 0/0. *)
Theorem rilling_stop_accepts_zero_mean (upper_env lower_env : signal) (sd1 sd2 tol : Q) :
  Forall2 (fun a b => a + b == 0) upper_env lower_env ->
  0 <= sd1 -> 0 <= sd2 -> 0 <= tol ->
  fst (rilling_stop upper_env lower_env sd1 sd2 tol) = true.
Proof.
  intros H H1 H2 Ht. unfold rilling_stop. cbn [fst].
  set (em := map2 _ _ _).
  assert (E1 : filter (fun e => np_gt e sd1) em = []).
  { apply filter_none. intros e He. now apply (zero_mean_metric upper_env lower_env). }
  assert (E2 : existsb (fun e => np_gt e sd2) em = false).
  { destruct (existsb _ em) eqn:E; [|reflexivity].
    apply existsb_exists in E as (e & He & E).
    now rewrite (zero_mean_metric upper_env lower_env sd2 H H2 e He) in E. }
  rewrite E1, E2. cbn [length Z.of_nat].
  replace (np_gt (np_div (inject_Z 0) (inject_Z (Z.of_nat (length em)))) tol) with false;
    [reflexivity|].
  symmetry. unfold np_div.
  destruct (Qeq_bool (inject_Z (Z.of_nat (length em))) 0); [reflexivity|].
  cbn [np_gt]. apply Qlt_bool_false_iff.
  change (inject_Z 0) with 0. unfold Qdiv. rewrite Qmult_0_l. exact Ht.
Qed.

Lemma zero_crossing_count_lt (x : signal) :
  x <> [] -> (zero_crossing_count x < length x)%nat.
Proof.
  induction x as [|a x IH]; [congruence|]. intros _.
  destruct x as [|b x]; [cbn; lia|].
  specialize (IH ltac:(discriminate)).
  change (zero_crossing_count (a :: b :: x))
    with ((if (np_sign b - np_sign a =? 0)%Z then 0 else 1) + zero_crossing_count (b :: x))%nat.
  cbn [length] in *. destruct (_ =? 0)%Z; lia.
Qed.

(** The first mask frequency found by zero crossings (['zc']) on a signal
    that is not empty lies in [0, 1/4): the first IMF has the length of the
    signal and fewer sign changes than samples.  It is 0, below the range
    asked of a frequency given by hand, when that IMF never changes sign. *)
Theorem zero_crossing_mask_frequency_range (fuel : nat) (x : signal)
        (io : option imf_opts) (z : Q) :
  x <> [] ->
  get_mask_freqs fuel x (mode_name "zc") io = Ok z ->
  0 <= z /\ z < 1#4.
Proof.
  intros Hx. unfold get_mask_freqs. cbn [String.eqb Ascii.eqb Bool.eqb orb].
  destruct (get_next_imf _ _ _ _ _) as [[imf flag]| |] eqn:E; cbn [bind]; try discriminate.
  apply get_next_imf_length in E. cbn [fst].
  intros H. injection H as <-.
  assert (Hi : imf <> []) by (intros ->; destruct x; [congruence|discriminate]).
  pose proof (zero_crossing_count_lt imf Hi) as Hc.
  set (a := inject_Z (Z.of_nat (zero_crossing_count imf))).
  set (b := inject_Z (Z.of_nat (length imf))).
  assert (Ha : 0 <= a) by (unfold a; change 0 with (inject_Z 0); rewrite <- Zle_Qle; lia).
  assert (Hab : a < b) by (unfold a, b; rewrite <- Zlt_Qlt; lia).
  assert (Hb : 0 < b) by lra.
  assert (H0 : 0 <= a / b) by (apply Qle_shift_div_l; lra).
  assert (H1 : a / b < 1) by (apply Qlt_shift_div_r; lra).
  set (t := a / b) in *. split.
  - apply Qle_shift_div_l; lra.
  - apply Qlt_shift_div_r; lra.
Qed.

Lemma mapM_Forall2 {A B : Type} (f : A -> outcome B) (l : list A) (res : list B) :
  mapM f l = Ok res -> Forall2 (fun a r => f a = Ok r) l res.
Proof.
  revert res. induction l as [|a l IH]; intros res H; cbn [mapM] in H.
  - injection H as <-. constructor.
  - destruct (f a) as [b| |] eqn:E; try discriminate. cbn [bind] in H.
    destruct (mapM f l) as [bs| |]; try discriminate. cbn [bind] in H.
    injection H as <-. constructor; [exact E|]. now apply IH.
Qed.

Lemma mask_column_length (n : nat) (z amp : Q) (nphases ii : nat) :
  length (mask_column n z amp nphases ii) = n.
Proof. unfold mask_column. now rewrite length_map, length_seq. Qed.

Lemma unmasked_columns (fuel : nat) (x : signal) (o : imf_opts) (eo : envelope_opts)
      (xo : option extrema_opts) (m : matrix) (res : list (signal * bool)) :
  Forall (fun mcol => length mcol = length x) m ->
  Forall2 (fun a r => get_next_imf fuel a o eo xo = Ok r) (map (fun mcol => vadd x mcol) m) res ->
  Forall (fun col => length col = length x) (map2 vsub (map fst res) m).
Proof.
  intros Hm. revert res. induction Hm as [|mcol m Hc _ IH]; intros res H; cbn [map] in H.
  - inversion H. constructor.
  - inversion H as [|a [q f] l' res' Hq Hrest]; subst. cbn [map map2 fst].
    constructor; [|now apply IH].
    apply get_next_imf_length in Hq. unfold vsub. rewrite map2_length, Hq.
    unfold vadd. rewrite map2_length. lia.
Qed.

Lemma get_next_imf_mask_length (fuel : nat) (x : signal) (z amp : Q) (nphases : nat)
      (io : option imf_opts) (eo : envelope_opts) (xo : option extrema_opts)
      (imf : signal) (flag : bool) :
  get_next_imf_mask fuel x z amp nphases io eo xo = Ok (imf, flag) ->
  length imf = length x.
Proof.
  unfold get_next_imf_mask. cbn zeta.
  set (m := map (mask_column (length x) z amp nphases) (seq 0 nphases)).
  destruct (mapM _ _) as [res| |] eqn:E; cbn [bind]; try discriminate.
  apply mapM_Forall2 in E.
  assert (Hm : Forall (fun mcol => length mcol = length x) m).
  { apply Forall_forall. intros mcol Hin. apply in_map_iff in Hin as (ii & <- & _).
    apply mask_column_length. }
  pose proof (unmasked_columns _ _ _ _ _ _ _ Hm E) as Hcols.
  destruct (map fst res) eqn:Ef; [discriminate|].
  intros H. injection H as <- _.
  unfold mean_axis1. rewrite length_map. now apply row_sums_length.
Qed.

Lemma mask_sift_loop_shape (k : nat) :
  forall (fuel : nat) (c : mask_opts) (mf : mask_freqs_arg) (cap : Z) (x : signal)
         (sd : option Q) (layer : nat) (imf0 : matrix) (proto : signal) (imf : matrix),
    length imf0 = layer ->
    Forall (fun col => length col = length x) imf0 ->
    length proto = length x ->
    mask_sift_loop k fuel c mf cap x sd layer imf0 proto = Ok imf ->
    Forall (fun col => length col = length x) imf
    /\ (layer < length imf)%nat
    /\ (forall l, mf = freqs_array l -> (length imf <= length l)%nat)
    /\ ((Z.of_nat layer < cap)%Z -> (Z.of_nat (length imf) <= cap)%Z).
Proof.
  induction k as [|k IH]; intros fuel c mf cap x sd layer imf0 proto imf Hl H0 Hp;
    cbn [mask_sift_loop]; [discriminate|].
  match goal with |- (bind ?s _) = _ -> _ => destruct s as [sdv| |] end;
    cbn [bind]; try discriminate.
  match goal with |- (bind ?s _) = _ -> _ => destruct s as [amp| |] end;
    cbn [bind]; try discriminate.
  destruct (mask_freq_at mf layer) as [z| |] eqn:Ez; cbn [bind]; try discriminate.
  destruct (get_next_imf_mask _ _ _ _ _ _ _ _) as [[q f]| |] eqn:E; cbn [bind];
    try discriminate.
  apply get_next_imf_mask_length in E.
  set (imf1 := if (layer =? 0)%nat then [q] else imf0 ++ [q]).
  assert (Hz : forall l, mf = freqs_array l -> (layer < length l)%nat).
  { intros l ->. cbn [mask_freq_at] in Ez.
    destruct (nth_error l layer) eqn:En; [|discriminate].
    apply nth_error_Some. congruence. }
  assert (L1 : length imf1 = S layer).
  { unfold imf1. destruct (Nat.eqb_spec layer 0) as [->|_]; [reflexivity|].
    rewrite length_app. cbn [length]. lia. }
  assert (H1 : Forall (fun col => length col = length x) imf1).
  { unfold imf1. destruct (layer =? 0)%nat.
    - constructor; [lia|constructor].
    - apply Forall_app. split; [exact H0|]. constructor; [lia|constructor]. }
  destruct (Z.eqb_spec (Z.of_nat layer) (cap - 1)) as [Ec|Ec].
  - replace (if Qlt_bool (np_sum (vabs q)) (mask_sift_thresh c) then false else false)
      with false by (destruct (Qlt_bool _ _); reflexivity).
    intros H. injection H as <-. rewrite L1.
    repeat split; [exact H1|lia| |lia].
    intros l Hmf. specialize (Hz l Hmf). lia.
  - match goal with |- (if ?b then _ else _) = _ -> _ => destruct b end.
    + intros H.
      apply IH in H; [|exact L1|exact H1|].
      * destruct H as (G1 & G2 & G3 & G4).
        repeat split; [exact G1|lia|exact G3|]. intros Hc. apply G4. lia.
      * unfold vsub. rewrite map2_length, (row_sums_length _ _ H1). lia.
    + intros H. injection H as <-. rewrite L1.
      repeat split; [exact H1|lia| |lia].
      intros l Hmf. specialize (Hz l Hmf). lia.
Qed.

(** When [mask_sift] returns, it returns at least one IMF, every IMF has as
    many samples as the input, there are no more IMFs than mask frequencies
    when these are given as an array, and no more than [max_imfs] when
    [max_imfs] is at least 1. *)
Theorem mask_sift_shape_and_count (fuel : nat) (x : signal) (c : mask_opts) (imf : matrix) :
  mask_sift fuel x c = Ok imf ->
  (1 <= length imf)%nat
  /\ Forall (fun col => length col = length x) imf
  /\ (forall l, mask_freqs c = freqs_array l -> (length imf <= length l)%nat)
  /\ ((1 <= mask_max_imfs c)%Z -> (Z.of_nat (length imf) <= mask_max_imfs c)%Z).
Proof.
  unfold mask_sift.
  match goal with |- (bind ?p _) = _ -> _ => destruct p as [[mf cap]| |] eqn:Ep end;
    cbn [bind]; try discriminate.
  intros H.
  apply mask_sift_loop_shape in H; [|reflexivity|constructor|reflexivity].
  destruct H as (G1 & G2 & G3 & G4). cbn [length Z.of_nat] in G4.
  split; [lia|]. split; [exact G1|].
  destruct (mask_freqs c) as [l|s|f|i] eqn:Em.
  - injection Ep as <- <-. split.
    + intros l' El. injection El as <-. now apply G3.
    + intros Hc. specialize (G3 l eq_refl).
      destruct (Z.ltb_spec (Z.of_nat (length l)) (mask_max_imfs c)); lia.
  - split; [discriminate|].
    destruct (String.eqb s "zc" || String.eqb s "if").
    + destruct (get_mask_freqs _ _ _ _); cbn [bind] in Ep; try discriminate.
      injection Ep as <- <-. intros Hc. apply G4. lia.
    + injection Ep as <- <-. intros Hc. apply G4. lia.
  - split; [discriminate|].
    destruct (get_mask_freqs _ _ _ _); cbn [bind] in Ep; try discriminate.
    injection Ep as <- <-. intros Hc. apply G4. lia.
  - split; [discriminate|]. injection Ep as <- <-. intros Hc. apply G4. lia.
Qed.

Lemma sift_one_layer (fuel : nat) (x : signal) (c : sift_opts) (imf : matrix) :
  max_imfs c = Some 1%Z -> sift fuel x c = Ok imf -> length imf = 1%nat.
Proof.
  intros Hm. unfold sift. destruct fuel as [|k]; [discriminate|]. cbn [sift_loop].
  destruct (get_next_imf _ _ _ _ _) as [[q f]| |]; cbn [bind]; try discriminate.
  rewrite Hm. cbn [Z.eqb Z.add Pos.eqb].
  destruct (Qlt_bool _ _); intros H; injection H as <-; reflexivity.
Qed.

Lemma sift_with_noise_one (fuel : nat) (x : signal) (ns : option Q) (mode : string)
      (c : sift_opts) (seed : option Z) (w : world) (r : option matrix) :
  fst (_sift_with_noise fuel x ns mode (one_imf c) seed w) = Ok r ->
  forall imf, r = Some imf -> length imf = 1%nat.
Proof.
  unfold _sift_with_noise.
  destruct (match seed with Some s => (s, w) | None => os_entropy w end) as [s w'].
  cbn [fst].
  destruct (sift fuel (vadd x _) (one_imf c)) as [imf1| |] eqn:E1; cbn [bind];
    try discriminate.
  apply sift_one_layer in E1; [|reflexivity].
  destruct (String.eqb mode "single").
  - intros H imf Hr. injection H as <-. injection Hr as <-. exact E1.
  - destruct (String.eqb mode "flip").
    + destruct (sift fuel (vsub x _) (one_imf c)) as [imf2| |] eqn:E2; cbn [bind];
        try discriminate.
      apply sift_one_layer in E2; [|reflexivity].
      unfold matrix_iadd. rewrite E1, E2. cbn [Nat.eqb bind].
      intros H imf Hr. injection H as <-. injection Hr as <-.
      rewrite length_map, map2_length. lia.
    + intros H imf Hr. injection H as <-. discriminate.
Qed.

Lemma starmap_results {A B : Type} (f : A -> rand B) (args : list A) :
  forall (w : world) (bs : list B),
    fst (starmap f args w) = Ok bs ->
    length bs = length args
    /\ Forall (fun b => exists a w', fst (f a w') = Ok b) bs.
Proof.
  induction args as [|a args IH]; intros w bs; cbn [starmap].
  - unfold rret. cbn [fst]. intros H. injection H as <-. split; [reflexivity|constructor].
  - unfold rbind at 1. destruct (f a w) as [[b| |] w1] eqn:Ea; cbn [fst]; try discriminate.
    unfold rbind at 1. destruct (starmap f args w1) as [[bs'| |] w2] eqn:Es; cbn [fst];
      try discriminate.
    unfold rret. cbn [fst]. intros H. injection H as <-.
    destruct (IH w1 bs') as [L F]; [now rewrite Es|].
    split; [cbn [length]; lia|].
    constructor; [|exact F]. exists a, w. now rewrite Ea.
Qed.

Lemma mean_realizations_count (n : nat) (res : list matrix) (m : matrix) :
  mean_realizations n res = Ok m -> res <> [] /\ length m = length (hd [] res).
Proof.
  unfold mean_realizations. destruct res as [|r0 rest]; [discriminate|].
  destruct (forallb _ _); [|discriminate].
  intros H. injection H as <-. split; [discriminate|].
  now rewrite length_map, length_seq.
Qed.

Lemma realizations_one (fuel : nat) (x : signal) (ns : option Q) (e : ensemble_opts)
      (w : world) (res : list (option matrix)) (res' : list matrix) (n : nat)
      (m : matrix) :
  fst (starmap (fun _ : nat => _sift_with_noise fuel x ns (noise_mode e)
                                                (one_imf (sift_options e)) None)
               (seq 0 (nensembles e)) w) = Ok res ->
  mapM realized res = Ok res' ->
  mean_realizations n res' = Ok m ->
  length m = 1%nat.
Proof.
  intros Hs Hr Hm. apply starmap_results in Hs as [_ Hs].
  apply mean_realizations_count in Hm as [Hne ->].
  destruct res' as [|r0 rest]; [congruence|]. cbn [hd].
  destruct (mapM_result _ _ _ Hr) as [Hin _].
  destruct (Hin r0 (or_introl eq_refl)) as (o & Ho & Hreal).
  rewrite Forall_forall in Hs. destruct (Hs o Ho) as (a & w' & Hrun).
  destruct o as [imf|]; [|discriminate]. cbn [realized] in Hreal. injection Hreal as <-.
  exact (sift_with_noise_one _ _ _ _ _ _ _ _ Hrun imf eq_refl).
Qed.

Lemma ces_loop_count (k : nat) :
  forall (fuel : nat) (x : signal) (e : ensemble_opts) (layer : Z) (imf noise : matrix)
         (w : world) (imf' noise' : matrix),
    fst (ces_loop k fuel x e layer imf noise w) = Ok (imf', noise') ->
    (length imf < length imf')%nat
    /\ (forall m, max_imfs (sift_options e) = Some m -> (layer <= m)%Z ->
                  (Z.of_nat (length imf') <= Z.of_nat (length imf) + (m - layer + 1))%Z).
Proof.
  induction k as [|k IH]; intros fuel x e layer imf noise w imf' noise';
    cbn [ces_loop]; [discriminate|].
  unfold rbind at 1.
  destruct (starmap _ _ w) as [[res| |] w1] eqn:Es; cbn [fst]; try discriminate.
  destruct (mapM realized res) as [res'| |] eqn:Er; cbn [bind]; try discriminate.
  destruct (mean_realizations _ res') as [next| |] eqn:Em; cbn [bind]; try discriminate.
  destruct (strip_noise _ _ noise) as [noise1| |]; cbn [bind]; try discriminate.
  assert (L : length next = 1%nat).
  { eapply realizations_one; [|exact Er|exact Em]. now rewrite Es. }
  assert (L1 : length (imf ++ next) = S (length imf)) by (rewrite length_app; lia).
  destruct (_find_extrema (last (imf ++ next) []) false) as [pks mags].
  destruct (max_imfs (sift_options e)) as [m|] eqn:Ecap.
  - destruct (Z.eqb_spec layer m) as [El|El];
      destruct (Qlt_bool _ _); destruct (length pks <? 2)%nat;
      try (unfold rret; cbn [fst]; intros H; injection H as <- <-; rewrite L1;
           split; [lia|]; intros m' Hm' Hle; injection Hm' as <-; lia).
    intros H. apply IH in H. destruct H as [H1 H2]. rewrite L1 in H1, H2.
    split; [lia|]. intros m' Hm' Hle. injection Hm' as <-.
    specialize (H2 m Ecap ltac:(lia)). lia.
  - destruct (Qlt_bool _ _); destruct (length pks <? 2)%nat;
      try (unfold rret; cbn [fst]; intros H; injection H as <- <-; rewrite L1;
           split; [lia|]; intros m' Hm'; discriminate).
    intros H. apply IH in H. destruct H as [H1 _]. rewrite L1 in H1.
    split; [lia|]. intros m' Hm'. discriminate.
Qed.

(** [complete_ensemble_sift] finds its first IMF before its loop and tests
    the cap with [layer == max_imfs] on a layer count that starts at 0, after
    an IMF has been appended: whenever it returns, it returns at least 2
    IMFs and, for [max_imfs] of 0 or more, at most [max_imfs + 2]. *)
Theorem complete_ensemble_sift_imf_count (fuel : nat) (x : signal) (e : ensemble_opts)
        (seed : option Z) (w : world) (imf noise : matrix) :
  fst (complete_ensemble_sift fuel x e seed w) = Ok (imf, noise) ->
  (2 <= length imf)%nat
  /\ (forall m, max_imfs (sift_options e) = Some m -> (0 <= m)%Z ->
                (Z.of_nat (length imf) <= m + 2)%Z).
Proof.
  unfold complete_ensemble_sift.
  destruct (global_random_sample (length x) (nensembles e) w) as [sample w0].
  unfold rbind at 1.
  destruct (starmap _ _ w0) as [[res| |] w1] eqn:Es; cbn [fst]; try discriminate.
  destruct (mapM realized res) as [res'| |] eqn:Er; cbn [bind]; try discriminate.
  destruct (mean_realizations _ res') as [first| |] eqn:Em; cbn [bind]; try discriminate.
  destruct (strip_noise _ _ _) as [noise1| |]; cbn [bind]; try discriminate.
  assert (L : length first = 1%nat).
  { eapply realizations_one; [|exact Er|exact Em]. now rewrite Es. }
  intros H. apply ces_loop_count in H. destruct H as [H1 H2]. rewrite L in H1, H2.
  split; [lia|]. intros m Hm Hle. specialize (H2 m Hm Hle). lia.
Qed.

(** ** Properties of the IMF checks and of the second-layer sifts *)

Lemma interp_envelope_cases (fuel : nat) (x : signal) (mode : string)
      (eo : envelope_opts) (xo : option extrema_opts) :
  let o := resolve_extrema_opts xo in
  let found := fst (detected_extrema x (detection_mode mode) (parabolic_extrema o)) in
  valid_interp_method eo = true ->
  valid_envelope_mode mode = true ->
  loc_pad_mode o = reflect true ->
  (1 <= pad_width o)%Z ->
  (length x < fuel)%nat ->
  ((length found <= 1)%nat /\ interp_envelope fuel x mode eo xo = Ok None)
  \/ ((2 <= length found)%nat
      /\ exists env, interp_envelope fuel x mode eo xo = Ok (Some env)).
Proof.
  intros o found Hm Hmode Hlm Hw Hfuel.
  destruct (Nat.le_gt_cases (length found) 1) as [Hle|Hgt].
  - left. split; [exact Hle|].
    rewrite interp_envelope_eq by assumption. fold o.
    rewrite get_padded_extrema_eq by apply valid_detection_mode.
    unfold found in Hle.
    destruct (detected_extrema x (detection_mode mode) (parabolic_extrema o)) as [ml me].
    cbn [fst] in Hle. apply Nat.leb_le in Hle. rewrite Hle. reflexivity.
  - right. split; [exact Hgt|].
    rewrite interp_envelope_eq by assumption. fold o.
    destruct (padded_extrema_total fuel x (detection_mode mode) o (valid_detection_mode mode)
                                   Hlm Hw Hgt Hfuel) as (locs & mags & -> & Hh & Hl).
    cbn [bind]. cbn zeta.
    rewrite (clipped_envelope_covered _ _ _ _ Hh Hl), Nat.eqb_refl. cbn [negb].
    eexists. reflexivity.
Qed.

(** [is_imf] fails a column on both tests as soon as the column has at most
    one peak or at most one trough, whatever its zero crossings and its mean:
    with fewer than 2 extrema of a kind there is no envelope of that kind,
    and the checks of the column are left at False.  (Locations padded by odd
    reflection, pad width at least 1.) *)
Theorem is_imf_needs_both_envelopes (fuel : nat) (imf : matrix) (avg_tol : Q)
        (eo : envelope_opts) (xo : option extrema_opts) :
  let o := resolve_extrema_opts xo in
  valid_interp_method eo = true ->
  loc_pad_mode o = reflect true ->
  (1 <= pad_width o)%Z ->
  Forall (fun col =>
            (length col < fuel)%nat
            /\ ((length (fst (detected_extrema col "peaks" (parabolic_extrema o))) <= 1)%nat
                \/ (length (fst (detected_extrema col "troughs" (parabolic_extrema o)))
                    <= 1)%nat))
         imf ->
  is_imf fuel imf avg_tol eo xo = Ok (map (fun _ => (false, false)) imf).
Proof.
  intros o Hm Hlm Hw Hall. unfold is_imf.
  apply (@mapM_ok_map signal (bool * bool)). intros col Hin.
  rewrite Forall_forall in Hall. destruct (Hall col Hin) as [Hfuel Hfew].
  destruct (interp_envelope_cases fuel col "upper" eo xo Hm eq_refl Hlm Hw Hfuel)
    as [[Hu ->]|[Hu [u ->]]];
    destruct (interp_envelope_cases fuel col "lower" eo xo Hm eq_refl Hlm Hw Hfuel)
      as [[Hl ->]|[Hl [l ->]]]; cbn [bind]; try reflexivity.
  fold o in Hu, Hl. cbn [detection_mode String.eqb Ascii.eqb Bool.eqb] in Hu, Hl.
  destruct Hfew; lia.
Qed.

Lemma fit_all_shape (n : nat) (tmp cols : matrix) :
  fit_all n tmp = Some cols ->
  length cols = length tmp /\ Forall (fun col => length col = n) cols.
Proof.
  revert cols. induction tmp as [|c tmp IH]; intros cols; cbn [fit_all].
  - intros H. injection H as <-. split; [reflexivity|constructor].
  - destruct (fit_rows n c) as [c'|] eqn:Ec; [|discriminate].
    destruct (fit_all n tmp) as [cs|]; [|discriminate].
    intros H. injection H as <-. destruct (IH cs eq_refl) as [L F].
    split; [cbn [length]; lia|]. constructor; [|exact F].
    unfold fit_rows in Ec. destruct (Nat.eqb_spec (length c) n).
    + now injection Ec as <-.
    + destruct (length c =? 1)%nat; [|discriminate]. injection Ec as <-.
      apply repeat_length.
Qed.

Lemma zero_block_shape (n k : nat) :
  Forall (fun col : signal => length col = n) (repeat (repeat 0 n) k).
Proof.
  apply Forall_forall. intros col Hin. apply repeat_spec in Hin as ->. apply repeat_length.
Qed.

Lemma assign_block_shape (n width : nat) (tmp block : matrix) :
  assign_block n width tmp = Ok block ->
  length block = width /\ Forall (fun col => length col = n) block.
Proof.
  unfold assign_block.
  destruct (fit_all n tmp) as [cols|] eqn:Ef; [|discriminate].
  apply fit_all_shape in Ef as [L F].
  destruct (Nat.eqb_spec (length tmp) (Nat.min (length tmp) width)) as [E|E].
  - intros H. injection H as <-. split.
    + rewrite length_app, repeat_length. lia.
    + apply Forall_app. split; [exact F|apply zero_block_shape].
  - destruct (length tmp =? 1)%nat; [|discriminate].
    intros H. injection H as <-. split.
    + rewrite length_app, !repeat_length. lia.
    + apply Forall_app. split; [|apply zero_block_shape].
      apply Forall_forall. intros col Hin. apply repeat_spec in Hin as ->.
      destruct cols as [|c cs]; [cbn in L; lia|]. now inversion F.
Qed.

(** Called without [sift_args], as its signature allows, [sift_second_layer]
    fails on every input that has a column: the loop passes [**sift_args],
    which is [**None], to the sift function. *)
Theorem sift_second_layer_default_args_rejected (fuel : nat) (IA : matrix) :
  IA <> [] ->
  sift_second_layer fuel IA None = Raise TypeError.
Proof.
  intros Hne. unfold sift_second_layer. cbn [bind].
  destruct IA as [|col IA]; [congruence|].
  destruct (Z.ltb_spec (Z.of_nat (length (col :: IA))) 0) as [|_]; [lia|].
  rewrite Nat2Z.id. cbn [length seq mapM nth_error bind]. reflexivity.
Qed.

(** [sift_second_layer] uses the ['max_imfs'] entry of [sift_args] both as
    the number of second-layer IMFs kept and as the number of first-layer
    IMFs it sifts.  Whenever it returns, that number [width] (the number of
    columns of the input when the entry is missing) is at most the number of
    columns, the result has one block of [width] second-layer IMFs for each
    column, every IMF having the length of the signal, and the blocks of the
    columns from [width] on are zero: they were never sifted. *)
Theorem sift_second_layer_shape (fuel : nat) (IA : matrix) (d : sift_args_dict)
        (imf2 : list matrix) :
  sift_second_layer fuel IA (Some d) = Ok imf2 ->
  exists width,
    (width <= length IA)%nat
    /\ (args_max_imfs d = key_absent -> width = length IA)
    /\ (forall m, args_max_imfs d = key_value (Some m) -> Z.of_nat width = m)
    /\ length imf2 = length IA
    /\ Forall (fun block =>
                 length block = width
                 /\ Forall (fun col => length col = length (hd [] IA)) block) imf2
    /\ (forall ii, (width <= ii < length IA)%nat ->
                   nth ii imf2 [] = repeat (repeat 0 (length (hd [] IA))) width).
Proof.
  unfold sift_second_layer.
  set (n := length (hd [] IA)).
  match goal with |- (bind ?c _) = _ -> _ => destruct c as [m| |] eqn:Em end;
    cbn [bind]; try discriminate.
  destruct (Z.ltb_spec m 0) as [|Hm]; [discriminate|].
  destruct (mapM _ (seq 0 (Z.to_nat m))) as [blocks| |] eqn:Eb; cbn [bind];
    try discriminate.
  intros H. injection H as <-.
  pose proof (mapM_length _ _ _ Eb) as Lb. rewrite length_seq in Lb.
  destruct (mapM_result _ _ _ Eb) as [Hres Hall].
  assert (Hw : (Z.to_nat m <= length IA)%nat).
  { destruct (Nat.le_gt_cases (Z.to_nat m) (length IA)) as [|Hgt]; [assumption|].
    destruct (Hall (length IA)) as (b & _ & Hb); [apply in_seq; lia|].
    replace (nth_error IA (length IA)) with (@None signal) in Hb
      by (symmetry; apply nth_error_None; lia).
    discriminate. }
  exists (Z.to_nat m). split; [exact Hw|]. split; [|split; [|split; [|split]]].
  - intros Hk. rewrite Hk in Em. injection Em as <-. apply Nat2Z.id.
  - intros m' Hk. rewrite Hk in Em. injection Em as <-. lia.
  - rewrite length_app, repeat_length. lia.
  - apply Forall_app. split.
    + apply Forall_forall. intros b Hb. destruct (Hres b Hb) as (ii & _ & Hrun).
      destruct (nth_error IA ii); cbn [bind] in Hrun; [|discriminate].
      destruct (sift_with_args _ _ _); cbn [bind] in Hrun; try discriminate.
      now apply assign_block_shape in Hrun.
    + apply Forall_forall. intros b Hb. apply repeat_spec in Hb as ->.
      split; [apply repeat_length|apply zero_block_shape].
  - intros ii Hii. rewrite app_nth2 by lia. rewrite nth_repeat_lt by lia. reflexivity.
Qed.

Lemma mask_sift_array_count (fuel : nat) (x : signal) (c : mask_opts) (l : list Q)
      (imf : matrix) :
  mask_freqs c = freqs_array l ->
  mask_sift fuel x c = Ok imf ->
  (1 <= length imf <= length l)%nat.
Proof.
  intros Hmf. unfold mask_sift. rewrite Hmf. cbn [bind].
  intros H. apply mask_sift_loop_shape in H; [|reflexivity|constructor|reflexivity].
  destruct H as (_ & G2 & G3 & _). specialize (G3 l eq_refl). lia.
Qed.

(** [mask_sift_second_layer] gives the sift of first-layer IMF [ii] the mask
    frequencies from position [ii] on, and every mask sift needs at least
    one: whenever the function returns, there are at least as many mask
    frequencies as first-layer IMFs, and the result has one block for each
    first-layer IMF, all blocks with the same number of second-layer IMFs,
    every IMF having the length of the signal. *)
Theorem mask_sift_second_layer_needs_masks (fuel : nat) (IA : matrix) (freqs : list Q)
        (sift_args : option mask_args_dict) (imf2 : list matrix) :
  mask_sift_second_layer fuel IA freqs sift_args = Ok imf2 ->
  (length IA <= length freqs)%nat
  /\ length imf2 = length IA
  /\ exists width,
      Forall (fun block =>
                length block = width
                /\ Forall (fun col => length col = length (hd [] IA)) block) imf2.
Proof.
  unfold mask_sift_second_layer. cbn zeta.
  set (m := match sift_args with
            | Some {| margs_max_imfs := Some m |} => m
            | _ => Z.of_nat (length IA)
            end).
  destruct (m <? 0)%Z; [discriminate|]. intros H.
  pose proof (mapM_length _ _ _ H) as L. rewrite length_seq in L.
  destruct (mapM_result _ _ _ H) as [Hres Hall].
  split; [|split; [exact L|]].
  - destruct IA as [|c0 IA']; [cbn; lia|].
    set (IA := c0 :: IA') in *.
    destruct (Hall (length IA - 1)%nat) as (b & _ & Hb);
      [apply in_seq; cbn [length IA]; lia|].
    destruct (mask_sift _ _ _) as [tmp| |] eqn:Et; cbn [bind] in Hb; try discriminate.
    apply mask_sift_array_count with (l := skipn (length IA - 1) freqs) in Et;
      [|reflexivity].
    rewrite length_skipn in Et. lia.
  - exists (Z.to_nat m). apply Forall_forall. intros b Hb.
    destruct (Hres b Hb) as (ii & _ & Hrun).
    destruct (mask_sift _ _ _); cbn [bind] in Hrun; try discriminate.
    now apply assign_block_shape in Hrun.
Qed.

End SiftEngine.

(** ** Properties of the configuration objects *)

Open Scope string_scope.

Lemma dict_get_set_same (d : dict) (key : string) (value : pyval) :
  dict_get (dict_set d key value) key = Some value.
Proof.
  induction d as [|[k v] d IH]; cbn [dict_set dict_get].
  - now rewrite String.eqb_refl.
  - destruct (String.eqb k key) eqn:E; cbn [dict_get]; rewrite E; [reflexivity|exact IH].
Qed.

Lemma dict_get_set_other (d : dict) (key key' : string) (value : pyval) :
  key <> key' -> dict_get (dict_set d key value) key' = dict_get d key'.
Proof.
  intros Hne. induction d as [|[k v] d IH]; cbn [dict_set dict_get].
  - apply String.eqb_neq in Hne. now rewrite Hne.
  - destruct (String.eqb k key) eqn:E; cbn [dict_get].
    + apply String.eqb_eq in E. subst k. apply String.eqb_neq in Hne. now rewrite Hne.
    + now rewrite IH.
Qed.

Lemma dict_set_keys (d : dict) (key : string) (value v : pyval) :
  dict_get d key = Some v -> map fst (dict_set d key value) = map fst d.
Proof.
  induction d as [|[k v0] d IH]; cbn [dict_set dict_get map fst]; [discriminate|].
  destruct (String.eqb k key); cbn [map fst]; [reflexivity|].
  intros H. now rewrite IH.
Qed.

Lemma dict_has_get (d : dict) (key : string) :
  dict_has d key = false <-> dict_get d key = None.
Proof.
  induction d as [|[k v] d IH]; cbn [dict_has dict_get]; [split; reflexivity|].
  destruct (String.eqb k key); cbn [orb]; [split; discriminate|exact IH].
Qed.

Lemma str_split_length (sep : ascii) (s : string) :
  length (str_split sep s) = S (count_char sep s).
Proof.
  induction s as [|a s IH]; cbn [str_split count_char]; [reflexivity|].
  destruct (Ascii.eqb a sep); cbn [length]; [now rewrite IH|].
  destruct (str_split sep s) as [|w ws]; [discriminate|]. cbn [length] in *. lia.
Qed.

Lemma keytransform_deep (key : string) :
  (3 <= count_char "/" key)%nat ->
  __keytransform__ key
  = Fail (Builtin (ValueError
      "Requested key is nested too deep. Should be a                                  maximum of three levels separated by '/'")).
Proof.
  intros H. unfold __keytransform__. rewrite str_split_length.
  destruct (Nat.eqb_spec (S (count_char "/" key)) 1) as [|_]; [lia|].
  destruct (Nat.ltb_spec 3 (S (count_char "/" key))) as [_|]; [reflexivity|lia].
Qed.

(** A key of more than three levels, that is with three ['/'] or more, is
    refused with [ValueError] in reading, in assignment and in deletion
    alike, whatever the configuration holds. *)
Theorem config_key_nested_too_deep (self : SiftConfig) (key : string) (value : pyval) :
  (3 <= count_char "/" key)%nat ->
  let refused := Builtin (ValueError
      "Requested key is nested too deep. Should be a                                  maximum of three levels separated by '/'") in
  __getitem__ self key = Fail refused
  /\ __setitem__ self key value = Fail refused
  /\ __delitem__ self key = Fail refused.
Proof.
  intros H refused. unfold __getitem__, __setitem__, __delitem__.
  rewrite (keytransform_deep key H). repeat split; reflexivity.
Qed.

Lemma keytransform_cases (key : string) (form : key_form) :
  __keytransform__ key = Done form ->
  (count_char "/" key = 0%nat /\ exists k, form = single k)
  \/ (count_char "/" key = 1%nat /\ exists k0 k1, form = levels [k0; k1])
  \/ (count_char "/" key = 2%nat /\ exists k0 k1 k2, form = levels [k0; k1; k2]).
Proof.
  unfold __keytransform__. pose proof (str_split_length "/" key) as L.
  destruct (str_split "/" key) as [|k0 [|k1 [|k2 [|k3 rest]]]]; cbn [length] in L |- *;
    cbn [Nat.eqb Nat.ltb Nat.leb hd]; try discriminate;
    intros H; injection H as <-.
  - left. split; [lia|]. now exists k0.
  - right. left. split; [lia|]. now exists k0, k1.
  - right. right. split; [lia|]. now exists k0, k1, k2.
Qed.

(** What is assigned under a key is what is read under it afterwards, for
    keys of one, two and three levels. *)
Theorem config_set_then_get (self self' : SiftConfig) (key : string) (value : pyval) :
  __setitem__ self key value = Done self' ->
  __getitem__ self' key = Done value.
Proof.
  unfold __setitem__, __getitem__.
  destruct (__keytransform__ key) as [form|] eqn:Ek; cbn [and_then]; [|discriminate].
  destruct (keytransform_cases key form Ek)
    as [[_ [k ->]]|[[_ (k0 & k1 & ->)]|[_ (k0 & k1 & k2 & ->)]]].
  - intros H. injection H as <-. cbn [store getitem].
    now rewrite dict_get_set_same.
  - cbn [getitem]. destruct (dict_get (store self) k0) as [v0|]; cbn [and_then];
      [|discriminate].
    destruct v0; cbn [setitem and_then]; try discriminate.
    intros H. injection H as <-. cbn [store].
    rewrite dict_get_set_same. cbn [and_then getitem]. now rewrite dict_get_set_same.
  - cbn [getitem]. destruct (dict_get (store self) k0) as [v0|]; cbn [and_then];
      [|discriminate].
    destruct v0 as [| | | | | | | | |d0]; cbn [getitem and_then]; try discriminate.
    destruct (dict_get d0 k1) as [v1|]; cbn [and_then]; [|discriminate].
    destruct v1; cbn [setitem and_then]; try discriminate.
    intros H. injection H as <-. cbn [store].
    rewrite dict_get_set_same. cbn [and_then getitem].
    rewrite dict_get_set_same. cbn [and_then getitem]. now rewrite dict_get_set_same.
Qed.

(** An assignment through a key of several levels never creates a level: it
    fails with [KeyError] on the first level when the configuration has no
    such entry, and when it succeeds the configuration has the same
    top-level keys, in the same order, and the same [sift_type]. *)
Theorem config_nested_set_creates_nothing (self : SiftConfig) (key : string)
        (value : pyval) :
  (1 <= count_char "/" key <= 2)%nat ->
  let first := hd "" (str_split "/" key) in
  (dict_has (store self) first = false ->
   __setitem__ self key value = Fail (KeyError first))
  /\ (forall self', __setitem__ self key value = Done self' ->
                    __iter__ self' = __iter__ self /\ sift_type self' = sift_type self).
Proof.
  intros Hc first. unfold __setitem__, __iter__.
  destruct (__keytransform__ key) as [form|] eqn:Ek.
  2:{ exfalso. unfold __keytransform__ in Ek. rewrite str_split_length in Ek.
      destruct (Nat.eqb_spec (S (count_char "/" key)) 1); [lia|].
      destruct (Nat.ltb_spec 3 (S (count_char "/" key))); [lia|discriminate]. }
  assert (Hf : form = levels (str_split "/" key)).
  { unfold __keytransform__ in Ek. rewrite str_split_length in Ek.
    destruct (Nat.eqb_spec (S (count_char "/" key)) 1); [lia|].
    destruct (Nat.ltb_spec 3 (S (count_char "/" key))); [lia|]. now injection Ek as <-. }
  cbn [and_then].
  destruct (keytransform_cases key form Ek)
    as [[E _]|[[_ (k0 & k1 & E)]|[_ (k0 & k1 & k2 & E)]]]; [lia| |];
    rewrite E in Hf; injection Hf as Hs; subst form; unfold first; rewrite <- Hs;
    cbn [hd getitem].
  - split.
    + intros Hn. apply dict_has_get in Hn. now rewrite Hn.
    + intros self'. destruct (dict_get (store self) k0) as [v0|] eqn:E0; cbn [and_then];
        [|discriminate].
      destruct (setitem v0 k1 value); cbn [and_then]; [|discriminate].
      intros H. injection H as <-. cbn [store sift_type].
      split; [|reflexivity]. now apply dict_set_keys with (v := v0).
  - split.
    + intros Hn. apply dict_has_get in Hn. now rewrite Hn.
    + intros self'. destruct (dict_get (store self) k0) as [v0|] eqn:E0; cbn [and_then];
        [|discriminate].
      destruct (getitem v0 k1); cbn [and_then]; [|discriminate].
      destruct (setitem _ k2 value); cbn [and_then]; [|discriminate].
      intros H. injection H as <-. cbn [store sift_type].
      split; [|reflexivity]. now apply dict_set_keys with (v := v0).
Qed.

Close Scope string_scope.

Open Scope string_scope.

Lemma str_split_single (sep : ascii) (s : string) :
  count_char sep s = 0%nat -> str_split sep s = [s].
Proof.
  induction s as [|a s IH]; cbn [str_split count_char]; [reflexivity|].
  destruct (Ascii.eqb a sep); [discriminate|]. cbn [Nat.add]. intros H.
  now rewrite (IH H).
Qed.

Lemma keytransform_single (key : string) :
  count_char "/" key = 0%nat -> __keytransform__ key = Done (single key).
Proof.
  intros H. unfold __keytransform__. now rewrite (str_split_single _ _ H).
Qed.

Lemma dict_get_converted (d : dict) (key : string) :
  dict_get (_array_or_tuple_to_list d) key = option_map yaml_safe (dict_get d key).
Proof.
  unfold _array_or_tuple_to_list.
  induction d as [|[k v] d IH]; cbn [map dict_get]; [reflexivity|].
  destruct (String.eqb k key); [reflexivity|exact IH].
Qed.

Lemma dict_get_store_after (d : dict) (key : string) :
  dict_get (store_after_copy_converted d) key
  = option_map (fun v => match v with py_dict _ => yaml_safe v | _ => v end) (dict_get d key).
Proof.
  unfold store_after_copy_converted.
  induction d as [|[k v] d IH]; cbn [map dict_get]; [reflexivity|].
  destruct v; cbn [dict_get]; destruct (String.eqb k key); try reflexivity; exact IH.
Qed.

Lemma getitem_converted (v : pyval) (key : string) (r : pyval) :
  getitem v key = Done r -> getitem (yaml_safe v) key = Done (yaml_safe r).
Proof.
  destruct v; cbn [getitem]; try discriminate.
  change (yaml_safe (py_dict entries)) with (py_dict (_array_or_tuple_to_list entries)).
  cbn [getitem]. rewrite dict_get_converted.
  destruct (dict_get entries key); [|discriminate].
  intros H. now injection H as <-.
Qed.

(** [_get_yamlsafe_dict], and [to_yaml_text] and [to_yaml_file] through it,
    change the configuration they are called on.  The copy of the store is
    shallow, so the dictionaries under its keys are converted where they
    are: what is read afterwards under a key of several levels is the
    yaml-safe form of what was there (a tuple has become a list, an array a
    nested list), while an entry of the first level that is not a dictionary
    is unchanged in the configuration and converted in the result only. *)
Theorem yamlsafe_dict_converts_nested_in_place (self : SiftConfig) :
  let self' := fst (_get_yamlsafe_dict self) in
  let conf := nth 1 (snd (_get_yamlsafe_dict self)) py_none in
  (forall key v, (1 <= count_char "/" key)%nat ->
                 __getitem__ self key = Done v ->
                 __getitem__ self' key = Done (yaml_safe v))
  /\ (forall key v, count_char "/" key = 0%nat ->
                    __getitem__ self key = Done v ->
                    __getitem__ self' key
                    = Done (match v with py_dict _ => yaml_safe v | _ => v end)
                    /\ getitem conf key = Done (yaml_safe v)).
Proof.
  cbn zeta. unfold _get_yamlsafe_dict. cbn [fst snd nth]. split.
  - intros key v Hc. unfold __getitem__.
    destruct (__keytransform__ key) as [form|] eqn:Ek; cbn [and_then]; [|discriminate].
    destruct (keytransform_cases key form Ek)
      as [[E _]|[[_ (k0 & k1 & ->)]|[_ (k0 & k1 & k2 & ->)]]]; [lia| |];
      cbn [store getitem]; rewrite dict_get_store_after;
      destruct (dict_get (store self) k0) as [v0|]; cbn [option_map and_then];
      try discriminate.
    + destruct v0; try (cbn [getitem]; discriminate). apply getitem_converted.
    + destruct v0 as [| | | | | | | | |d0]; cbn [getitem and_then]; try discriminate.
      change (yaml_safe (py_dict d0)) with (py_dict (_array_or_tuple_to_list d0)).
      cbn [getitem]. rewrite dict_get_converted.
      destruct (dict_get d0 k1) as [v1|]; cbn [option_map and_then]; [|discriminate].
      apply getitem_converted.
  - intros key v Hc. unfold __getitem__. rewrite (keytransform_single key Hc).
    cbn [and_then store getitem]. rewrite dict_get_store_after, dict_get_converted.
    destruct (dict_get (store self) key) as [v0|]; cbn [option_map]; [|discriminate].
    intros H. injection H as <-. split; reflexivity.
Qed.

Lemma yaml_safe_spec :
  forall v : pyval,
    yaml_safe (yaml_safe v) = yaml_safe v
    /\ entries_are_lists (yaml_safe v) = true
    /\ match yaml_safe v with py_tuple _ | py_array _ => False | _ => True end.
Proof.
  fix IH 1. intros v.
  destruct v as [| | | | | |items|items|a|entries]; try (cbn; repeat split; reflexivity).
  - destruct a; cbn; repeat split; reflexivity.
  - assert (H : Forall (fun kv : string * pyval =>
                          yaml_safe (yaml_safe (snd kv)) = yaml_safe (snd kv)
                          /\ entries_are_lists (yaml_safe (snd kv)) = true
                          /\ match yaml_safe (snd kv) with
                             | py_tuple _ | py_array _ => False
                             | _ => True
                             end) entries).
    { induction entries as [|[k v'] es IHes]; constructor; [apply IH|exact IHes]. }
    clear IH. cbn [yaml_safe]. split; [|split; [|exact I]].
    + f_equal. induction H as [|[k v'] es (H1 & _) _ IHes]; cbn [map]; [reflexivity|].
      cbn [snd] in H1. now rewrite H1, IHes.
    + cbn [entries_are_lists].
      induction H as [|[k v'] es (_ & H2 & H3) _ IHes]; cbn [map forallb]; [reflexivity|].
      cbn [snd] in H2, H3. rewrite IHes, andb_true_r.
      destruct (yaml_safe v'); try exact H2; destruct H3.
Qed.

(** After [_array_or_tuple_to_list] no value held by the dictionary, or by a
    dictionary nested in it at any depth, is a tuple or an array, and a
    second conversion changes nothing.  (Values inside a list or a tuple are
    not visited.) *)
Theorem array_or_tuple_to_list_result (conf : dict) :
  entries_are_lists (py_dict (_array_or_tuple_to_list conf)) = true
  /\ _array_or_tuple_to_list (_array_or_tuple_to_list conf) = _array_or_tuple_to_list conf.
Proof.
  destruct (yaml_safe_spec (py_dict conf)) as (H1 & H2 & _).
  split; [exact H2|].
  change (yaml_safe (py_dict conf)) with (py_dict (_array_or_tuple_to_list conf)) in H1.
  change (yaml_safe (py_dict (_array_or_tuple_to_list conf)))
    with (py_dict (_array_or_tuple_to_list (_array_or_tuple_to_list conf))) in H1.
  now injection H1.
Qed.

Lemma dict_set_keys_incl (d : dict) (key k : string) (value : pyval) :
  In k (map fst (dict_set d key value)) -> k = key \/ In k (map fst d).
Proof.
  induction d as [|[k' v] d IH]; cbn [dict_set map fst In].
  - intros [<-|[]]. now left.
  - destruct (String.eqb k' key) eqn:E; cbn [map fst In].
    + intros [<-|H]; right; [now left|now right].
    + intros [<-|H]; [right; now left|].
      destruct (IH H) as [->|H']; [now left|right; now right].
Qed.

Lemma function_opts_keys (sig : signature) (ignore : list string) (k : string) :
  In k (map fst (_get_function_opts sig ignore)) -> In k (map fst sig).
Proof.
  unfold _get_function_opts.
  assert (G : forall out : dict,
             In k (map fst (fold_left
                              (fun out p =>
                                 if negb (dict_has out (fst p))
                                    && negb (existsb (String.eqb (fst p)) ignore)
                                 then dict_set out (fst p) (snd p)
                                 else out) sig out)) ->
             In k (map fst out) \/ In k (map fst sig)).
  { induction sig as [|p sig IH]; intros out; cbn [fold_left map In]; [now left|].
    intros H. apply IH in H. destruct H as [H|H]; [|right; now right].
    destruct (_ && _); [|now left].
    apply dict_set_keys_incl in H. destruct H as [->|H]; [right; now left|now left]. }
  intros H. destruct (G [] H) as [[]|H']. exact H'.
Qed.

Lemma dict_get_in (d : dict) (k : string) :
  In k (map fst d) -> exists v, dict_get d k = Some v.
Proof.
  induction d as [|[k' v] d IH]; cbn [map fst In dict_get]; [intros []|].
  destruct (String.eqb_spec k' k) as [->|Hne]; [now exists v|].
  intros [E|H]; [congruence|now apply IH].
Qed.

Lemma set_all_total (keys : list string) (sift_opts : dict) :
  (forall k, In k keys ->
             count_char "/" k = 0%nat /\ exists v, dict_get sift_opts k = Some v) ->
  forall out, exists out',
      set_all out keys sift_opts = Done out' /\ sift_type out' = sift_type out.
Proof.
  induction keys as [|k keys IH]; intros H out; cbn [set_all]; [now exists out|].
  destruct (H k (or_introl eq_refl)) as [Hc [v Hv]].
  cbn [getitem]. rewrite Hv. cbn [and_then].
  unfold __setitem__. rewrite (keytransform_single k Hc). cbn [and_then].
  destruct (IH (fun k' Hk' => H k' (or_intror Hk'))
               {| store := dict_set (store out) k v; sift_type := sift_type out |})
    as (out' & -> & Ht).
  now exists out'.
Qed.

(** For every sift variant that the module defines, whatever parameters
    [inspect.signature] finds for it, [get_config] returns a configuration
    of that variant whose [imf_opts], [envelope_opts] and [extrema_opts] are
    the defaults written in the signatures of [get_next_imf],
    [interp_envelope] and [get_padded_extrema], with the two padding
    dictionaries set to a median of 1 sample for magnitudes and to an odd
    reflection for locations.  The [imf_opts] and [envelope_opts] parameters
    of the variant itself, which the list of ignored names lets through, are
    overwritten. *)
Theorem get_config_defaults (module_signature : string -> option signature)
        (siftname : string) (sig : signature) :
  existsb (String.eqb siftname) sift_types = true ->
  module_signature siftname = Some sig ->
  Forall (fun p => count_char "/" (fst p) = 0%nat) sig ->
  exists cfg,
    get_config module_signature siftname = Done cfg
    /\ sift_type cfg = siftname
    /\ __getitem__ cfg "imf_opts"
       = Done (py_dict [("env_step_size", py_int 1); ("max_iters", py_int 1000);
                        ("energy_thresh", py_none); ("stop_method", py_str "sd");
                        ("sd_thresh", py_float (1#10));
                        ("rilling_thresh",
                         py_tuple [py_float (5#100); py_float (5#10); py_float (5#100)])])
    /\ __getitem__ cfg "envelope_opts" = Done (py_dict [("interp_method", py_str "splrep")])
    /\ __getitem__ cfg "extrema_opts"
       = Done (py_dict [("pad_width", py_int 2); ("parabolic_extrema", py_bool false);
                        ("mag_pad_opts",
                         py_dict [("mode", py_str "median"); ("stat_length", py_int 1)]);
                        ("loc_pad_opts",
                         py_dict [("mode", py_str "reflect");
                                  ("reflect_type", py_str "odd")])]).
Proof.
  intros Hin Hsig Hnames. unfold get_config. rewrite Hin, Hsig. cbn [and_then].
  unfold __init__. cbn [update and_then].
  set (sift_opts := _get_function_opts sig _).
  destruct (set_all_total (map fst sift_opts) sift_opts) with
      (out := {| store := []; sift_type := siftname |}) as (out & -> & Ht).
  { intros k Hk. split.
    - apply function_opts_keys in Hk. apply in_map_iff in Hk as (p & <- & Hp).
      rewrite Forall_forall in Hnames. now apply Hnames.
    - now apply dict_get_in. }
  cbn [sift_type] in Ht. cbn [and_then].
  unfold __setitem__ at 1. rewrite (keytransform_single "imf_opts" eq_refl).
  cbn [and_then store sift_type].
  unfold __setitem__ at 1. rewrite (keytransform_single "envelope_opts" eq_refl).
  cbn [and_then store sift_type].
  unfold __setitem__ at 1. rewrite (keytransform_single "extrema_opts" eq_refl).
  cbn [and_then store sift_type].
  set (s3 := dict_set (dict_set (dict_set (store out) "imf_opts" _) "envelope_opts" _)
                      "extrema_opts" _).
  unfold __setitem__ at 1.
  change (__keytransform__ "extrema_opts/mag_pad_opts")
    with (Done (levels ["extrema_opts"; "mag_pad_opts"])).
  cbn [and_then store sift_type getitem].
  unfold s3 at 1. rewrite dict_get_set_same. cbn [and_then setitem].
  unfold __setitem__.
  change (__keytransform__ "extrema_opts/loc_pad_opts")
    with (Done (levels ["extrema_opts"; "loc_pad_opts"])).
  cbn [and_then store sift_type getitem].
  rewrite dict_get_set_same. cbn [and_then setitem].
  eexists. split; [reflexivity|]. cbn [sift_type]. split; [exact Ht|].
  unfold __getitem__.
  rewrite (keytransform_single "imf_opts" eq_refl),
          (keytransform_single "envelope_opts" eq_refl),
          (keytransform_single "extrema_opts" eq_refl).
  cbn [and_then store getitem].
  rewrite dict_get_set_same.
  rewrite !(dict_get_set_other _ "extrema_opts" "imf_opts") by discriminate.
  rewrite !(dict_get_set_other _ "extrema_opts" "envelope_opts") by discriminate.
  unfold s3.
  rewrite !(dict_get_set_other _ "extrema_opts" "imf_opts") by discriminate.
  rewrite !(dict_get_set_other _ "extrema_opts" "envelope_opts") by discriminate.
  rewrite dict_get_set_same.
  rewrite (dict_get_set_other _ "envelope_opts" "imf_opts") by discriminate.
  rewrite dict_get_set_same.
  repeat split; reflexivity.
Qed.

Close Scope string_scope.

(** ** Worked examples *)

(** C1, counterexample. For the proto-IMF [skewed] with envelopes at 5 and
    -14/5 the candidate is [skewed - 1.1]: the code's metric, 7.26/83.68, is
    below the default threshold 0.1, so the criterion fires and
    [get_next_imf] returns the candidate, while the metric of the claim,
    7.26/68.06, is not below the threshold. *)
Lemma sd_metric_denominator_counterexample :
  let upper := repeat 5 6 in
  let lower := repeat (-(14#5)) 6 in
  let c := vsub skewed (map (fun v => v / 2) (vadd upper lower)) in
  stop_flag default_imf_opts skewed c upper lower 1 = Ok true
  /\ np_lt (spec_sd_metric skewed c) (sd_thresh default_imf_opts) = false
  /\ get_next_imf hold_kernel zero_log10 7 skewed default_imf_opts default_envelope_opts None
     = Ok (c, true).
Proof. vm_compute. repeat split; reflexivity. Qed.

Lemma sd_iteration_metric_witness :
  let upper := repeat 5 6 in
  let lower := repeat (-(14#5)) 6 in
  let avg := map (fun v => v / 2) (vadd upper lower) in
  let c := vsub skewed avg in
  let metric := np_div (sumsq (vsub skewed c)) (sumsq skewed) in
  sd_stop skewed c (sd_thresh default_imf_opts)
  = (np_lt metric (sd_thresh default_imf_opts), metric)
  /\ refine_loop hold_kernel 1 7 default_imf_opts default_envelope_opts None skewed 0
     = if np_lt metric (sd_thresh default_imf_opts) then Ok (c, true)
       else refine_loop hold_kernel 0 7 default_imf_opts default_envelope_opts None
                        (vsub skewed (vscale (env_step_size default_imf_opts) avg)) (0 + 1).
Proof.
  apply (sd_iteration_metric hold_kernel 0 7 default_imf_opts default_envelope_opts None
                             skewed (repeat 5 6) (repeat (-(14#5)) 6) 0);
    vm_compute; reflexivity.
Defined.

(** With an iteration cap of 0, the refinement of [lifted], whose first
    iteration does not meet the SD criterion, fails at the second. *)
Lemma refiner_convergence_failure_witness :
  let o := {| env_step_size := 1; max_iters := 0; energy_thresh := None;
              stop_method := "sd"; sd_thresh := 1#10;
              rilling_thresh := (5#100, 1#2, 5#100) |} in
  get_next_imf hold_kernel zero_log10 7 lifted o default_envelope_opts None
  = Raise (EMDSiftCovergeError 1)
  /\ (forall (k : nat) (c : sift_opts) (x0 : signal) (layer : Z) (imf : matrix),
         envelope_options c = default_envelope_opts -> extrema_options c = None ->
         sift_loop hold_kernel zero_log10 (S k) 7 c o x0 layer imf lifted
         = Raise (EMDSiftCovergeError 1))
  /\ (forall c : sift_opts,
         imf_options c = Some o -> envelope_options c = default_envelope_opts ->
         extrema_options c = None ->
         sift hold_kernel zero_log10 7 lifted c = Raise (EMDSiftCovergeError 1)).
Proof.
  apply (refiner_convergence_failure hold_kernel zero_log10 7 lifted
           {| env_step_size := 1; max_iters := 0; energy_thresh := None;
              stop_method := "sd"; sd_thresh := 1#10;
              rilling_thresh := (5#100, 1#2, 5#100) |} default_envelope_opts None).
  - reflexivity.
  - vm_compute. reflexivity.
  - vm_compute. lia.
Defined.

(** C5, counterexample. With [max_imfs=0] the sift of a constant signal
    returns one IMF, more than [max_imfs]: the cap is compared for equality
    with a layer count that starts at 1. *)
Lemma sift_cap_zero_counterexample :
  let c := {| sift_thresh := 1 # 100000000; max_imfs := Some 0%Z; imf_options := None;
              envelope_options := default_envelope_opts; extrema_options := None |} in
  sift hold_kernel zero_log10 1 [1; 1; 1] c = Ok [[1; 1; 1]]
  /\ (0 < Z.of_nat (length [[1; 1; 1]]))%Z.
Proof. vm_compute. split; reflexivity. Qed.

Lemma sift_layers_and_cap_witness :
  let c := {| sift_thresh := 1 # 100000000; max_imfs := Some 1%Z; imf_options := None;
              envelope_options := default_envelope_opts; extrema_options := None |} in
  let imf := [vsub skewed (repeat (11#10) 6)] in
  (1 <= length imf)%nat
  /\ (forall j, (j < length imf)%nat ->
                exists flag,
                  get_next_imf hold_kernel zero_log10 7 (residual skewed imf j)
                               default_imf_opts default_envelope_opts None
                  = Ok (nth j imf [], flag)
                  /\ (sift_stops c (Z.of_nat (S j)) (nth j imf []) flag = true
                      <-> S j = length imf))
  /\ (forall m, max_imfs c = Some m -> (1 <= m)%Z -> (Z.of_nat (length imf) <= m)%Z).
Proof.
  intros c imf.
  apply (sift_layers_and_cap hold_kernel zero_log10 7 skewed c imf).
  vm_compute. reflexivity.
Defined.

(** C6, counterexample. With [pad_width=0] the two peaks of [0, 1, 0, 1, 0]
    are returned unpadded: the smallest location is 1, not below 0, and the
    largest is 3, below the length 5. *)
Lemma unpadded_extrema_counterexample :
  let o := {| pad_width := 0; parabolic_extrema := false;
              loc_pad_mode := reflect true; mag_pad_mode := median1 |} in
  get_padded_extrema 6 [0; 1; 0; 1; 0] "peaks" o = Ok (Some ([1; 3], [1; 1]))
  /\ Qlt_bool (qmin [1; 3]) 0 = false
  /\ Qle_bool (inject_Z (Z.of_nat (length [0; 1; 0; 1; 0]))) (qmax [1; 3]) = false.
Proof. vm_compute. repeat split; reflexivity. Qed.

Lemma padded_locations_cover_signal_witness :
  qmin [-3; -1; 1; 3; 5; 7] < 0
  /\ inject_Z (Z.of_nat (length zigzag)) <= qmax [-3; -1; 1; 3; 5; 7].
Proof.
  apply (padded_locations_cover_signal 7 zigzag "peaks" default_extrema_opts
                                       [-3; -1; 1; 3; 5; 7] [1; 1; 1; 1; 1; 1]).
  - vm_compute. discriminate.
  - vm_compute. reflexivity.
Defined.


Lemma constant_signal_is_its_own_imf_witness :
  let x := repeat (3#2) 4 in
  _find_extrema x false = ([], [])
  /\ get_next_imf hold_kernel zero_log10 1 x default_imf_opts default_envelope_opts None
     = Ok (x, false)
  /\ sift hold_kernel zero_log10 1 x default_sift_opts = Ok [x].
Proof.
  apply (constant_signal_is_its_own_imf hold_kernel zero_log10 0 (3#2) 4 default_sift_opts);
    reflexivity.
Defined.

(** Four masks of amplitude 0 on [zigzag]: every phase stops by the SD
    criterion and reports that sifting can continue. *)
Lemma mask_continue_flag_is_disjunction_witness :
  let masked ii := vadd zigzag (mask_column unit_cos (length zigzag) (1#4) 0 4 ii) in
  exists imf flag,
    get_next_imf_mask hold_kernel zero_log10 unit_cos 7 zigzag (1#4) 0 4
                      None default_envelope_opts None = Ok (imf, flag)
    /\ (flag = true <->
        exists ii p, (ii < 4)%nat
                     /\ get_next_imf hold_kernel zero_log10 7 (masked ii) default_imf_opts
                                     default_envelope_opts None = Ok (p, true)).
Proof.
  apply (mask_continue_flag_is_disjunction hold_kernel zero_log10 unit_cos 7 zigzag (1#4) 0 4
           None default_envelope_opts None).
  - lia.
  - intros ii Hii.
    do 4 (destruct ii as [|ii]; [eexists; vm_compute; reflexivity|]). lia.
Defined.

(** Three realizations of two samples: the first found 3 IMFs, the other
    two found 2. *)
Lemma ensemble_average_index_error_witness :
  ensemble_average 2 None
                   [[[1; 2]; [3; 4]; [5; 6]]; [[1; 1]; [2; 2]]; [[3; 3]; [4; 4]]]
  = Raise IndexError.
Proof.
  apply (ensemble_average_index_error 2 None [[1; 2]; [3; 4]; [5; 6]]
                                      [[[1; 1]; [2; 2]]; [[3; 3]; [4; 4]]]).
  vm_compute. reflexivity.
Defined.

(** C3, on the code. Two runs of [complete_ensemble_sift] with the same seed
    7 and the same configuration, started in two states of the ambient
    randomness, return different IMFs: the driver never reads its seed, takes
    its noise matrix from the global generator and creates the generator of
    every realization unseeded.  (The runtime is the example one: the
    ambient randomness is a counter.) *)
Theorem complete_ensemble_sift_not_reproducible :
  let e := {| nensembles := 2; ensemble_noise := 1#5; noise_mode := "single";
              sift_options := default_sift_opts |} in
  let run w := fst (complete_ensemble_sift hold_kernel zero_log10 unit_std Z counter_entropy
                                           counter_random_sample constant_normal
                                           3 [1; 1; 1] e (Some 7%Z) w) in
  let first_sample r := match r with
                        | Ok (imf, _) => nth 0 (nth 0 imf []) 0
                        | _ => 0
                        end in
  run 1%Z = Ok ([[75 # 50; 75 # 50; 75 # 50]; [20000 # 5000; 20000 # 5000; 20000 # 5000]],
                [[0 # 625; 0 # 625; 0 # 625]; [0 # 625; 0 # 625; 0 # 625]])
  /\ run 5%Z = Ok ([[115 # 50; 115 # 50; 115 # 50];
                    [36000 # 5000; 36000 # 5000; 36000 # 5000]],
                   [[0 # 625; 0 # 625; 0 # 625]; [0 # 625; 0 # 625; 0 # 625]])
  /\ Qeq_bool (first_sample (run 1%Z)) (first_sample (run 5%Z)) = false.
Proof. vm_compute. repeat split; reflexivity. Qed.

(** The same two states with [ensemble_sift] and seed 7 give one result. *)
Lemma ensemble_sift_reproducible_example :
  let e := {| nensembles := 2; ensemble_noise := 1#5; noise_mode := "single";
              sift_options := default_sift_opts |} in
  let run w := fst (ensemble_sift hold_kernel zero_log10 unit_std Z counter_entropy
                                  linear_generate_state constant_normal
                                  3 [1; 1; 1] e (Some 7%Z) w) in
  run 1%Z = run 5%Z.
Proof.
  intros e run.
  apply (ensemble_sift_reproducible hold_kernel zero_log10 unit_std Z counter_entropy
                                    linear_generate_state constant_normal 3 [1; 1; 1] e 7%Z).
Defined.

(** The consensus step on a run in which the first realization is in the
    majority: the minority realization is left out of the average. *)
Lemma ensemble_average_majority_example :
  ensemble_average 2 None
                   [[[1; 1]; [2; 2]]; [[1; 2]; [3; 4]; [5; 6]]; [[3; 3]; [4; 4]]]
  = Ok [mean_axis0 2 [[1; 1]; [3; 3]]; mean_axis0 2 [[2; 2]; [4; 4]]].
Proof.
  exact (ensemble_average_within 2 None [[1; 1]; [2; 2]]
                                 [[[1; 2]; [3; 4]; [5; 6]]; [[3; 3]; [4; 4]]]
                                 ltac:(vm_compute; split; discriminate)).
Defined.

(** *** Extrema, padding and envelopes *)

Lemma padded_extrema_aligned_witness :
  length [1; 1; 1; 1; 1; 1] = length [-3; -1; 1; 3; 5; 7]
  /\ (loc_pad_mode default_extrema_opts = reflect true -> spaced [-3; -1; 1; 3; 5; 7]).
Proof.
  apply (padded_extrema_aligned 7 zigzag "peaks" default_extrema_opts
                                [-3; -1; 1; 3; 5; 7] [1; 1; 1; 1; 1; 1]).
  vm_compute. reflexivity.
Defined.

Lemma envelope_defined_on_whole_signal_witness :
  exists env, interp_envelope hold_kernel 7 zigzag "upper" default_envelope_opts None
              = Ok (Some env)
              /\ length env = length zigzag.
Proof.
  apply (envelope_defined_on_whole_signal hold_kernel 7 zigzag "upper"
                                          default_envelope_opts None).
  - reflexivity.
  - reflexivity.
  - reflexivity.
  - vm_compute. discriminate.
  - vm_compute. lia.
  - vm_compute. lia.
Defined.


(** Under the [edge] policy the padded locations of [zigzag] stay at 1 and 3
    and the loop runs for as long as it is given. *)
Lemma edge_policy_never_covers_witness :
  get_padded_extrema 50 zigzag "peaks"
                     {| pad_width := 2; parabolic_extrema := false;
                        loc_pad_mode := edge; mag_pad_mode := median1 |}
  = OutOfFuel.
Proof.
  apply (edge_policy_never_covers 50 zigzag "peaks"
           {| pad_width := 2; parabolic_extrema := false;
              loc_pad_mode := edge; mag_pad_mode := median1 |}).
  - reflexivity.
  - reflexivity.
  - vm_compute. discriminate.
  - vm_compute. lia.
Defined.

(** *** The refiner and the sifts *)

Lemma sift_columns_have_signal_length_witness :
  Forall (fun col => length col = length skewed) [vsub skewed (repeat (11#10) 6)].
Proof.
  apply (sift_columns_have_signal_length hold_kernel zero_log10 7 skewed
           {| sift_thresh := 1 # 100000000; max_imfs := Some 1%Z; imf_options := None;
              envelope_options := default_envelope_opts; extrema_options := None |}).
  vm_compute. reflexivity.
Defined.

(** A ramp has no peak: the refiner returns it at once. *)
Lemma fixed_stop_below_one_never_fires_witness :
  let o := {| env_step_size := 1; max_iters := 0; energy_thresh := None;
              stop_method := "fixed"; sd_thresh := 1#10;
              rilling_thresh := (5#100, 1#2, 5#100) |} in
  false = false
  /\ (interp_envelope hold_kernel 5 [0; 1; 2; 3] "upper" default_envelope_opts None = Ok None
      \/ interp_envelope hold_kernel 5 [0; 1; 2; 3] "lower" default_envelope_opts None
         = Ok None).
Proof.
  intros o.
  apply (fixed_stop_below_one_never_fires hold_kernel zero_log10 5 [0; 1; 2; 3] o
                                          default_envelope_opts None [0; 1; 2; 3] false).
  - reflexivity.
  - vm_compute. discriminate.
  - vm_compute. reflexivity.
Defined.

Lemma sd_stop_nonpositive_threshold_never_fires_witness :
  let o := {| env_step_size := 1; max_iters := 1000; energy_thresh := None;
              stop_method := "sd"; sd_thresh := 0;
              rilling_thresh := (5#100, 1#2, 5#100) |} in
  false = false
  /\ (interp_envelope hold_kernel 5 [0; 1; 2; 3] "upper" default_envelope_opts None = Ok None
      \/ interp_envelope hold_kernel 5 [0; 1; 2; 3] "lower" default_envelope_opts None
         = Ok None).
Proof.
  intros o.
  apply (sd_stop_nonpositive_threshold_never_fires hold_kernel zero_log10 5 [0; 1; 2; 3] o
           default_envelope_opts None [0; 1; 2; 3] false).
  - reflexivity.
  - vm_compute. discriminate.
  - vm_compute. reflexivity.
Defined.

(** ['energy'] is none of the three stopping rules; [zigzag] has both
    envelopes. *)
Lemma unknown_stop_method_unbound_witness :
  let o := {| env_step_size := 1; max_iters := 1000; energy_thresh := None;
              stop_method := "energy"; sd_thresh := 1#10;
              rilling_thresh := (5#100, 1#2, 5#100) |} in
  (forall u l, (0 <= max_iters o)%Z -> (0 < 7)%nat ->
               interp_envelope hold_kernel 7 zigzag "upper" default_envelope_opts None
               = Ok (Some u) ->
               interp_envelope hold_kernel 7 zigzag "lower" default_envelope_opts None
               = Ok (Some l) ->
               get_next_imf hold_kernel zero_log10 7 zigzag o default_envelope_opts None
               = Raise (UnboundLocalError "stop"))
  /\ (forall q flag,
         get_next_imf hold_kernel zero_log10 7 zigzag o default_envelope_opts None
         = Ok (q, flag) -> q = zigzag /\ flag = false).
Proof.
  intros o.
  apply (unknown_stop_method_unbound hold_kernel zero_log10 7 zigzag o
                                     default_envelope_opts None).
  reflexivity.
Defined.

Lemma rilling_stop_accepts_zero_mean_witness :
  fst (rilling_stop [1; 2; 0] [-1; -2; 0] (5#100) (1#2) (5#100)) = true.
Proof.
  apply (rilling_stop_accepts_zero_mean [1; 2; 0] [-1; -2; 0] (5#100) (1#2) (5#100)).
  - repeat constructor.
  - vm_compute. discriminate.
  - vm_compute. discriminate.
  - vm_compute. discriminate.
Defined.

(** *** Mask sift *)

(** [-1, 1, 2] has no peak, so the first IMF is the signal and has one sign
    change in three samples. *)
Lemma zero_crossing_mask_frequency_range_witness :
  0 <= 1#12 /\ 1#12 < 1#4.
Proof.
  apply (zero_crossing_mask_frequency_range hold_kernel zero_log10 no_frequency_transform
                                            5 [-1; 1; 2] None (1#12)).
  - discriminate.
  - vm_compute. reflexivity.
Defined.

(** Two mask frequencies and masks of amplitude 0 on [zigzag]: two IMFs. *)
Lemma mask_sift_shape_and_count_witness :
  let c := {| mask_amp := amp_scalar 0; mask_amp_mode := "ratio_imf";
              mask_freqs := freqs_array [1#4; 1#8]; mask_step_factor := 2;
              mask_max_imfs := 9; mask_sift_thresh := 1 # 100000000; nphases := 4;
              mask_imf_opts := None; mask_envelope_opts := default_envelope_opts;
              mask_extrema_opts := None |} in
  exists imf,
    mask_sift hold_kernel zero_log10 unit_std unit_cos no_frequency_transform 7 zigzag c
    = Ok imf
    /\ (1 <= length imf)%nat
    /\ Forall (fun col => length col = length zigzag) imf
    /\ (forall l, mask_freqs c = freqs_array l -> (length imf <= length l)%nat)
    /\ ((1 <= mask_max_imfs c)%Z -> (Z.of_nat (length imf) <= mask_max_imfs c)%Z).
Proof.
  intros c. eexists. split.
  - vm_compute. reflexivity.
  - apply (mask_sift_shape_and_count hold_kernel zero_log10 unit_std unit_cos
                                     no_frequency_transform 7 zigzag c).
    vm_compute. reflexivity.
Defined.

(** *** Complete ensemble sift *)

(** With [max_imfs=0] on a constant signal: the first IMF and one more. *)
Lemma complete_ensemble_sift_imf_count_witness :
  let e := {| nensembles := 2; ensemble_noise := 1#5; noise_mode := "single";
              sift_options := {| sift_thresh := 1 # 100000000; max_imfs := Some 0%Z;
                                 imf_options := None;
                                 envelope_options := default_envelope_opts;
                                 extrema_options := None |} |} in
  exists imf noise,
    fst (complete_ensemble_sift hold_kernel zero_log10 unit_std Z counter_entropy
                                counter_random_sample constant_normal
                                3 [1; 1; 1] e (Some 7%Z) 1%Z) = Ok (imf, noise)
    /\ (2 <= length imf)%nat
    /\ (forall m, max_imfs (sift_options e) = Some m -> (0 <= m)%Z ->
                  (Z.of_nat (length imf) <= m + 2)%Z).
Proof.
  intros e. eexists. eexists. split.
  - vm_compute. reflexivity.
  - eapply (complete_ensemble_sift_imf_count hold_kernel zero_log10 unit_std Z counter_entropy
             counter_random_sample constant_normal 3 [1; 1; 1] e (Some 7%Z) 1%Z).
    vm_compute. reflexivity.
Defined.

(** *** IMF checks and second-layer sifts *)

(** A ramp and a constant column: neither has two peaks. *)
Lemma is_imf_needs_both_envelopes_witness :
  is_imf hold_kernel no_peaks 7 [[0; 1; 2; 3]; [1; 1; 1]] (5#100) default_envelope_opts None
  = Ok (map (fun _ => (false, false)) [[0; 1; 2; 3]; [1; 1; 1]]).
Proof.
  apply (is_imf_needs_both_envelopes hold_kernel no_peaks 7 [[0; 1; 2; 3]; [1; 1; 1]] (5#100)
                                     default_envelope_opts None).
  - reflexivity.
  - reflexivity.
  - vm_compute. discriminate.
  - repeat constructor; vm_compute; lia.
Defined.

Lemma sift_second_layer_default_args_rejected_witness :
  sift_second_layer hold_kernel zero_log10 7 [zigzag] None = Raise TypeError.
Proof.
  apply (sift_second_layer_default_args_rejected hold_kernel zero_log10 7 [zigzag]).
  discriminate.
Defined.

(** Two first-layer IMFs and [max_imfs=1]: only the first is sifted. *)
Lemma sift_second_layer_shape_witness :
  let d := {| args_max_imfs := key_value (Some 1%Z); other_args := default_sift_opts |} in
  exists imf2 width,
    sift_second_layer hold_kernel zero_log10 7 [skewed; skewed] (Some d) = Ok imf2
    /\ (width <= length [skewed; skewed])%nat
    /\ (args_max_imfs d = key_absent -> width = length [skewed; skewed])
    /\ (forall m, args_max_imfs d = key_value (Some m) -> Z.of_nat width = m)
    /\ length imf2 = length [skewed; skewed]
    /\ Forall (fun block =>
                 length block = width
                 /\ Forall (fun col => length col = length (hd [] [skewed; skewed])) block)
              imf2
    /\ (forall ii, (width <= ii < length [skewed; skewed])%nat ->
                   nth ii imf2 [] = repeat (repeat 0 (length (hd [] [skewed; skewed]))) width).
Proof.
  intros d. eexists.
  assert (R : sift_second_layer hold_kernel zero_log10 7 [skewed; skewed] (Some d) = Ok _)
    by (vm_compute; reflexivity).
  destruct (sift_second_layer_shape hold_kernel zero_log10 7 [skewed; skewed] d _ R)
    as (width & H).
  exists width. split; [exact R|exact H].
Defined.

(** Two first-layer IMFs and two mask frequencies, masks of amplitude 0. *)
Lemma mask_sift_second_layer_needs_masks_witness :
  let d := {| margs_max_imfs := Some 2%Z;
              other_mask_args :=
                {| mask_amp := amp_scalar 0; mask_amp_mode := "ratio_imf";
                   mask_freqs := freqs_name "zc"; mask_step_factor := 2;
                   mask_max_imfs := 9; mask_sift_thresh := 1 # 100000000; nphases := 4;
                   mask_imf_opts := None; mask_envelope_opts := default_envelope_opts;
                   mask_extrema_opts := None |} |} in
  exists imf2,
    mask_sift_second_layer hold_kernel zero_log10 unit_std unit_cos no_frequency_transform
                           7 [zigzag; zigzag] [1#4; 1#8] (Some d) = Ok imf2
    /\ (length [zigzag; zigzag] <= length [1#4; 1#8])%nat
    /\ length imf2 = length [zigzag; zigzag]
    /\ exists width,
        Forall (fun block =>
                  length block = width
                  /\ Forall (fun col => length col = length (hd [] [zigzag; zigzag])) block)
               imf2.
Proof.
  intros d. eexists. split.
  - vm_compute. reflexivity.
  - apply (mask_sift_second_layer_needs_masks hold_kernel zero_log10 unit_std unit_cos
             no_frequency_transform 7 [zigzag; zigzag] [1#4; 1#8] (Some d)).
    vm_compute. reflexivity.
Defined.

(** *** Configuration objects *)

Open Scope string_scope.

Lemma config_key_nested_too_deep_witness :
  let self := {| store := [("imf_opts", py_dict [("max_iters", py_int 1000)])];
                 sift_type := "sift" |} in
  let refused := Builtin (ValueError
      "Requested key is nested too deep. Should be a                                  maximum of three levels separated by '/'") in
  __getitem__ self "imf_opts/a/b/c" = Fail refused
  /\ __setitem__ self "imf_opts/a/b/c" py_none = Fail refused
  /\ __delitem__ self "imf_opts/a/b/c" = Fail refused.
Proof.
  intros self.
  apply (config_key_nested_too_deep self "imf_opts/a/b/c" py_none).
  vm_compute. lia.
Defined.

Lemma config_set_then_get_witness :
  let self := {| store := [("sift_thresh", py_float (1 # 100000000));
                           ("imf_opts", py_dict [("max_iters", py_int 1000)])];
                 sift_type := "sift" |} in
  exists self',
    __setitem__ self "imf_opts/max_iters" (py_int 5) = Done self'
    /\ __getitem__ self' "imf_opts/max_iters" = Done (py_int 5).
Proof.
  intros self. eexists. split.
  - vm_compute. reflexivity.
  - apply (config_set_then_get self _ "imf_opts/max_iters" (py_int 5)).
    vm_compute. reflexivity.
Defined.

(** No section is created by assigning to one of its options. *)
Lemma config_nested_set_creates_nothing_witness :
  let self := {| store := [("imf_opts", py_dict [("max_iters", py_int 1000)])];
                 sift_type := "sift" |} in
  let first := hd "" (str_split "/" "mask_opts/nphases") in
  (dict_has (store self) first = false ->
   __setitem__ self "mask_opts/nphases" (py_int 8) = Fail (KeyError first))
  /\ (forall self', __setitem__ self "mask_opts/nphases" (py_int 8) = Done self' ->
                    __iter__ self' = __iter__ self /\ sift_type self' = sift_type self).
Proof.
  intros self.
  apply (config_nested_set_creates_nothing self "mask_opts/nphases" (py_int 8)).
  vm_compute. lia.
Defined.

(** The configuration of [sift] in a module where the decorators hand the
    signature of [sift] on. *)
Lemma get_config_defaults_witness :
  exists cfg,
    get_config only_sift "sift" = Done cfg
    /\ sift_type cfg = "sift"
    /\ __getitem__ cfg "imf_opts"
       = Done (py_dict [("env_step_size", py_int 1); ("max_iters", py_int 1000);
                        ("energy_thresh", py_none); ("stop_method", py_str "sd");
                        ("sd_thresh", py_float (1#10));
                        ("rilling_thresh",
                         py_tuple [py_float (5#100); py_float (5#10); py_float (5#100)])])
    /\ __getitem__ cfg "envelope_opts" = Done (py_dict [("interp_method", py_str "splrep")])
    /\ __getitem__ cfg "extrema_opts"
       = Done (py_dict [("pad_width", py_int 2); ("parabolic_extrema", py_bool false);
                        ("mag_pad_opts",
                         py_dict [("mode", py_str "median"); ("stat_length", py_int 1)]);
                        ("loc_pad_opts",
                         py_dict [("mode", py_str "reflect");
                                  ("reflect_type", py_str "odd")])]).
Proof.
  apply (get_config_defaults only_sift "sift" sig_sift).
  - reflexivity.
  - reflexivity.
  - repeat constructor.
Defined.

Close Scope string_scope.
